(** * translateppt: the translation client, its reconciliation engine and the
    document adapters

    A shallow embedding of [backend/translator.py] and
    [backend/document_handler.py].

    Conventions.
    - A Python [str] is a sequence of Unicode code points: [str := list char]
      with [char := N].  Whitespace is the set recognised by [str.isspace],
      which is also what [str.strip] trims and what [\s] matches in a [re]
      pattern over [str].
    - Python integers are unbounded: lengths are [nat], arithmetic on them is
      done in [Z] where the source subtracts.
    - Exceptions are values of [exn]; a function that may raise returns
      [result A].
    - Calls to [LOGGER] are not modelled: they neither return a value nor
      change control flow. *)

From Stdlib Require Import ZArith NArith QArith Lia Bool Ascii String.
From Stdlib Require Import DecimalNat DecimalString.
From stdpp Require Import base option list strings gmap.

Open Scope N_scope.

(** ** Python strings *)

Abbreviation char := N.
Abbreviation str := (list N).

(** Code point of an ASCII character, to write literals. *)
Definition ch (a : ascii) : char := N_of_ascii a.

(** [py "abc"] is the Python string 'abc'. *)
Definition py (s : string) : str := map ch (list_ascii_of_string s).

(** U+0022 QUOTATION MARK and U+005C REVERSE SOLIDUS. *)
Definition QUOTE : char := 34.
Definition BACKSLASH : char := 92.

(** [pyq] writes a literal that contains double quotes: every apostrophe of
    the argument stands for a quotation mark. *)
Definition pyq (s : string) : str :=
  map (fun c => if c =? ch "'"%char then QUOTE else c) (py s).

(** The code points for which [str.isspace] holds (CPython 3.11). *)
Definition whitespace_code_points : list char :=
  [9; 10; 11; 12; 13; 28; 29; 30; 31; 32; 133; 160; 5760;
   8192; 8193; 8194; 8195; 8196; 8197; 8198; 8199; 8200; 8201; 8202;
   8232; 8233; 8239; 8287; 12288].

Definition isspace (c : char) : bool := existsb (N.eqb c) whitespace_code_points.

(** [c in chars] for a one-character string [c]. *)
Definition char_in (c : char) (chars : str) : bool := existsb (N.eqb c) chars.

Fixpoint lstrip (s : str) : str :=
  match s with
  | [] => []
  | c :: rest => if isspace c then lstrip rest else s
  end.

Definition rstrip (s : str) : str := rev (lstrip (rev s)).

Definition strip (s : str) : str := rstrip (lstrip s).

(** [s.startswith(prefix)] *)
Fixpoint startswith (s prefix : str) : bool :=
  match prefix, s with
  | [], _ => true
  | _ :: _, [] => false
  | p :: prefix', c :: s' => (c =? p) && startswith s' prefix'
  end.

(** [s.endswith(suffix)] *)
Definition endswith (s suffix : str) : bool := startswith (rev s) (rev suffix).

(** [s.endswith((a, b, ...))]: true when [s] ends with one of the suffixes. *)
Definition endswith_any (s : str) (suffixes : list str) : bool :=
  existsb (endswith s) suffixes.

(** [s.find(c)] for a one-character [c]: the first index, or [None] for -1. *)
Fixpoint find_char (c : char) (s : str) : option nat :=
  match s with
  | [] => None
  | x :: rest => if x =? c then Some 0%nat else S <$> find_char c rest
  end.

(** [s[start:stop]] for [0 <= start <= stop]. *)
Definition slice (s : str) (start stop : nat) : str :=
  take (stop - start) (drop start s).

(** [str(n)] for a non-negative integer [n], as an f-string formats it: the
    decimal digits, most significant first. *)
Definition str_of_nat (n : nat) : str :=
  py (NilEmpty.string_of_uint (Nat.to_uint n)).

(** ** Exceptions *)

Inductive translation_failure :=
| FailedToContact
| ApiReturned (status : Z) (body : str)
| CouldNotParse
| CountMismatch.

Inductive exn :=
| TranslationError (why : translation_failure)
| KeyError
| IndexError
| TypeError
| AttributeError
| JSONDecodeError
| RecursionError
| ValueError
| IllegalCharacterError.

Inductive result (A : Type) :=
| Ok (a : A)
| Raise (e : exn).
Arguments Ok {A} a.
Arguments Raise {A} e.

Definition bind {A B} (r : result A) (k : A -> result B) : result B :=
  match r with
  | Ok a => k a
  | Raise e => Raise e
  end.

Notation "'let*' x ':=' r 'in' k" := (bind r (fun x => k))
  (at level 10, x name, r at level 100, k at level 200).

Notation "'let*' ' p ':=' r 'in' k" := (bind r (fun p => k))
  (at level 10, p pattern, r at level 100, k at level 200).

(** ** JSON values and [json.loads]

    The value [json.loads] builds: [None], [bool], a number (kept as the
    lexeme that was read), [str], [list], and [dict] (the members in source
    order; a later member with the same key wins on lookup). *)

#[warnings="-register-all"]
Inductive json :=
| JNull
| JBool (b : bool)
| JNumber (lexeme : str)
| JString (s : str)
| JArray (items : list json)
| JObject (members : list (str * json)).

(** ** The interpreter

    What the code takes from the Python runtime and is not written out
    here: the Unicode table behind [str.islower]; [str()] of a decoded
    value that is not already a string; how many arrays and objects, one
    inside the other, the decoder may enter inside the outermost one at
    the place [json.loads] is called from before it raises
    [RecursionError]; the longest run of
    digits [int] converts before it raises [ValueError]
    ([sys.get_int_max_str_digits()], 0 for no limit); and the truth value
    of the [int] or [float] a number literal decodes to. *)

Class PyRuntime := {
  islower : char -> bool;
  repr_value : json -> str;
  json_nesting_limit : nat;
  int_max_str_digits : nat;
  number_truth : str -> bool;
}.

(** JSON insignificant whitespace: space, tab, line feed, carriage return. *)
Definition json_ws (c : char) : bool := char_in c [32; 9; 10; 13].

Fixpoint skip_ws (s : str) : str :=
  match s with
  | [] => []
  | c :: rest => if json_ws c then skip_ws rest else s
  end.

Definition is_digit (c : char) : bool := (48 <=? c) && (c <=? 57).

Definition hex_value (c : char) : option N :=
  if (48 <=? c) && (c <=? 57) then Some (c - 48)
  else if (97 <=? c) && (c <=? 102) then Some (c - 87)
  else if (65 <=? c) && (c <=? 70) then Some (c - 55)
  else None.

(** Four hexadecimal digits after a backslash-u. *)
Definition hex4 (s : str) : option (N * str) :=
  match s with
  | a :: b :: c :: d :: rest =>
      match hex_value a, hex_value b, hex_value c, hex_value d with
      | Some a, Some b, Some c, Some d => Some (((a * 16 + b) * 16 + c) * 16 + d, rest)
      | _, _, _, _ => None
      end
  | _ => None
  end.

(** The body of a string literal, after its opening quotation mark
    ([strict=True]: a control character is refused).  A high surrogate
    followed by an escaped low surrogate is one code point. *)
Fixpoint scanstring (fuel : nat) (s : str) (acc : str) : option (str * str) :=
  match fuel with
  | O => None
  | S fuel' =>
    match s with
    | [] => None
    | c :: rest =>
      if c =? QUOTE then Some (rev acc, rest)
      else if c <? 32 then None
      else if c =? BACKSLASH then
        match rest with
        | [] => None
        | e :: rest' =>
          if e =? ch "u" then
            match hex4 rest' with
            | None => None
            | Some (u, rest'') =>
              if (55296 <=? u) && (u <=? 56319) then
                match rest'' with
                | b :: u' :: rest3 =>
                  if (b =? BACKSLASH) && (u' =? ch "u") then
                    match hex4 rest3 with
                    | Some (lo, rest4) =>
                      if (56320 <=? lo) && (lo <=? 57343)
                      then scanstring fuel' rest4
                             ((65536 + (u - 55296) * 1024 + (lo - 56320)) :: acc)
                      else scanstring fuel' rest'' (u :: acc)
                    | None => scanstring fuel' rest'' (u :: acc)
                    end
                  else scanstring fuel' rest'' (u :: acc)
                | _ => scanstring fuel' rest'' (u :: acc)
                end
              else scanstring fuel' rest'' (u :: acc)
            end
          else if e =? QUOTE then scanstring fuel' rest' (QUOTE :: acc)
          else if e =? BACKSLASH then scanstring fuel' rest' (BACKSLASH :: acc)
          else if e =? ch "/" then scanstring fuel' rest' (ch "/" :: acc)
          else if e =? ch "b" then scanstring fuel' rest' (8 :: acc)
          else if e =? ch "f" then scanstring fuel' rest' (12 :: acc)
          else if e =? ch "n" then scanstring fuel' rest' (10 :: acc)
          else if e =? ch "r" then scanstring fuel' rest' (13 :: acc)
          else if e =? ch "t" then scanstring fuel' rest' (9 :: acc)
          else None
        end
      else scanstring fuel' rest (c :: acc)
    end
  end.

(** The longest prefix of digits. *)
Fixpoint span_digits (s : str) : str * str :=
  match s with
  | [] => ([], [])
  | c :: rest =>
      if is_digit c then let '(ds, r) := span_digits rest in (c :: ds, r)
      else ([], s)
  end.

(** The number pattern of the scanner: an optional minus sign; a zero, or a
    non-zero digit followed by digits; optionally a point and at least one
    digit; optionally an exponent mark, a sign and at least one digit. *)
Definition match_number (s : str) : option (str * str) :=
  let '(sign, s1) :=
    match s with
    | c :: r => if c =? ch "-" then ([c], r) else ([], s)
    | [] => ([], s)
    end in
  let integer :=
    match s1 with
    | c :: r =>
        if c =? ch "0" then Some ([c], r)
        else if is_digit c then let '(ds, r') := span_digits r in Some (c :: ds, r')
        else None
    | [] => None
    end in
  match integer with
  | None => None
  | Some (int_part, s2) =>
    let '(frac, s3) :=
      match s2 with
      | c :: r =>
          if c =? ch "." then
            match span_digits r with
            | ([], _) => ([], s2)
            | (ds, r') => (c :: ds, r')
            end
          else ([], s2)
      | [] => ([], s2)
      end in
    let '(exp, s4) :=
      match s3 with
      | c :: r =>
          if (c =? ch "e") || (c =? ch "E") then
            let '(sg, r1) :=
              match r with
              | x :: r0 => if (x =? ch "-") || (x =? ch "+") then ([x], r0) else ([], r)
              | [] => ([], r)
              end in
            match span_digits r1 with
            | ([], _) => ([], s3)
            | (ds, r') => (c :: sg ++ ds, r')
            end
          else ([], s3)
      | [] => ([], s3)
      end in
    Some (sign ++ int_part ++ frac ++ exp, s4)
  end.

(** [strip_prefix word s]: the rest of [s] after [word], when [s] starts
    with it. *)
Fixpoint strip_prefix (word s : str) : option str :=
  match word, s with
  | [], _ => Some s
  | _ :: _, [] => None
  | w :: word', c :: s' => if c =? w then strip_prefix word' s' else None
  end.

(** The digits of an integer lexeme (no fraction, no exponent), which
    [int] converts; [None] for a lexeme [float] converts. *)
Definition integer_digits (lexeme : str) : option nat :=
  if existsb (fun c => (c =? ch ".") || (c =? ch "e") || (c =? ch "E")) lexeme
  then None
  else Some (length (filter (fun c => is_digit c = true) lexeme)).

Section Decoder.
Context `{PyRuntime}.

(** [int(lexeme)] raises [ValueError] on more digits than the limit. *)
Definition number_too_long (lexeme : str) : bool :=
  match integer_digits lexeme with
  | Some digits =>
      negb (int_max_str_digits =? 0)%nat && (int_max_str_digits <? digits)%nat
  | None => false
  end.

(** [scan_once]: one value at the head of [s] and the rest of the text, or
    the exception the decoder raises: [JSONDecodeError] on text that is not
    JSON, [RecursionError] on entering an array or an object when [room]
    is used up, [ValueError] on an integer of too many digits.  The fuel
    bounds the nesting and the number of members; [json_loads] supplies
    more than any text can use. *)
Fixpoint scan_once (fuel room : nat) (s : str) : result (json * str) :=
  match fuel with
  | O => Raise JSONDecodeError
  | S fuel' =>
    match s with
    | [] => Raise JSONDecodeError
    | c :: rest =>
      if c =? QUOTE then
        match scanstring (S (length rest)) rest [] with
        | Some (body, r) => Ok (JString body, r)
        | None => Raise JSONDecodeError
        end
      else if c =? ch "{" then
        match room with
        | O => Raise RecursionError
        | S room' =>
          match skip_ws rest with
          | c' :: r => if c' =? ch "}" then Ok (JObject [], r)
                       else let* '(ms, r') := parse_members fuel' room' (c' :: r) in
                            Ok (JObject ms, r')
          | [] => Raise JSONDecodeError
          end
        end
      else if c =? ch "[" then
        match room with
        | O => Raise RecursionError
        | S room' =>
          match skip_ws rest with
          | c' :: r => if c' =? ch "]" then Ok (JArray [], r)
                       else let* '(vs, r') := parse_items fuel' room' (c' :: r) in
                            Ok (JArray vs, r')
          | [] => Raise JSONDecodeError
          end
        end
      else
        match (if c =? ch "n" then strip_prefix (py "null") s else None) with
        | Some r => Ok (JNull, r)
        | None =>
        match (if c =? ch "t" then strip_prefix (py "true") s else None) with
        | Some r => Ok (JBool true, r)
        | None =>
        match (if c =? ch "f" then strip_prefix (py "false") s else None) with
        | Some r => Ok (JBool false, r)
        | None =>
        match match_number s with
        | Some (lexeme, r) =>
            if number_too_long lexeme then Raise ValueError
            else Ok (JNumber lexeme, r)
        | None =>
        match (if c =? ch "N" then strip_prefix (py "NaN") s else None) with
        | Some r => Ok (JNumber (py "NaN"), r)
        | None =>
        match (if c =? ch "I" then strip_prefix (py "Infinity") s else None) with
        | Some r => Ok (JNumber (py "Infinity"), r)
        | None =>
        match (if c =? ch "-" then strip_prefix (py "-Infinity") s else None) with
        | Some r => Ok (JNumber (py "-Infinity"), r)
        | None => Raise JSONDecodeError
        end end end end end end end
    end
  end
with parse_items (fuel room : nat) (s : str) : result (list json * str) :=
  match fuel with
  | O => Raise JSONDecodeError
  | S fuel' =>
    let* '(v, r) := scan_once fuel' room s in
    match skip_ws r with
    | c :: r' =>
        if c =? ch "]" then Ok ([v], r')
        else if c =? ch "," then
          let* '(vs, r'') := parse_items fuel' room (skip_ws r') in
          Ok (v :: vs, r'')
        else Raise JSONDecodeError
    | [] => Raise JSONDecodeError
    end
  end
with parse_members (fuel room : nat) (s : str) : result (list (str * json) * str) :=
  match fuel with
  | O => Raise JSONDecodeError
  | S fuel' =>
    match s with
    | q :: r0 =>
      if q =? QUOTE then
        match scanstring (S (length r0)) r0 [] with
        | None => Raise JSONDecodeError
        | Some (key, r1) =>
          match skip_ws r1 with
          | colon :: r2 =>
            if colon =? ch ":" then
              let* '(v, r3) := scan_once fuel' room (skip_ws r2) in
              match skip_ws r3 with
              | c :: r4 =>
                  if c =? ch "}" then Ok ([(key, v)], r4)
                  else if c =? ch "," then
                    let* '(ms, r5) := parse_members fuel' room (skip_ws r4) in
                    Ok ((key, v) :: ms, r5)
                  else Raise JSONDecodeError
              | [] => Raise JSONDecodeError
              end
            else Raise JSONDecodeError
          | [] => Raise JSONDecodeError
          end
        end
      else Raise JSONDecodeError
    | [] => Raise JSONDecodeError
    end
  end.

(** [json.loads(s)] *)
Definition json_loads (s : str) : result json :=
  let* '(v, rest) :=
    scan_once (2 * length s + 2) (S json_nesting_limit) (skip_ws s) in
  match skip_ws rest with
  | [] => Ok v
  | _ :: _ => Raise JSONDecodeError
  end.

End Decoder.

(** [data[key]] on a decoded value. *)
Fixpoint assoc_last (key : str) (members : list (str * json)) : option json :=
  match members with
  | [] => None
  | (k, v) :: rest =>
      match assoc_last key rest with
      | Some v' => Some v'
      | None => if decide (k = key) then Some v else None
      end
  end.

Definition subscript_key (data : json) (key : str) : result json :=
  match data with
  | JObject members =>
      match assoc_last key members with
      | Some v => Ok v
      | None => Raise KeyError
      end
  | _ => Raise TypeError
  end.

(** [data[0]] on a decoded value: the keys of a decoded [dict] are strings,
    so the integer key is absent from it. *)
Definition subscript_zero (data : json) : result json :=
  match data with
  | JArray (v :: _) => Ok v
  | JArray [] => Raise IndexError
  | JString (c :: _) => Ok (JString [c])
  | JString [] => Raise IndexError
  | JObject _ => Raise KeyError
  | _ => Raise TypeError
  end.

(** [value.strip()] *)
Definition method_strip (value : json) : result str :=
  match value with
  | JString s => Ok (strip s)
  | _ => Raise AttributeError
  end.

(** [json.dumps(texts, ensure_ascii=False)] for a list of strings. *)
Definition hex_digit (n : N) : char := if n <? 10 then 48 + n else 87 + n.

Definition escape_char (c : char) : str :=
  if c =? QUOTE then [BACKSLASH; QUOTE]
  else if c =? BACKSLASH then [BACKSLASH; BACKSLASH]
  else if c =? 10 then [BACKSLASH; ch "n"]
  else if c =? 13 then [BACKSLASH; ch "r"]
  else if c =? 9 then [BACKSLASH; ch "t"]
  else if c =? 8 then [BACKSLASH; ch "b"]
  else if c =? 12 then [BACKSLASH; ch "f"]
  else if c <? 32 then
    [BACKSLASH; ch "u"; ch "0"; ch "0"; hex_digit (c / 16); hex_digit (c mod 16)]
  else [c].

Definition encode_string (s : str) : str :=
  [QUOTE] ++ concat (map escape_char s) ++ [QUOTE].

Fixpoint join (sep : str) (parts : list str) : str :=
  match parts with
  | [] => []
  | [p] => p
  | p :: rest => p ++ sep ++ join sep rest
  end.

Definition json_dumps (texts : list str) : str :=
  py "[" ++ join (py ", ") (map encode_string texts) ++ py "]".

(** [str(item)] *)
Definition py_str `{PyRuntime} (item : json) : str :=
  match item with
  | JString s => s
  | other => repr_value other
  end.

(** ** backend/config.py: the settings the translator reads *)

Record Settings := {
  openrouter_api_base : str;
  default_model : str;
}.

(** ** backend/translator.py *)

Record TranslationConfig := {
  api_key : str;
  model : str;
  source_lang : option str;
  target_lang : str;
  temperature : Q;
}.

Record OpenRouterTranslator := {
  config : TranslationConfig;
  api_base : str;
}.

(** [s.rstrip("/")] *)
Fixpoint lstrip_slash (s : str) : str :=
  match s with
  | [] => []
  | c :: rest => if c =? ch "/" then lstrip_slash rest else s
  end.

Definition rstrip_slash (s : str) : str := rev (lstrip_slash (rev s)).

(** [OpenRouterTranslator.__init__] *)
Definition new_translator (settings : Settings) (cfg : TranslationConfig)
  : OpenRouterTranslator :=
  {| config := cfg; api_base := rstrip_slash (openrouter_api_base settings) |}.

(** The chat-completion request body, a [dict] with these three keys. *)
Record chat_message := { role : str; content : str }.

Record request_payload := {
  payload_model : str;
  payload_messages : list chat_message;
  payload_temperature : Q;
}.

Record http_request := {
  endpoint : str;
  body : request_payload;
  headers : list (str * str);
  timeout : Z;
}.

(** What [requests.post] does: it raises [requests.RequestException], or it
    returns a response with a status code and a body. *)
Inductive http_outcome :=
| RequestException
| Response (status_code : Z) (text : str).

(** [a or b] on strings *)
Definition str_or (a b : str) : str :=
  match a with [] => b | _ :: _ => a end.

Definition _build_request_payload (settings : Settings) (self : OpenRouterTranslator)
    (texts : list str) : request_payload :=
  let source := match source_lang (config self) with
                | Some (c :: l) => c :: l
                | _ => py "auto-detect"
                end in
  let target := target_lang (config self) in
  let instructions :=
    py "You are a professional translation engine. Translate each input string from "
    ++ source ++ py " to " ++ target
    ++ py ". Preserve placeholders such as {variable} or HTML tags. "
    ++ py "Return ONLY a valid JSON array of translated strings matching the input order with no extra text." in
  let messages :=
    [ {| role := py "system"; content := instructions |};
      {| role := py "system";
         content := py "Do not include reasoning, commentary, or code fences. Respond with the JSON array only." |};
      {| role := py "user"; content := json_dumps texts |} ] in
  {| payload_model := str_or (model (config self)) (default_model settings);
     payload_messages := messages;
     payload_temperature := temperature (config self) |}.

Definition _mock_translate (self : OpenRouterTranslator) (text : str) : str :=
  let target := str_or (target_lang (config self)) (py "translated") in
  py "[" ++ target ++ py "] " ++ text.

(** *** Parsing the response: the three-step cascade *)

(** One step of the cascade on its text: [json.loads] under
    [except json.JSONDecodeError], and the guard shared by the three steps
    (the decoded value is a list whose length is the expected count, or
    the expected count is zero).  [Ok None] is a step that returns
    nothing, so that the next one runs; an exception that is not the
    decode error is not caught. *)
Definition accept_parsed (parsed : result json) (expected_count : nat)
  : result (option (list json)) :=
  match parsed with
  | Ok (JArray items) =>
      if (expected_count =? length items)%nat || (expected_count =? 0)%nat
      then Ok (Some items) else Ok None
  | Ok _ => Ok None
  | Raise JSONDecodeError => Ok None
  | Raise e => Raise e
  end.

(** The fence pattern: three backquotes, an optional [json], whitespace, a
    group that starts with an opening bracket and lazily runs to a closing
    bracket, whitespace, three backquotes.  The group is the shortest one
    for the leftmost opening fence that has one. *)
Definition FENCE : str := py "```".

Fixpoint fenced_group (s : str) (acc : str) : option str :=
  match s with
  | [] => None
  | c :: rest =>
      if (c =? ch "]") && startswith (lstrip rest) FENCE
      then Some (rev (c :: acc))
      else fenced_group rest (c :: acc)
  end.

Definition match_fence (s : str) : option str :=
  match strip_prefix FENCE s with
  | None => None
  | Some r1 =>
      let r2 := match strip_prefix (py "json") r1 with
                | Some r => r
                | None => r1
                end in
      match lstrip r2 with
      | c :: rest => if c =? ch "[" then fenced_group rest [c] else None
      | [] => None
      end
  end.

(** [re.search(pattern, message).group(1)], or [None] without a match. *)
Fixpoint search_fenced (message : str) : option str :=
  match match_fence message with
  | Some group => Some group
  | None =>
      match message with
      | [] => None
      | _ :: rest => search_fenced rest
      end
  end.

(** The loop of [_find_json_array], from index [idx] on: the index of the
    closing bracket that brings the depth back to zero. *)
Fixpoint scan_array (chars : str) (idx : nat) (depth : Z) (in_string escape : bool)
  : option nat :=
  match chars with
  | [] => None
  | char :: rest =>
      let in_string :=
        if (char =? QUOTE) && negb escape then negb in_string else in_string in
      if in_string then
        scan_array rest (S idx) depth in_string ((char =? BACKSLASH) && negb escape)
      else
        let escape := (char =? BACKSLASH) && negb escape in
        if char =? ch "[" then
          scan_array rest (S idx) (depth + 1)%Z in_string escape
        else if char =? ch "]" then
          let depth := (depth - 1)%Z in
          if (depth =? 0)%Z then Some idx
          else scan_array rest (S idx) depth in_string escape
        else scan_array rest (S idx) depth in_string escape
  end.

Definition _find_json_array (message : str) : option str :=
  match find_char (ch "[") message with
  | None => None
  | Some start =>
      match scan_array (drop start message) start 0%Z false false with
      | Some idx => Some (slice message start (idx + 1))
      | None => None
      end
  end.

Section Cascade.
Context `{PyRuntime}.

Definition _extract_translations (message : str) (expected_count : nat)
  : result (list json) :=
  let* direct := accept_parsed (json_loads message) expected_count in
  match direct with
  | Some parsed => Ok parsed
  | None =>
    let* fenced :=
      match search_fenced message with
      | Some snippet => accept_parsed (json_loads snippet) expected_count
      | None => Ok None
      end in
    match fenced with
    | Some parsed => Ok parsed
    | None =>
      let* matched :=
        match _find_json_array message with
        | Some (c :: snippet) => accept_parsed (json_loads (c :: snippet)) expected_count
        | _ => Ok None
        end in
      match matched with
      | Some parsed => Ok parsed
      | None => Raise (TranslationError CouldNotParse)
      end
    end
  end.

End Cascade.

(** *** Count reconciliation *)

Definition CLOSING : str := py ",.;:!?)]}".

(** The ASCII full stop, exclamation mark and question mark, and their CJK
    forms U+3002, U+FF01 and U+FF1F. *)
Definition TERMINALS : list str :=
  [py "."; py "!"; py "?"; [12290]; [65281]; [65311]].

Section Reconciliation.
Context `{PyRuntime}.

(** The [for] loop of [_find_merge_index] from index [idx] on, [previous]
    being [items[idx - 1]] and [rest] being [items[idx:]]. *)
Fixpoint find_merge_from (idx : nat) (previous : str) (rest : list str) : option nat :=
  match rest with
  | [] => None
  | item :: rest' =>
      match lstrip item with
      | [] => Some (idx - 1)%nat
      | first_char :: _ =>
          if char_in first_char CLOSING then Some (idx - 1)%nat
          else if negb (bool_decide (previous = []))
                  && negb (endswith_any (rstrip previous) TERMINALS)
          then Some (idx - 1)%nat
          else if islower first_char then Some (idx - 1)%nat
          else find_merge_from (S idx) item rest'
      end
  end.

Definition _find_merge_index (items : list str) : nat :=
  let fallback := Z.to_nat (Z.max 0 (Z.of_nat (length items) - 2)) in
  match items with
  | [] => fallback
  | first :: rest =>
      match find_merge_from 1 first rest with
      | Some idx => idx
      | None => fallback
      end
  end.

Definition _concat_segments (left right : str) : str :=
  let left := rstrip left in
  let right := lstrip right in
  match left, right with
  | [], _ => right
  | _, [] => left
  | _, c :: _ =>
      if char_in c CLOSING then left ++ right else left ++ py " " ++ right
  end.

(** [merged[idx] = self._concat_segments(merged[idx], merged.pop(idx + 1))].
    Both subscripts are in range for every index [_find_merge_index] returns
    on a list of two or more items; outside it Python raises [IndexError],
    here the list is left as it is. *)
Definition merge_at (merged : list str) (idx : nat) : list str :=
  match merged !! idx, merged !! S idx with
  | Some left_, Some right_ =>
      <[idx := _concat_segments left_ right_]> (delete (S idx) merged)
  | _, _ => merged
  end.

(** The [while] loop of [_merge_extra_items]; each round shortens the list
    by one, so [length items] rounds are enough. *)
Fixpoint merge_loop (rounds : nat) (merged : list str) (expected : nat) : list str :=
  match rounds with
  | O => merged
  | S rounds' =>
      if (expected <? length merged)%nat && (1 <? length merged)%nat
      then merge_loop rounds' (merge_at merged (_find_merge_index merged)) expected
      else merged
  end.

Definition _merge_extra_items (items : list str) (expected : nat) : list str :=
  merge_loop (length items) items expected.

Definition _pad_missing_items (items originals : list str) : list str :=
  foldl (fun padded idx =>
           match originals !! idx with
           | Some original => padded ++ [original]
           | None => padded
           end)
        items
        (seq (length items) (length originals - length items)).

Definition tolerance (expected : nat) : Z :=
  Z.max 3 (Z.of_nat expected / 5 + 1).

Definition _reconcile_translation_count (translations original_texts : list str)
  : list str :=
  let expected := length original_texts in
  let current := length translations in
  if (expected =? 0)%nat || (current =? expected)%nat then translations
  else if (Z.abs (Z.of_nat current - Z.of_nat expected) >? tolerance expected)%Z
  then translations
  else
    let adjusted := translations in
    let adjusted :=
      if (expected <? current)%nat then _merge_extra_items adjusted expected
      else adjusted in
    let adjusted :=
      if (length adjusted <? expected)%nat then _pad_missing_items adjusted original_texts
      else adjusted in
    adjusted.

(** *** The helpers on the decoded list

    The helpers are declared on [List[str]], and [translate_texts] hands
    them the list as the cascade decoded it, whose items are of any JSON
    type.  On such a list they run as they are written: an item that is
    not a string has none of the [str] methods, so the first one called on
    it raises [AttributeError], and an item no method is called on passes
    through. *)

(** [value.lstrip()] and [value.rstrip()] *)
Definition method_lstrip (value : json) : result str :=
  match value with
  | JString s => Ok (lstrip s)
  | _ => Raise AttributeError
  end.

Definition method_rstrip (value : json) : result str :=
  match value with
  | JString s => Ok (rstrip s)
  | _ => Raise AttributeError
  end.

(** The truth value of a decoded item, as [if previous and ...] tests
    it. *)
Definition truth_value (value : json) : bool :=
  match value with
  | JNull => false
  | JBool b => b
  | JNumber lexeme => number_truth lexeme
  | JString [] | JArray [] | JObject [] => false
  | _ => true
  end.

Fixpoint find_merge_from_decoded (idx : nat) (previous : json) (rest : list json)
  : result (option nat) :=
  match rest with
  | [] => Ok None
  | item :: rest' =>
      let* segment := method_lstrip item in
      match segment with
      | [] => Ok (Some (idx - 1)%nat)
      | first_char :: _ =>
          if char_in first_char CLOSING then Ok (Some (idx - 1)%nat)
          else
            let* open_ended :=
              if truth_value previous then
                let* stripped := method_rstrip previous in
                Ok (negb (endswith_any stripped TERMINALS))
              else Ok false in
            if open_ended then Ok (Some (idx - 1)%nat)
            else if islower first_char then Ok (Some (idx - 1)%nat)
            else find_merge_from_decoded (S idx) item rest'
      end
  end.

Definition _find_merge_index_decoded (items : list json) : result nat :=
  let fallback := Z.to_nat (Z.max 0 (Z.of_nat (length items) - 2)) in
  match items with
  | [] => Ok fallback
  | first :: rest =>
      let* found := find_merge_from_decoded 1 first rest in
      match found with
      | Some idx => Ok idx
      | None => Ok fallback
      end
  end.

Definition _concat_segments_decoded (left right : json) : result json :=
  let* left := method_rstrip left in
  let* right := method_lstrip right in
  Ok (JString
        match left, right with
        | [], _ => right
        | _, [] => left
        | _, c :: _ =>
            if char_in c CLOSING then left ++ right else left ++ py " " ++ right
        end).

(** [merged[idx] = self._concat_segments(merged[idx], merged.pop(idx + 1))]:
    the two subscripts are evaluated first, then the call. *)
Definition merge_at_decoded (merged : list json) (idx : nat) : result (list json) :=
  match merged !! idx, merged !! S idx with
  | Some left_, Some right_ =>
      let* joined := _concat_segments_decoded left_ right_ in
      Ok (<[idx := joined]> (delete (S idx) merged))
  | _, _ => Raise IndexError
  end.

Fixpoint merge_loop_decoded (rounds : nat) (merged : list json) (expected : nat)
  : result (list json) :=
  match rounds with
  | O => Ok merged
  | S rounds' =>
      if (expected <? length merged)%nat && (1 <? length merged)%nat
      then
        let* idx := _find_merge_index_decoded merged in
        let* merged := merge_at_decoded merged idx in
        merge_loop_decoded rounds' merged expected
      else Ok merged
  end.

Definition _merge_extra_items_decoded (items : list json) (expected : nat)
  : result (list json) :=
  merge_loop_decoded (length items) items expected.

Definition _pad_missing_items_decoded (items : list json) (originals : list str)
  : list json :=
  foldl (fun padded idx =>
           match originals !! idx with
           | Some original => padded ++ [JString original]
           | None => padded
           end)
        items
        (seq (length items) (length originals - length items)).

Definition _reconcile_translation_count_decoded (translations : list json)
    (original_texts : list str) : result (list json) :=
  let expected := length original_texts in
  let current := length translations in
  if (expected =? 0)%nat || (current =? expected)%nat then Ok translations
  else if (Z.abs (Z.of_nat current - Z.of_nat expected) >? tolerance expected)%Z
  then Ok translations
  else
    let adjusted := translations in
    let* adjusted :=
      if (expected <? current)%nat then _merge_extra_items_decoded adjusted expected
      else Ok adjusted in
    let adjusted :=
      if (length adjusted <? expected)%nat
      then _pad_missing_items_decoded adjusted original_texts
      else adjusted in
    Ok adjusted.

(** *** The client *)

(** Lines 71 to 76 of [translate_texts]: what happens to the parsed
    list. *)
Definition deliver (translations : list json) (texts : list str) : result (list str) :=
  let* translations :=
    if bool_decide (length translations <> length texts)
    then _reconcile_translation_count_decoded translations texts
    else Ok translations in
  if bool_decide (length translations <> length texts)
  then Raise (TranslationError CountMismatch)
  else Ok (py_str <$> translations).

(** [data["choices"][0]["message"]["content"]] *)
Definition content_of (data : json) : result json :=
  let* choices := subscript_key data (py "choices") in
  let* first := subscript_zero choices in
  let* message := subscript_key first (py "message") in
  subscript_key message (py "content").

(** [data["choices"][0]["message"]["content"].strip()] *)
Definition message_content_of (data : json) : result str :=
  let* content := content_of data in
  method_strip content.

Variable settings : Settings.

(** [translate_texts] returns or raises, and sends at most one request:
    the second component lists the requests handed to [requests.post]. *)
Definition translate_texts (self : OpenRouterTranslator) (texts : list str)
    (post : http_request -> http_outcome) : result (list str) * list http_request :=
  match texts with
  | [] => (Ok [], [])
  | _ :: _ =>
    match api_key (config self) with
    | [] => (Ok (_mock_translate self <$> texts), [])
    | _ :: _ =>
      let payload := _build_request_payload settings self texts in
      let headers :=
        [ (py "Authorization", py "Bearer " ++ api_key (config self));
          (py "Content-Type", py "application/json") ] in
      let request :=
        {| endpoint := api_base self ++ py "/chat/completions";
           body := payload; headers := headers; timeout := 60 |} in
      (match post request with
       | RequestException => Raise (TranslationError FailedToContact)
       | Response status_code text =>
           if (status_code >=? 400)%Z
           then Raise (TranslationError (ApiReturned status_code text))
           else
             let* data := json_loads text in
             match message_content_of data with
             | Raise KeyError | Raise IndexError =>
                 Raise (TranslationError CouldNotParse)
             | Raise e => Raise e
             | Ok message_content =>
                 let* translations :=
                   _extract_translations message_content (length texts) in
                 deliver translations texts
             end
       end, [request])
    end
  end.

End Reconciliation.

(** A number literal whose digits before the exponent are all 0. *)
Fixpoint zero_literal (lexeme : str) : bool :=
  match lexeme with
  | [] => true
  | c :: rest =>
      if char_in c (py "eE") then true
      else (negb (is_digit c) || (c =? ch "0")) && zero_literal rest
  end.

(** A runtime for closed examples over ASCII text and arrays of strings:
    [islower] on the ASCII letters, a fixed marker for [str()] of a value
    that is not a string, room for 900 nested arrays and objects, the
    default limit of 4300 digits, and a number taken as false when its
    literal has a digit and no digit but 0 before the exponent (the
    examples hold no literal that underflows to zero). *)
Definition ascii_runtime : PyRuntime :=
  {| islower := fun c => (97 <=? c) && (c <=? 122);
     repr_value := fun _ => py "<value>";
     json_nesting_limit := 900;
     int_max_str_digits := 4300;
     number_truth := fun lexeme => negb (existsb is_digit lexeme && zero_literal lexeme) |}.

(** The defaults of [backend/config.py]. *)
Definition default_settings : Settings :=
  {| openrouter_api_base := py "https://openrouter.ai/api/v1";
     default_model := py "anthropic/claude-3.5-sonnet" |}.


(** ** backend/document_handler.py

    A document is the object tree the office libraries hand out.  Each
    paragraph, run and cell an iterator yields is a value of its own, with
    one exception: python-docx yields a table cell once for every grid
    position the cell covers, so a Word table keeps its cells in a store
    and its rows refer to them.  A handler's [apply_translations] returns
    the document it saves to the output path, or the exception that ends
    it before anything is saved. *)

(** What the three libraries do with a text they are asked to store is not
    code of the repository: it is a parameter.  Each function gives the
    text that is read back once the text is stored, or the exception
    raised for a text the library does not store. *)
Class OfficeLibraries := {
  (** [run.text = text] on a run of python-pptx *)
  pptx_run_text : str -> result str;
  (** [paragraph.add_run(text)] of python-docx *)
  docx_run_text : str -> result str;
  (** [cell.value = text] of openpyxl *)
  xlsx_cell_value : str -> result str;
}.

Record TextElement := {
  element_id : str;
  text : str;
}.

(** Truth value of an optional string, as in [if font_name:]. *)
Definition truthy (o : option str) : bool :=
  match o with
  | Some (_ :: _) => true
  | _ => false
  end.

(** Truth value of an optional length. *)
Definition truthy_size (o : option Z) : bool :=
  match o with
  | Some z => negb (z =? 0)%Z
  | None => false
  end.

Definition LF : str := [10].

Record Font := {
  f_name : option str;
  f_size : option Z;
}.

(** [enumerate] followed by a loop body that appends zero or more
    elements: the concatenation, in order, of what each index yields. *)
Definition for_each {A B} (l : list A) (body : nat -> A -> list B) : list B :=
  concat (imap body l).

(** [enumerate] followed by a loop body that rewrites the object it is
    given, in place: the objects after the loop, or the first exception
    a body raises. *)
Fixpoint rewrite_from {A} (body : nat -> A -> result A) (index : nat) (l : list A)
  : result (list A) :=
  match l with
  | [] => Ok []
  | a :: rest =>
      let* a' := body index a in
      let* rest' := rewrite_from body (S index) rest in
      Ok (a' :: rest')
  end.

Definition rewrite_each {A} (l : list A) (body : nat -> A -> result A) : result (list A) :=
  rewrite_from body 0 l.

(** [enumerate] followed by a loop body that changes a state the loop
    shares: the state after the loop, or the first exception. *)
Fixpoint update_from {A T} (body : nat -> A -> T -> result T) (index : nat) (l : list A)
    (state : T) : result T :=
  match l with
  | [] => Ok state
  | a :: rest =>
      let* state' := body index a state in
      update_from body (S index) rest state'
  end.

Definition update_each {A T} (l : list A) (state : T) (body : nat -> A -> T -> result T)
  : result T :=
  update_from body 0 l state.

(** The body of the extraction loops: one element when the stripped text
    is not empty. *)
Definition emit (element_id : str) (raw : str) : list TextElement :=
  match strip raw with
  | [] => []
  | c :: t => [ {| element_id := element_id; text := c :: t |} ]
  end.

Module PowerPoint.

Inductive PP_ALIGN := LEFT | CENTER | RIGHT | JUSTIFY | DISTRIBUTE.

Record Run := { run_text : str; run_font : Font }.

Record Paragraph := {
  runs : list Run;
  alignment : option PP_ALIGN;
  line_spacing : option Q;
}.

(** A table cell holds a text frame: a list of paragraphs. *)
Record Cell := { cell_paragraphs : list Paragraph }.

(** [getattr(shape, "has_text_frame", False)] holds exactly when the
    shape has a [text_frame], and likewise for [has_table] and [table]
    (the rows, each a list of cells). *)
Record Shape := {
  text_frame : option (list Paragraph);
  table : option (list (list Cell));
}.

Abbreviation Slide := (list Shape).
Abbreviation Presentation := (list Slide).

Definition paragraph_text (p : Paragraph) : str := concat (run_text <$> runs p).

Definition cell_text (c : Cell) : str :=
  join LF (paragraph_text <$> cell_paragraphs c).

Definition BODY_FONT_NAME : str := py "Arial".
Definition BODY_FONT_SIZE_PT : Z := 24.

(** [Pt(n)]: a length of [n] points, in English Metric Units. *)
Definition Pt (n : Z) : Z := (n * 12700)%Z.

Definition _paragraph_id (slide_index shape_index paragraph_index : nat) : str :=
  py "ppt_s" ++ str_of_nat slide_index ++ py "_sh" ++ str_of_nat shape_index
  ++ py "_p" ++ str_of_nat paragraph_index.

Definition _cell_id (slide_index shape_index row_index col_index : nat) : str :=
  py "ppt_s" ++ str_of_nat slide_index ++ py "_sh" ++ str_of_nat shape_index
  ++ py "_c" ++ str_of_nat row_index ++ py "_" ++ str_of_nat col_index.

Definition _extract_from_shape (slide_index shape_index : nat) (shape : Shape)
  : list TextElement :=
  match text_frame shape with
  | Some paragraphs =>
      for_each paragraphs (fun paragraph_index paragraph =>
        emit (_paragraph_id slide_index shape_index paragraph_index)
             (paragraph_text paragraph))
  | None => []
  end
  ++
  match table shape with
  | Some rows =>
      for_each rows (fun row_idx row =>
        for_each row (fun col_idx cell =>
          emit (_cell_id slide_index shape_index row_idx col_idx) (cell_text cell)))
  | None => []
  end.

Definition extract_text (presentation : Presentation) : list TextElement :=
  for_each presentation (fun slide_index slide =>
    for_each slide (fun shape_index shape =>
      _extract_from_shape slide_index shape_index shape)).

Section Replace.
Context `{OfficeLibraries}.

(** [paragraph.clear()], [add_run()], [run.text = new_text] and
    [_apply_body_text_format]. *)
Definition _replace_ppt_paragraph (paragraph : Paragraph) (new_text : str)
  : result Paragraph :=
  let* stored := pptx_run_text new_text in
  Ok {| runs := [ {| run_text := stored;
                     run_font := {| f_name := Some BODY_FONT_NAME;
                                    f_size := Some (Pt BODY_FONT_SIZE_PT) |} |} ];
        alignment := Some LEFT;
        line_spacing := Some 1%Q |}.

(** [text_frame.clear()] leaves the first paragraph alone, emptied. *)
Definition _replace_ppt_cell (cell : Cell) (new_text : str) : result Cell :=
  let first :=
    match cell_paragraphs cell with
    | p :: _ => {| runs := []; alignment := alignment p; line_spacing := line_spacing p |}
    | [] => {| runs := []; alignment := None; line_spacing := None |}
    end in
  let* paragraph := _replace_ppt_paragraph first new_text in
  Ok {| cell_paragraphs := [ paragraph ] |}.

Definition _apply_to_shape (slide_index shape_index : nat) (shape : Shape)
    (translations : gmap str str) : result Shape :=
  let* text_frame' :=
    match text_frame shape with
    | Some paragraphs =>
        let* paragraphs' :=
          rewrite_each paragraphs (fun paragraph_index paragraph =>
            match translations !! _paragraph_id slide_index shape_index paragraph_index with
            | Some translated => _replace_ppt_paragraph paragraph translated
            | None => Ok paragraph
            end) in
        Ok (Some paragraphs')
    | None => Ok None
    end in
  let* table' :=
    match table shape with
    | Some rows =>
        let* rows' :=
          rewrite_each rows (fun row_idx row =>
            rewrite_each row (fun col_idx cell =>
              match translations !! _cell_id slide_index shape_index row_idx col_idx with
              | Some translated => _replace_ppt_cell cell translated
              | None => Ok cell
              end)) in
        Ok (Some rows')
    | None => Ok None
    end in
  Ok {| text_frame := text_frame'; table := table' |}.

Definition apply_translations (presentation : Presentation)
    (translations : gmap str str) (font_name : option str) : result Presentation :=
  rewrite_each presentation (fun slide_index slide =>
    rewrite_each slide (fun shape_index shape =>
      _apply_to_shape slide_index shape_index shape translations)).

End Replace.

End PowerPoint.

Module Word.

Record Style := { style_font : Font }.

Record Run := { run_text : str; run_font : Font }.

(** What a paragraph holds, in document order: its runs, and inline
    content that is not among [paragraph.runs] (a hyperlink, for one), of
    which the code meets only the text [paragraph.text] reports for it,
    empty where the library leaves it out of the text. *)
Inductive Inline :=
| InRun (run : Run)
| InOther (reported : str).

(** [paragraph.style] is the paragraph's own style or the document's
    default one; either way there is a style. *)
Record Paragraph := {
  content : list Inline;
  style : Style;
}.

(** [paragraph.runs] *)
Definition runs (p : Paragraph) : list Run :=
  omap (fun item => match item with
                    | InRun run => Some run
                    | InOther _ => None
                    end) (content p).

Definition inline_text (item : Inline) : str :=
  match item with
  | InRun run => run_text run
  | InOther reported => reported
  end.

Record Cell := { cell_paragraphs : list Paragraph }.

(** A table: the cells it holds, and its rows.  [row.cells] has one entry
    for every column of the grid, the cell that covers the position; the
    entry is the place of that cell in [table_cells].  A merged cell is
    one cell, and the entry of every position it spans. *)
Record Table := {
  table_cells : list Cell;
  table_rows : list (list nat);
}.

Record Document := {
  paragraphs : list Paragraph;
  tables : list Table;
}.

Definition paragraph_text (p : Paragraph) : str := concat (inline_text <$> content p).

Definition cell_text (c : Cell) : str :=
  join LF (paragraph_text <$> cell_paragraphs c).

(** [for run in list(paragraph.runs): paragraph._p.remove(run._r)] *)
Definition remove_runs (items : list Inline) : list Inline :=
  List.filter (fun item => match item with
                           | InRun _ => false
                           | InOther _ => true
                           end) items.

(** The first run that has a font name or a font size. *)
Fixpoint _get_run_font_attributes (runs : list Run) : option str * option Z :=
  match runs with
  | [] => (None, None)
  | run :: rest =>
      let name := f_name (run_font run) in
      let size := f_size (run_font run) in
      if truthy name || truthy_size size then (name, size)
      else _get_run_font_attributes rest
  end.

Definition _paragraph_id (paragraph_index : nat) : str :=
  py "doc_p" ++ str_of_nat paragraph_index.

Definition _cell_id (table_index row_index col_index : nat) : str :=
  py "doc_t" ++ str_of_nat table_index ++ py "_r" ++ str_of_nat row_index
  ++ py "_c" ++ str_of_nat col_index.

Definition extract_text (document : Document) : list TextElement :=
  for_each (paragraphs document) (fun paragraph_index paragraph =>
    emit (_paragraph_id paragraph_index) (paragraph_text paragraph))
  ++
  for_each (tables document) (fun table_index table =>
    for_each (table_rows table) (fun row_index row =>
      for_each row (fun col_index place =>
        match table_cells table !! place with
        | Some cell => emit (_cell_id table_index row_index col_index) (cell_text cell)
        | None => []
        end))).

Section Replace.
Context `{OfficeLibraries}.
(** The default paragraph style, which the paragraph left by emptying the
    cell's text reports. *)
Variable default_style : Style.

(** [paragraph.add_run(new_text)] and the font of the new run: the
    override, else the original name; the original size when there is
    one. *)
Definition new_run (new_text : str) (font_name original_name : option str)
    (original_size : option Z) : result Run :=
  let* stored := docx_run_text new_text in
  Ok {| run_text := stored;
        run_font :=
          {| f_name := if truthy font_name then font_name
                       else if truthy original_name then original_name
                       else None;
             f_size := if truthy_size original_size then original_size else None |} |}.

Definition _replace_paragraph (paragraph : Paragraph) (new_text : str)
    (font_name : option str) : result Paragraph :=
  let '(original_name, original_size) := _get_run_font_attributes (runs paragraph) in
  let original_size :=
    if negb (truthy_size original_size)
       && truthy_size (f_size (style_font (style paragraph)))
    then f_size (style_font (style paragraph)) else original_size in
  let original_name :=
    if negb (truthy original_name)
       && truthy (f_name (style_font (style paragraph)))
    then f_name (style_font (style paragraph)) else original_name in
  let* run := new_run new_text font_name original_name original_size in
  Ok {| content := remove_runs (content paragraph) ++ [ InRun run ];
        style := style paragraph |}.

(** The loop of [_replace_cell] over the cell's paragraphs, with its
    [break]. *)
Fixpoint scan_cell_fonts (paragraphs : list Paragraph)
    (original_name : option str) (original_size : option Z)
  : option str * option Z :=
  match paragraphs with
  | [] => (original_name, original_size)
  | paragraph :: rest =>
      let '(name, size) := _get_run_font_attributes (runs paragraph) in
      let original_name :=
        if negb (truthy original_name) && truthy name then name else original_name in
      let original_size :=
        if negb (truthy_size original_size) && truthy_size size then size
        else original_size in
      if truthy original_name && truthy_size original_size
      then (original_name, original_size)
      else scan_cell_fonts rest original_name original_size
  end.

Definition _replace_cell (cell : Cell) (new_text : str) (font_name : option str)
  : result Cell :=
  let '(original_name, original_size) :=
    scan_cell_fonts (cell_paragraphs cell) None None in
  let '(original_name, original_size) :=
    match cell_paragraphs cell with
    | first :: _ =>
        if negb (truthy_size original_size) then
          let style_font := style_font (style first) in
          let size' :=
            if truthy_size (f_size style_font) then f_size style_font
            else original_size in
          let name' :=
            if negb (truthy original_name) && truthy (f_name style_font)
            then f_name style_font else original_name in
          (name', size')
        else (original_name, original_size)
    | [] => (original_name, original_size)
    end in
  let* run := new_run new_text font_name original_name original_size in
  Ok {| cell_paragraphs := [ {| content := [ InRun run ]; style := default_style |} ] |}.

(** The body of the loop over the cells of a row: the cells of the table
    after the cell at a position has been looked at. *)
Definition _apply_to_position (table_index row_index col_index place : nat)
    (cells : list Cell) (translations : gmap str str) (font_name : option str)
  : result (list Cell) :=
  match translations !! _cell_id table_index row_index col_index with
  | Some translated =>
      match cells !! place with
      | Some cell =>
          let* cell' := _replace_cell cell translated font_name in
          Ok (<[place := cell']> cells)
      | None => Ok cells
      end
  | None => Ok cells
  end.

(** The loops over the rows of a table and the cells of each row: a cell
    is rewritten where it is kept, so what is written under one
    identifier is what the next position of the same cell finds. *)
Definition _apply_to_table (table_index : nat) (table : Table)
    (translations : gmap str str) (font_name : option str) : result Table :=
  let* cells :=
    update_each (table_rows table) (table_cells table) (fun row_index row cells =>
      update_each row cells (fun col_index place cells =>
        _apply_to_position table_index row_index col_index place cells
          translations font_name)) in
  Ok {| table_cells := cells; table_rows := table_rows table |}.

Definition apply_translations (document : Document) (translations : gmap str str)
    (font_name : option str) : result Document :=
  let* paragraphs' :=
    rewrite_each (paragraphs document) (fun paragraph_index paragraph =>
      match translations !! _paragraph_id paragraph_index with
      | Some translated => _replace_paragraph paragraph translated font_name
      | None => Ok paragraph
      end) in
  let* tables' :=
    rewrite_each (tables document) (fun table_index table =>
      _apply_to_table table_index table translations font_name) in
  Ok {| paragraphs := paragraphs'; tables := tables' |}.

End Replace.

End Word.

Module Excel.

(** What [cell.value] can be. *)
Inductive value :=
| VNone
| VBool (b : bool)
| VNumber (q : Q)
| VString (s : str)
| VDateTime (serial : Q).

(** What the workbook file holds at a position of the grid: a constant, a
    formula together with the result the spreadsheet application cached
    for it ([VNone] when it cached none), or nothing of its own, when the
    position lies inside a merged range and is not its top-left cell. *)
Inductive stored :=
| Constant (v : value)
| Formula (source : str) (cached : value)
| Merged.

Record CellFont := {
  font_family : str;
  font_points : Q;
  bold : bool;
  italic : bool;
}.

Record StoredCell := {
  stored_content : stored;
  stored_font : CellFont;
}.

(** A sheet of the file: its rows from row 1 on, each from column 1 on. *)
Abbreviation StoredSheet := (list (list StoredCell)).
Abbreviation File := (list StoredSheet).

(** A loaded cell.  Inside a merged range every position but the top-left
    one is a [MergedCell]: its value is [None] and cannot be set. *)
Record Cell := {
  row : nat;
  column : nat;
  value_of : value;
  font : CellFont;
  is_merged_cell : bool;
}.

(** A loaded worksheet, as the rows [sheet.iter_rows()] yields. *)
Abbreviation Worksheet := (list (list Cell)).
Abbreviation Workbook := (list Worksheet).

(** [load_workbook(path, data_only=...)]: with [data_only] a formula cell
    reports its cached result, without it the formula text.  Rows and
    columns are numbered from 1. *)
Definition load_cell (data_only : bool) (r c : nat) (cell : StoredCell) : Cell :=
  {| row := S r;
     column := S c;
     value_of :=
       match stored_content cell with
       | Constant v => v
       | Formula source cached => if data_only then cached else VString source
       | Merged => VNone
       end;
     font := stored_font cell;
     is_merged_cell :=
       match stored_content cell with
       | Merged => true
       | _ => false
       end |}.

Definition load_workbook (file : File) (data_only : bool) : Workbook :=
  (fun sheet => imap (fun r cells => imap (load_cell data_only r) cells) sheet) <$> file.

Definition _cell_id (sheet_index row_index column_index : nat) : str :=
  py "xls_s" ++ str_of_nat sheet_index ++ py "_r" ++ str_of_nat row_index
  ++ py "_c" ++ str_of_nat column_index.

Definition extract_cell (sheet_index : nat) (cell : Cell) : list TextElement :=
  match value_of cell with
  | VString s => emit (_cell_id sheet_index (row cell) (column cell)) s
  | _ => []
  end.

Definition extract_text (file : File) : list TextElement :=
  let workbook := load_workbook file true in
  for_each workbook (fun sheet_index (sheet : Worksheet) =>
    concat ((fun row : list Cell =>
               concat (extract_cell sheet_index <$> row)) <$> sheet)).

(** [cell.font.copy(name=font_name)] *)
Definition copy_with_name (f : CellFont) (name : str) : CellFont :=
  {| font_family := name; font_points := font_points f;
     bold := bold f; italic := italic f |}.

Section Replace.
Context `{OfficeLibraries}.

(** [cell.value = translated], and the font copy when [font_name] is
    given.  The value of a [MergedCell] is read-only. *)
Definition write_cell (font_name : option str) (cell : Cell) (translated : str)
  : result Cell :=
  if is_merged_cell cell then Raise AttributeError
  else
    let* stored := xlsx_cell_value translated in
    Ok {| row := row cell; column := column cell;
          value_of := VString stored;
          font := match font_name with
                  | Some (c :: n) => copy_with_name (font cell) (c :: n)
                  | _ => font cell
                  end;
          is_merged_cell := false |}.

Definition apply_cell (sheet_index : nat) (translations : gmap str str)
    (font_name : option str) (cell : Cell) : result Cell :=
  match translations !! _cell_id sheet_index (row cell) (column cell) with
  | Some translated => write_cell font_name cell translated
  | None => Ok cell
  end.

Definition apply_translations (file : File) (translations : gmap str str)
    (font_name : option str) : result Workbook :=
  let workbook := load_workbook file false in
  rewrite_each workbook (fun sheet_index (sheet : Worksheet) =>
    rewrite_each sheet (fun _ (row : list Cell) =>
      rewrite_each row (fun _ cell =>
        apply_cell sheet_index translations font_name cell))).

End Replace.

End Excel.

(** [get_document_handler]: one handler per supported suffix, over the
    document found at the path. *)
Inductive DocumentHandler :=
| PowerPointHandler (presentation : PowerPoint.Presentation)
| WordHandler (document : Word.Document)
| ExcelHandler (workbook : Excel.File).

Definition extract_text (handler : DocumentHandler) : list TextElement :=
  match handler with
  | PowerPointHandler presentation => PowerPoint.extract_text presentation
  | WordHandler document => Word.extract_text document
  | ExcelHandler workbook => Excel.extract_text workbook
  end.

(** ** The merge heuristic as the specification words it

    These definitions follow the text of the specification, not the code;
    they are what [_find_merge_index] and [_concat_segments] are compared
    with.  Whitespace at the joint is ignored, as the specification trims
    both sides before it concatenates. *)

Section SpecifiedMerge.
Context `{PyRuntime}.

(** Scan left to right; merge before the first item that starts with
    closing punctuation, or whose predecessor does not end in terminal
    punctuation, or that starts with a lowercase letter. *)
Fixpoint spec_merge_point (idx : nat) (previous : str) (rest : list str) : option nat :=
  match rest with
  | [] => None
  | item :: rest' =>
      let starts_with (p : char -> bool) :=
        match lstrip item with
        | c :: _ => p c
        | [] => false
        end in
      if starts_with (fun c => char_in c CLOSING) then Some (idx - 1)%nat
      else if negb (endswith_any (rstrip previous) TERMINALS) then Some (idx - 1)%nat
      else if starts_with islower then Some (idx - 1)%nat
      else spec_merge_point (S idx) item rest'
  end.

(** Without a signal, the last two items are merged. *)
Definition spec_find_merge_index (items : list str) : nat :=
  match items with
  | [] => 0%nat
  | first :: rest =>
      match spec_merge_point 1 first rest with
      | Some idx => idx
      | None => (length items - 2)%nat
      end
  end.

(** Trim both sides; join with one space, or with none when the right
    fragment begins with closing punctuation. *)
Definition spec_concat_segments (left right : str) : str :=
  let left := rstrip left in
  let right := lstrip right in
  match right with
  | c :: _ => if char_in c CLOSING then left ++ right else left ++ py " " ++ right
  | [] => left ++ py " " ++ right
  end.

Definition spec_merge_at (items : list str) (idx : nat) : list str :=
  match items !! idx, items !! S idx with
  | Some left_, Some right_ =>
      take idx items ++ spec_concat_segments left_ right_ :: drop (S (S idx)) items
  | _, _ => items
  end.

(** Merge two adjacent items until the count matches. *)
Fixpoint spec_merge_until (rounds : nat) (items : list str) (expected : nat) : list str :=
  match rounds with
  | O => items
  | S rounds' =>
      if (expected <? length items)%nat
      then spec_merge_until rounds' (spec_merge_at items (spec_find_merge_index items)) expected
      else items
  end.

Definition spec_merge_extra_items (items : list str) (expected : nat) : list str :=
  spec_merge_until (length items) items expected.

End SpecifiedMerge.

(** ** Text that is well formed for the bracket scanner

    A piece of text in which every quotation mark opens or closes a string
    literal, every backslash sits inside a literal and escapes the next
    character, and the brackets outside literals are balanced. *)

Inductive literal_item :=
| LChar (c : char)
| LEscape (c : char).

Definition literal_item_ok (i : literal_item) : Prop :=
  match i with
  | LChar c => c <> QUOTE /\ c <> BACKSLASH
  | LEscape _ => True
  end.

Definition render_item (i : literal_item) : str :=
  match i with
  | LChar c => [c]
  | LEscape c => [BACKSLASH; c]
  end.

#[warnings="-register-all"]
Inductive token :=
| TPlain (c : char)
| TLiteral (body : list literal_item)
| TNested (inner : list token).

Fixpoint render (t : token) : str :=
  match t with
  | TPlain c => [c]
  | TLiteral body => QUOTE :: concat (render_item <$> body) ++ [QUOTE]
  | TNested inner => ch "[" :: concat (render <$> inner) ++ [ch "]"]
  end.

Fixpoint token_ok (t : token) : Prop :=
  match t with
  | TPlain c => c <> QUOTE /\ c <> BACKSLASH /\ c <> ch "[" /\ c <> ch "]"
  | TLiteral body => Forall literal_item_ok body
  | TNested inner => (fix all (l : list token) : Prop :=
                        match l with
                        | [] => True
                        | t :: l' => token_ok t /\ all l'
                        end) inner
  end.

(** ** Trimmed, non-empty text *)

Definition trimmed_nonempty (s : str) : Prop :=
  s <> [] /\ strip s = s.

(** An OpenRouter success body whose first choice carries [content]. *)
Definition chat_response (content : str) : str :=
  pyq "{'choices': [{'message': {'role': 'assistant', 'content': "
  ++ encode_string content ++ pyq "}}]}".

(** A translator with a key, for closed examples. *)
Definition example_translator : OpenRouterTranslator :=
  new_translator default_settings
    {| api_key := py "sk-test"; model := []; source_lang := None;
       target_lang := py "es"; temperature := 0%Q |}.

(** ** Text-bearing locations, by their coordinates

    The coordinates are those the identifiers are built from. *)

Definition ppt_shape_at (presentation : PowerPoint.Presentation)
    (slide_index shape_index : nat) : option PowerPoint.Shape :=
  match presentation !! slide_index with
  | Some slide => slide !! shape_index
  | None => None
  end.

Definition ppt_paragraph_at (presentation : PowerPoint.Presentation)
    (slide_index shape_index paragraph_index : nat) : option PowerPoint.Paragraph :=
  match ppt_shape_at presentation slide_index shape_index with
  | Some shape =>
      match PowerPoint.text_frame shape with
      | Some paragraphs => paragraphs !! paragraph_index
      | None => None
      end
  | None => None
  end.

Definition ppt_cell_at (presentation : PowerPoint.Presentation)
    (slide_index shape_index row_idx col_idx : nat) : option PowerPoint.Cell :=
  match ppt_shape_at presentation slide_index shape_index with
  | Some shape =>
      match PowerPoint.table shape with
      | Some rows =>
          match rows !! row_idx with
          | Some row => row !! col_idx
          | None => None
          end
      | None => None
      end
  | None => None
  end.

Definition doc_paragraph_at (document : Word.Document) (paragraph_index : nat)
  : option Word.Paragraph :=
  Word.paragraphs document !! paragraph_index.

(** The place, in the store of its table, of the cell [row.cells] yields
    at a position. *)
Definition doc_cell_place (document : Word.Document) (table_index row_index col_index : nat)
  : option nat :=
  match Word.tables document !! table_index with
  | Some table =>
      match Word.table_rows table !! row_index with
      | Some row => row !! col_index
      | None => None
      end
  | None => None
  end.

Definition doc_cell_at (document : Word.Document) (table_index row_index col_index : nat)
  : option Word.Cell :=
  match Word.tables document !! table_index with
  | Some table =>
      match doc_cell_place document table_index row_index col_index with
      | Some place => Word.table_cells table !! place
      | None => None
      end
  | None => None
  end.

(** The cell of a loaded workbook in sheet [sheet_index], at position [r]
    of the rows and [c] of the row that [iter_rows] yields. *)
Definition xls_cell_at (workbook : Excel.Workbook) (sheet_index r c : nat)
  : option Excel.Cell :=
  match workbook !! sheet_index with
  | Some sheet =>
      match sheet !! r with
      | Some cells => cells !! c
      | None => None
      end
  | None => None
  end.

(** What [apply_translations] leaves at a location: the replacement when the
    location's identifier is a key of the mapping, the location as it was
    otherwise. *)
Definition rewritten {A : Type} (translations : gmap str str) (id : str)
    (replace : A -> str -> result A) (before after : option A) : Prop :=
  match translations !! id, before with
  | Some translated, Some a => exists a', replace a translated = Ok a' /\ after = Some a'
  | _, _ => after = before
  end.

(** ** The libraries, for closed examples

    python-pptx writes a control character below U+0020 other than tab
    and line feed as the escape [_xHHHH_].  python-docx stores a tab and
    a line feed as they are, a carriage return as a line break, which
    reads back as a line feed, and hands the rest to lxml.  lxml refuses,
    with [ValueError], the control characters below U+0020 other than
    tab, line feed and carriage return, the surrogates, U+FFFE and
    U+FFFF.  openpyxl keeps the first 32767 characters and refuses, with
    [IllegalCharacterError], a control character below U+0020 other
    than tab, line feed and carriage return among them. *)

Definition HEX (n : N) : char := if n <? 10 then 48 + n else 55 + n.

Definition pptx_escape (c : char) : str :=
  if (c <? 32) && negb (c =? 9) && negb (c =? 10)
  then py "_x00" ++ [HEX (c / 16); HEX (c mod 16)] ++ py "_"
  else [c].

Definition control_character (c : char) : bool :=
  (c <? 32) && negb (c =? 9) && negb (c =? 10) && negb (c =? 13).

Definition xml_refuses (c : char) : bool :=
  control_character c || ((55296 <=? c) && (c <=? 57343)) || (c =? 65534) || (c =? 65535).

Definition office_libraries : OfficeLibraries :=
  {| pptx_run_text := fun s =>
       let escaped := concat (pptx_escape <$> s) in
       if existsb xml_refuses escaped then Raise ValueError else Ok escaped;
     docx_run_text := fun s =>
       if existsb xml_refuses s then Raise ValueError
       else Ok ((fun c => if c =? 13 then 10 else c) <$> s);
     xlsx_cell_value := fun s =>
       let kept := take (N.to_nat 32767) s in
       if existsb control_character kept then Raise IllegalCharacterError else Ok kept |}.

(** ** Documents for closed examples *)

Definition plain_run (s : str) : PowerPoint.Run :=
  {| PowerPoint.run_text := s;
     PowerPoint.run_font := {| f_name := None; f_size := None |} |}.

Definition plain_paragraph (s : str) : PowerPoint.Paragraph :=
  {| PowerPoint.runs := [plain_run s]; PowerPoint.alignment := None;
     PowerPoint.line_spacing := None |}.

(** One slide: a text box of two paragraphs, and a table of one row and
    two cells. *)
Definition example_presentation : PowerPoint.Presentation :=
  [ [ {| PowerPoint.text_frame := Some [plain_paragraph (py "Title"); plain_paragraph (py "Body")];
         PowerPoint.table := None |};
      {| PowerPoint.text_frame := None;
         PowerPoint.table :=
           Some [ [ {| PowerPoint.cell_paragraphs := [plain_paragraph (py "Left")] |};
                    {| PowerPoint.cell_paragraphs := [plain_paragraph (py "Right")] |} ] ] |} ] ].

(** One slide, one text box: a title and a paragraph of two spaces. *)
Definition blank_presentation : PowerPoint.Presentation :=
  [ [ {| PowerPoint.text_frame := Some [plain_paragraph (py "Title"); plain_paragraph (py "  ")];
         PowerPoint.table := None |} ] ].

Definition normal_style : Word.Style :=
  {| Word.style_font := {| f_name := Some (py "Calibri"); f_size := Some 139700%Z |} |}.

Definition word_paragraph (s : str) : Word.Paragraph :=
  {| Word.content :=
       [ Word.InRun {| Word.run_text := s;
                       Word.run_font := {| f_name := None; f_size := None |} |} ];
     Word.style := normal_style |}.

(** A paragraph with a hyperlink between two runs. *)
Definition linked_paragraph : Word.Paragraph :=
  {| Word.content :=
       [ Word.InRun {| Word.run_text := py "See ";
                       Word.run_font := {| f_name := Some (py "Georgia"); f_size := None |} |};
         Word.InOther (py "the site");
         Word.InRun {| Word.run_text := py ".";
                       Word.run_font := {| f_name := None; f_size := None |} |} ];
     Word.style := normal_style |}.

(** Two paragraphs and a table of one row and two cells. *)
Definition example_document : Word.Document :=
  {| Word.paragraphs := [word_paragraph (py "Heading"); word_paragraph (py "Text")];
     Word.tables :=
       [ {| Word.table_cells :=
              [ {| Word.cell_paragraphs := [word_paragraph (py "One")] |};
                {| Word.cell_paragraphs := [word_paragraph (py "Two")] |} ];
            Word.table_rows := [ [0; 1]%nat ] |} ] |}.

(** A table of one row whose two columns are covered by one merged cell,
    and below it a row of two cells. *)
Definition merged_document : Word.Document :=
  {| Word.paragraphs := [];
     Word.tables :=
       [ {| Word.table_cells :=
              [ {| Word.cell_paragraphs := [word_paragraph (py "Total")] |};
                {| Word.cell_paragraphs := [word_paragraph (py "One")] |};
                {| Word.cell_paragraphs := [word_paragraph (py "Two")] |} ];
            Word.table_rows := [ [0; 0]%nat; [1; 2]%nat ] |} ] |}.

(** A mapping that translates the first paragraph or cell of each example
    document and nothing else. *)
Definition example_mapping : gmap str str :=
  list_to_map
    [ (py "ppt_s0_sh0_p0", py "Titulo");
      (py "ppt_s0_sh1_c0_0", py "Izquierda");
      (py "doc_p0", py "Encabezado");
      (py "doc_t0_r0_c0", py "Uno");
      (py "xls_s0_r1_c2", py "Suma") ].

(** ** Cells of a workbook file, by position *)

(** The cell in sheet [sheet_index] (from 0), at row [r] and column [c] of
    the stored grid (both from 0; the cell's coordinates are [S r] and
    [S c]). *)
Definition stored_cell_at (file : Excel.File) (sheet_index r c : nat)
  : option Excel.StoredCell :=
  match file !! sheet_index with
  | Some sheet =>
      match sheet !! r with
      | Some cells => cells !! c
      | None => None
      end
  | None => None
  end.

(** The specification's sentence as it is worded: every emitted element is that of a cell that
    holds a string, not a number, a boolean or a formula. *)
Definition emitted_only_for_string_cells (file : Excel.File) : Prop :=
  forall e, e ∈ Excel.extract_text file ->
    exists sheet_index r c cell s,
      stored_cell_at file sheet_index r c = Some cell
      /\ element_id e = Excel._cell_id sheet_index (S r) (S c)
      /\ Excel.stored_content cell = Excel.Constant (Excel.VString s).

(** What the cell reports as its value when the workbook is loaded with
    [data_only=True]. *)
Definition data_only_value (cell : Excel.StoredCell) : Excel.value :=
  match Excel.stored_content cell with
  | Excel.Constant v => v
  | Excel.Formula _ cached => cached
  | Excel.Merged => Excel.VNone
  end.

(** The raw text of the location an identifier names: the text of a
    paragraph or of a table cell, or the string a worksheet cell holds. *)
Inductive location_text : DocumentHandler -> str -> str -> Prop :=
| ppt_paragraph_text presentation si shi k p :
    ppt_paragraph_at presentation si shi k = Some p ->
    location_text (PowerPointHandler presentation)
      (PowerPoint._paragraph_id si shi k) (PowerPoint.paragraph_text p)
| ppt_cell_text presentation si shi r c cell :
    ppt_cell_at presentation si shi r c = Some cell ->
    location_text (PowerPointHandler presentation)
      (PowerPoint._cell_id si shi r c) (PowerPoint.cell_text cell)
| doc_paragraph_text document k p :
    doc_paragraph_at document k = Some p ->
    location_text (WordHandler document) (Word._paragraph_id k) (Word.paragraph_text p)
| doc_cell_text document t r c cell :
    doc_cell_at document t r c = Some cell ->
    location_text (WordHandler document) (Word._cell_id t r c) (Word.cell_text cell)
| xls_cell_text file si r c cell s :
    stored_cell_at file si r c = Some cell ->
    data_only_value cell = Excel.VString s ->
    location_text (ExcelHandler file) (Excel._cell_id si (S r) (S c)) s.

Definition plain_font : Excel.CellFont :=
  {| Excel.font_family := py "Calibri"; Excel.font_points := 11%Q;
     Excel.bold := false; Excel.italic := false |}.

(** A workbook of one sheet: A1 holds the number 3, B1 a formula whose
    cached result is a string. *)
Definition formula_file : Excel.File :=
  [ [ [ {| Excel.stored_content := Excel.Constant (Excel.VNumber 3%Q);
           Excel.stored_font := plain_font |};
        {| Excel.stored_content :=
             Excel.Formula (py "=IF(A1>2, 'Total', 'None')") (Excel.VString (py "Total"));
           Excel.stored_font := plain_font |} ] ] ].

(** ** Identifiers: digits and what follows them *)

Definition all_digits (s : str) : Prop := Forall (fun c => is_digit c = true) s.

(** Empty, or starting with a character that is not a digit. *)
Definition stops (s : str) : Prop :=
  match s with
  | [] => True
  | c :: _ => is_digit c = false
  end.

(** An item with a character that is not whitespace. *)
Definition nonblank (s : str) : Prop := lstrip s <> [].

(** Requests for closed examples. *)
Definition three_texts : list str := [py "a"; py "b"; py "c"].

Definition ten_texts : list str :=
  [py "t0"; py "t1"; py "t2"; py "t3"; py "t4"; py "t5"; py "t6"; py "t7"; py "t8"; py "t9"].

(** ** backend/app.py and backend/config.py: the callers *)

(** The dictionary comprehension of the translate route, over
    [zip(elements, translated_texts)]: a later pair overwrites an earlier
    one with the same identifier, and [zip] stops at the shorter list. *)
Definition build_mapping (elements : list TextElement) (translated_texts : list str)
  : gmap str str :=
  foldl (fun mapping pair => <[element_id pair.1 := pair.2]> mapping) ∅
        (zip elements translated_texts).

Section Detection.
(** [langdetect.detect]: a language tag, or [None] for
    [LangDetectException]. *)
Variable detect : str -> option str.

Fixpoint _detect_language (elements : list TextElement) : option str :=
  match elements with
  | [] => None
  | element :: rest =>
      match detect (text element) with
      | Some (c :: tag) => Some (c :: tag)
      | _ => _detect_language rest
      end
  end.

End Detection.

Record FileRecord := {
  file_id : str;
  original_name : str;
  stored_name : str;
  path : str;
  size_bytes : Z;
  kind : str;
}.

Module FileRegistry.

(** The [_records] dictionary. *)
Abbreviation t := (gmap str FileRecord).

Definition add (registry : t) (record : FileRecord) : t :=
  <[file_id record := record]> registry.

Definition get (registry : t) (id : str) : option FileRecord :=
  registry !! id.

End FileRegistry.

(** [value.split(",")] *)
Fixpoint split_comma (value : str) : list str :=
  match value with
  | [] => [[]]
  | c :: rest =>
      if c =? ch "," then [] :: split_comma rest
      else match split_comma rest with
           | item :: items => (c :: item) :: items
           | [] => [[c]]
           end
  end.

(** [_parse_list]: the stripped items of a comma-separated value that are
    not empty, or the default for an empty value. *)
Definition _parse_list (value : str) (default : gset str) : gset str :=
  match value with
  | [] => default
  | _ :: _ =>
      list_to_set
        (concat ((fun item => match strip item with
                              | [] => []
                              | c :: t => [c :: t]
                              end) <$> split_comma value))
  end.

Definition DEFAULT_EXTENSIONS : gset str := {[ py "pptx"; py "docx"; py "xlsx" ]}.

(** [Settings.allowed_extensions], from the [ALLOWED_EXTENSIONS] variable of
    the environment (empty when unset). *)
Definition allowed_extensions (env_value : str) : gset str :=
  _parse_list env_value DEFAULT_EXTENSIONS ∪ DEFAULT_EXTENSIONS.

(** The raw text of a location after reinsertion: what the library stored
    for the translation mapped to its identifier, or the text it had. *)
Definition text_after (stored : str -> result str) (translations : gmap str str)
    (id raw : str) : result str :=
  match translations !! id with
  | Some translated => stored translated
  | None => Ok raw
  end.

(** No cell of a table of the document covers two positions. *)
(** The library stores every translation the mapping holds. *)
Definition accepted (stored : str -> result str) (translations : gmap str str) : Prop :=
  forall id translated, translations !! id = Some translated ->
                        exists kept, stored translated = Ok kept.

(** No key of the mapping is the identifier of a position that lies
    inside a merged range of the workbook. *)
Definition no_merged_key (file : Excel.File) (translations : gmap str str) : Prop :=
  forall si r c cell,
    stored_cell_at file si r c = Some cell ->
    Excel.stored_content cell = Excel.Merged ->
    translations !! Excel._cell_id si (S r) (S c) = None.

(** A document whose body paragraphs hold runs and nothing else. *)
Definition paragraphs_of_runs (document : Word.Document) : Prop :=
  forall k p, doc_paragraph_at document k = Some p ->
              Word.remove_runs (Word.content p) = [].

Definition no_merged_cells (document : Word.Document) : Prop :=
  forall t r c r' c' place,
    doc_cell_place document t r c = Some place ->
    doc_cell_place document t r' c' = Some place -> r' = r /\ c' = c.

(** The specification's sentence as it is worded, for the cells of Word
    tables: whatever the document and the mapping, reinsertion completes
    and leaves a cell whose identifier is not a key as it was. *)
Definition untouched_without_key `{OfficeLibraries} : Prop :=
  forall default_style document translations font_name t r c,
    translations !! Word._cell_id t r c = None ->
    exists output,
      Word.apply_translations default_style document translations font_name = Ok output
      /\ doc_cell_at output t r c = doc_cell_at document t r c.

(** The exceptions of the decoder. *)
Definition decoder_exn (e : exn) : Prop :=
  e = JSONDecodeError \/ e = RecursionError \/ e = ValueError.

(** The characters of a text that are not whitespace, in order. *)
Definition visible (s : str) : str := filter (fun c => isspace c = false) s.

(** A translator without a key, for closed examples. *)
Definition keyless_translator : OpenRouterTranslator :=
  new_translator default_settings
    {| api_key := []; model := []; source_lang := None;
       target_lang := py "es"; temperature := 0%Q |}.

(** A run that carries a font name or a font size. *)
Definition has_font (run : Word.Run) : bool :=
  truthy (f_name (Word.run_font run)) || truthy_size (f_size (Word.run_font run)).

(** An element in which [detect] finds no language: it raises, or returns
    an empty tag. *)
Definition undetected (detect : str -> option str) (element : TextElement) : Prop :=
  detect (text element) = None \/ detect (text element) = Some [].

(** * Properties *)

(** ** Strings *)

Lemma lstrip_nil_iff (s : str) : lstrip s = [] <-> forallb isspace s = true.
Proof.
  induction s as [|c s IH]; simpl; [done|].
  destruct (isspace c); simpl; [done|]. split; discriminate.
Qed.

Lemma lstrip_app_nonblank (a b : str) :
  lstrip a <> [] -> lstrip (a ++ b) = lstrip a ++ b.
Proof.
  induction a as [|c a IH]; simpl; [done|].
  destruct (isspace c); auto.
Qed.

Lemma lstrip_head (s : str) c t : lstrip s = c :: t -> isspace c = false.
Proof.
  induction s as [|x s IH]; simpl; [done|].
  destruct (isspace x) eqn:E; [auto|]. intros [= -> _]. done.
Qed.

Lemma lstrip_idem (s : str) : lstrip (lstrip s) = lstrip s.
Proof.
  destruct (lstrip s) as [|c t] eqn:E; [done|].
  simpl. by rewrite (lstrip_head _ _ _ E).
Qed.

Lemma forallb_rev {A} (p : A -> bool) (l : list A) : forallb p (rev l) = forallb p l.
Proof.
  induction l as [|x l IH]; simpl; [done|].
  rewrite forallb_app, IH. simpl. rewrite andb_true_r. apply andb_comm.
Qed.

Lemma rstrip_nil_iff (s : str) : rstrip s = [] <-> forallb isspace s = true.
Proof.
  unfold rstrip. rewrite <- (forallb_rev isspace s), <- lstrip_nil_iff.
  split; intros E.
  - apply (f_equal (@rev _)) in E. by rewrite rev_involutive in E.
  - by rewrite E.
Qed.

(** What [lstrip] removes is whitespace, and what it keeps is a suffix. *)
Lemma lstrip_split (s : str) :
  exists w, s = w ++ lstrip s /\ forallb isspace w = true.
Proof.
  induction s as [|c s (w & E & Hw)]; simpl.
  - by exists [].
  - destruct (isspace c) eqn:Ec.
    + exists (c :: w). simpl. rewrite Ec, Hw. split; [by f_equal|done].
    + by exists [].
Qed.

Lemma rstrip_split (s : str) :
  exists w, s = rstrip s ++ w /\ forallb isspace w = true.
Proof.
  unfold rstrip. destruct (lstrip_split (rev s)) as (w & E & Hw).
  exists (rev w). rewrite forallb_rev. split; [|done].
  rewrite <- rev_app_distr, <- E. by rewrite rev_involutive.
Qed.

Lemma forallb_isspace_app (a b : str) :
  forallb isspace (a ++ b) = forallb isspace a && forallb isspace b.
Proof. apply forallb_app. Qed.

(** A string with a character that is not whitespace keeps one under
    either strip. *)
Lemma rstrip_nonblank (s : str) : lstrip s <> [] -> lstrip (rstrip s) <> [].
Proof.
  intros Hs Hr. apply Hs. apply lstrip_nil_iff.
  destruct (rstrip_split s) as (w & E & Hw).
  rewrite E, forallb_isspace_app, Hw, andb_true_r. by apply lstrip_nil_iff.
Qed.

Lemma nonblank_rstrip_nonempty (s : str) : lstrip s <> [] -> rstrip s <> [].
Proof. intros Hs E. apply (rstrip_nonblank s Hs). by rewrite E. Qed.

Lemma rstrip_last (s : str) (c : char) :
  isspace c = false -> rstrip (s ++ [c]) = s ++ [c].
Proof.
  intros Hc. unfold rstrip. rewrite rev_app_distr. simpl. rewrite Hc.
  simpl. by rewrite rev_involutive.
Qed.

Lemma rstrip_idem (s : str) : rstrip (rstrip s) = rstrip s.
Proof. unfold rstrip. by rewrite rev_involutive, lstrip_idem. Qed.

(** [rstrip] keeps the head of a string that starts with a character that
    is not whitespace. *)
Lemma rstrip_cons_nonspace (c : char) (t : str) :
  isspace c = false -> exists t', rstrip (c :: t) = c :: t'.
Proof.
  intros Hc. destruct (rstrip_split (c :: t)) as (w & E & Hw).
  destruct (rstrip (c :: t)) as [|x t'] eqn:Er.
  - simpl in E. subst w. simpl in Hw. by rewrite Hc in Hw.
  - simpl in E. injection E as -> _. by exists t'.
Qed.

Lemma lstrip_rstrip_comm_head (s : str) c t :
  lstrip s = c :: t -> exists t', strip s = c :: t' /\ lstrip (strip s) = strip s.
Proof.
  intros E. unfold strip. rewrite E.
  destruct (rstrip_cons_nonspace c t (lstrip_head _ _ _ E)) as (t' & Et).
  exists t'. split; [done|]. rewrite Et. simpl. by rewrite (lstrip_head _ _ _ E).
Qed.

(** The result of [strip] is empty or trimmed. *)
Lemma strip_idem (s : str) : strip (strip s) = strip s.
Proof.
  destruct (lstrip s) as [|c t] eqn:E.
  - unfold strip. rewrite E. done.
  - destruct (lstrip_rstrip_comm_head s c t E) as (t' & _ & El).
    unfold strip at 1. rewrite El. unfold strip. apply rstrip_idem.
Qed.

Lemma emit_spec (id raw : str) (e : TextElement) :
  e ∈ emit id raw -> element_id e = id /\ text e = strip raw /\ strip raw <> [].
Proof.
  unfold emit. destruct (strip raw) as [|c t] eqn:E.
  - intros Hin. by apply elem_of_nil in Hin.
  - intros Hin. apply list_elem_of_singleton in Hin. subst e. simpl. done.
Qed.

Lemma emit_trimmed (id raw : str) (e : TextElement) :
  e ∈ emit id raw -> trimmed_nonempty (text e).
Proof.
  intros (_ & Et & Hne)%emit_spec. unfold trimmed_nonempty.
  rewrite Et. split; [done|apply strip_idem].
Qed.

(** ** The translation client *)

Section ClientProperties.
Context `{PyRuntime} (settings : Settings).

Lemma accept_parsed_length (parsed : result json) (n : nat) (items : list json) :
  accept_parsed parsed n = Ok (Some items) -> n = length items \/ n = 0%nat.
Proof.
  unfold accept_parsed. destruct parsed as [[| | | |l|]|[]]; try discriminate.
  destruct (n =? length l)%nat eqn:E1; simpl.
  - intros [= <-]. left. by apply Nat.eqb_eq.
  - destruct (n =? 0)%nat eqn:E2; [|discriminate].
    intros _. right. by apply Nat.eqb_eq.
Qed.

(** What the cascade returns is what one of its steps decoded and let
    through the guard. *)
Lemma extract_translations_ok (message : str) (n : nat) (parsed : list json) :
  _extract_translations message n = Ok parsed ->
  exists text, accept_parsed (json_loads text) n = Ok (Some parsed).
Proof.
  unfold _extract_translations. intros E.
  destruct (accept_parsed (json_loads message) n) as [[p1|]|] eqn:E1;
    cbn [bind] in E; [injection E as <-; eauto| |done].
  destruct (search_fenced message) as [snippet|].
  - destruct (accept_parsed (json_loads snippet) n) as [[p2|]|] eqn:E2;
      cbn [bind] in E; [injection E as <-; eauto| |done].
    destruct (_find_json_array message) as [[|c snip]|]; cbn [bind] in E; try discriminate.
    destruct (accept_parsed (json_loads (c :: snip)) n) as [[p3|]|] eqn:E3;
      cbn [bind] in E; [injection E as <-; eauto|done..].
  - cbn [bind] in E.
    destruct (_find_json_array message) as [[|c snip]|]; cbn [bind] in E; try discriminate.
    destruct (accept_parsed (json_loads (c :: snip)) n) as [[p3|]|] eqn:E3;
      cbn [bind] in E; [injection E as <-; eauto|done..].
Qed.

(** Whatever step of the cascade returns, it returns a list of the expected
    length (when one is expected at all). *)
Lemma extract_translations_length (message : str) (n : nat) (parsed : list json) :
  _extract_translations message n = Ok parsed -> n <> 0%nat -> length parsed = n.
Proof.
  intros [text E]%extract_translations_ok Hn. apply accept_parsed_length in E. lia.
Qed.

(** A parsed list of the right length goes out as it is, item by item
    through [str]. *)
Lemma deliver_same_length (translations : list json) (texts : list str) :
  length translations = length texts ->
  deliver translations texts = Ok (py_str <$> translations).
Proof.
  intros E. unfold deliver.
  rewrite bool_decide_eq_false_2 by (intros ?; done). simpl.
  by rewrite bool_decide_eq_false_2 by (intros ?; done).
Qed.

(** In [translate_texts] the reconciliation step is never entered: what the
    cascade hands over already has the length of the request. *)
Lemma deliver_after_extract (message : str) (texts : list str) (parsed : list json) :
  texts <> [] ->
  _extract_translations message (length texts) = Ok parsed ->
  deliver parsed texts = Ok (py_str <$> parsed).
Proof.
  intros Hne E. apply deliver_same_length.
  apply (extract_translations_length _ _ _ E). by destruct texts.
Qed.

(** What [translate_texts] does with a success response: the result of the
    cascade, item by item through [str]; the reconciliation is not
    involved. *)
Lemma translate_texts_on_response (self : OpenRouterTranslator)
    (post : http_request -> http_outcome) (texts : list str)
    (status : Z) (text : str) (data : json) (message_content : str) :
  texts <> [] ->
  api_key (config self) <> [] ->
  (forall request, post request = Response status text) ->
  (status < 400)%Z ->
  json_loads text = Ok data ->
  message_content_of data = Ok message_content ->
  fst (translate_texts settings self texts post)
  = match _extract_translations message_content (length texts) with
    | Ok parsed => Ok (py_str <$> parsed)
    | Raise e => Raise e
    end.
Proof.
  intros Htexts Hkey Hpost Hstatus Hdata Hcontent.
  unfold translate_texts.
  destruct texts as [|t0 texts]; [done|].
  destruct (api_key (config self)) as [|k0 key] eqn:Ek; [done|].
  cbn [fst]. rewrite Hpost.
  assert ((status >=? 400)%Z = false) as -> by (rewrite Z.geb_leb; apply Z.leb_gt; lia).
  rewrite Hdata. cbn [bind]. rewrite Hcontent.
  cbv beta iota.
  destruct (_extract_translations message_content (length (t0 :: texts)))
    as [parsed|e] eqn:E; cbn [bind]; [|done].
  by apply (deliver_after_extract message_content).
Qed.

Lemma py_str_strings (l : list str) : py_str <$> (JString <$> l) = l.
Proof. induction l as [|s l IH]; [done|]. rewrite !fmap_cons. by f_equal. Qed.

(** *** Padding *)

Lemma pad_loop (originals : list str) (k n : nat) (items : list str) :
  (n + k <= length originals)%nat ->
  foldl (fun padded idx =>
           match originals !! idx with
           | Some original => padded ++ [original]
           | None => padded
           end) items (seq n k)
  = items ++ take k (drop n originals).
Proof.
  revert n items. induction k as [|k IH]; intros n items Hle; simpl.
  - by rewrite take_0, app_nil_r.
  - destruct (lookup_lt_is_Some_2 originals n) as [o Ho]; [lia|].
    rewrite Ho. rewrite IH by lia. rewrite <- app_assoc. f_equal.
    rewrite (drop_S _ _ _ Ho). done.
Qed.

Lemma pad_missing_items_eq (items originals : list str) :
  (length items <= length originals)%nat ->
  _pad_missing_items items originals = items ++ drop (length items) originals.
Proof.
  intros Hle. unfold _pad_missing_items. rewrite pad_loop by lia.
  f_equal. apply take_ge. rewrite length_drop. lia.
Qed.

End ClientProperties.

(** ** The reconciliation engine *)

Arguments char_in : simpl never.
Arguments endswith_any : simpl never.
Arguments rstrip : simpl never.

Section EngineProperties.
Context `{PyRuntime}.

Lemma find_merge_from_bound (idx : nat) (previous : str) (rest : list str) (i : nat) :
  find_merge_from idx previous rest = Some i ->
  (1 <= idx)%nat -> (idx - 1 <= i /\ i < idx - 1 + length rest)%nat.
Proof.
  revert idx previous. induction rest as [|item rest IH]; intros idx previous; simpl.
  - discriminate.
  - intros E Hidx.
    destruct (lstrip item) as [|first_char t].
    { injection E as <-. lia. }
    destruct (char_in first_char CLOSING).
    { injection E as <-. lia. }
    destruct (negb (bool_decide (previous = []))
              && negb (endswith_any (rstrip previous) TERMINALS)).
    { injection E as <-. lia. }
    destruct (islower first_char).
    { injection E as <-. lia. }
    apply IH in E; lia.
Qed.

(** On two or more items the index is that of an item with a successor:
    both subscripts of the merge step are in range. *)
Lemma find_merge_index_in_range (items : list str) :
  (2 <= length items)%nat -> (S (_find_merge_index items) < length items)%nat.
Proof.
  intros Hlen. unfold _find_merge_index.
  destruct items as [|first rest]; simpl in Hlen; [lia|].
  destruct (find_merge_from 1 first rest) as [i|] eqn:E.
  - apply find_merge_from_bound in E; [|lia]. simpl. lia.
  - simpl length. lia.
Qed.

Lemma merge_at_eq (merged : list str) (idx : nat) (l r : str) :
  merged !! idx = Some l -> merged !! S idx = Some r ->
  merge_at merged idx
  = take idx merged ++ _concat_segments l r :: drop (S (S idx)) merged.
Proof.
  intros El Er. unfold merge_at. rewrite El, Er.
  rewrite delete_take_drop.
  assert (Hlen : length (take idx merged) = idx).
  { rewrite length_take. apply lookup_lt_Some in El. lia. }
  rewrite (take_S_r _ _ _ El), <- app_assoc. simpl.
  rewrite insert_app_r_alt by lia. rewrite Hlen, Nat.sub_diag. done.
Qed.

Lemma merge_at_length (merged : list str) (idx : nat) :
  (S idx < length merged)%nat -> S (length (merge_at merged idx)) = length merged.
Proof.
  intros Hlt.
  destruct (lookup_lt_is_Some_2 merged idx) as [l El]; [lia|].
  destruct (lookup_lt_is_Some_2 merged (S idx)) as [r Er]; [lia|].
  rewrite (merge_at_eq _ _ _ _ El Er).
  rewrite length_app, length_take. simpl. rewrite length_drop. lia.
Qed.

(** The loop stops at the expected count. *)
Lemma merge_loop_length (rounds : nat) (merged : list str) (expected : nat) :
  (1 <= expected <= length merged)%nat ->
  (length merged - expected <= rounds)%nat ->
  length (merge_loop rounds merged expected) = expected.
Proof.
  revert merged. induction rounds as [|rounds IH]; intros merged He Hr; simpl.
  - lia.
  - destruct (expected <? length merged)%nat eqn:E1.
    + apply Nat.ltb_lt in E1.
      assert ((1 <? length merged)%nat = true) as -> by (apply Nat.ltb_lt; lia).
      simpl.
      pose proof (find_merge_index_in_range merged ltac:(lia)) as Hin.
      pose proof (merge_at_length merged _ Hin) as Hl.
      apply IH; lia.
    + apply Nat.ltb_ge in E1. simpl. lia.
Qed.

Lemma merge_extra_items_length (items : list str) (expected : nat) :
  (1 <= expected <= length items)%nat ->
  length (_merge_extra_items items expected) = expected.
Proof. intros He. apply merge_loop_length; lia. Qed.

(** *** Agreement with the specified heuristic on items that are not blank *)

Lemma nonblank_nonempty (s : str) : nonblank s -> s <> [].
Proof. intros Hs ->. by apply Hs. Qed.

Lemma find_merge_from_spec (idx : nat) (previous : str) (rest : list str) :
  nonblank previous -> Forall nonblank rest ->
  find_merge_from idx previous rest = spec_merge_point idx previous rest.
Proof.
  revert idx previous. induction rest as [|item rest IH]; intros idx previous Hp Hr.
  - done.
  - apply Forall_cons in Hr as [Hi Hr]. simpl.
    destruct (lstrip item) as [|first_char t] eqn:E; [by destruct Hi|].
    rewrite (bool_decide_eq_false_2 (previous = [])) by by apply nonblank_nonempty.
    simpl. rewrite IH by done. done.
Qed.

Lemma find_merge_index_spec (items : list str) :
  Forall nonblank items -> _find_merge_index items = spec_find_merge_index items.
Proof.
  intros Hall. unfold _find_merge_index, spec_find_merge_index.
  destruct items as [|first rest]; [done|].
  apply Forall_cons in Hall as [Hf Hr].
  rewrite find_merge_from_spec by done.
  destruct (spec_merge_point 1 first rest); [done|]. simpl length. lia.
Qed.

Lemma concat_segments_spec (l r : str) :
  nonblank l -> nonblank r -> _concat_segments l r = spec_concat_segments l r.
Proof.
  intros Hl Hr. unfold _concat_segments, spec_concat_segments.
  destruct (rstrip l) as [|x l'] eqn:El.
  { by destruct (nonblank_rstrip_nonempty l Hl). }
  destruct (lstrip r) as [|c t] eqn:Er; [by destruct Hr|]. done.
Qed.

Lemma concat_segments_nonblank (l r : str) :
  nonblank l -> nonblank (_concat_segments l r).
Proof.
  intros Hl. unfold _concat_segments.
  pose proof (rstrip_nonblank l Hl) as Hrl.
  destruct (rstrip l) as [|x l'] eqn:El; [by destruct Hrl|].
  destruct (lstrip r) as [|c t] eqn:Er; [done|].
  unfold nonblank.
  destruct (char_in c CLOSING); rewrite lstrip_app_nonblank by done;
    intros E; apply app_eq_nil in E as [E _]; done.
Qed.

Lemma merge_at_spec (merged : list str) (idx : nat) :
  Forall nonblank merged ->
  merge_at merged idx = spec_merge_at merged idx /\ Forall nonblank (merge_at merged idx).
Proof.
  intros Hall. unfold spec_merge_at.
  destruct (merged !! idx) as [l|] eqn:El.
  2:{ unfold merge_at. rewrite El. done. }
  destruct (merged !! S idx) as [r|] eqn:Er.
  2:{ unfold merge_at. rewrite El, Er. done. }
  rewrite (merge_at_eq _ _ _ _ El Er).
  assert (Hl : nonblank l) by (eapply Forall_lookup_1; eauto).
  assert (Hr : nonblank r) by (eapply Forall_lookup_1; eauto).
  split.
  - by rewrite concat_segments_spec.
  - apply Forall_app. split; [by apply Forall_take|].
    apply Forall_cons. split; [by apply concat_segments_nonblank|by apply Forall_drop].
Qed.

Lemma merge_loop_spec (rounds : nat) (merged : list str) (expected : nat) :
  (1 <= expected)%nat -> Forall nonblank merged ->
  merge_loop rounds merged expected = spec_merge_until rounds merged expected.
Proof.
  intros He. revert merged. induction rounds as [|rounds IH]; intros merged Hall; simpl.
  - done.
  - destruct (expected <? length merged)%nat eqn:E1; [|done].
    apply Nat.ltb_lt in E1.
    assert ((1 <? length merged)%nat = true) as -> by (apply Nat.ltb_lt; lia).
    simpl. rewrite <- find_merge_index_spec by done.
    destruct (merge_at_spec merged (_find_merge_index merged) Hall) as [<- Hnb].
    by apply IH.
Qed.

(** *** The three branches of the reconciliation *)

Lemma reconcile_beyond_tolerance (translations originals : list str) :
  (Z.abs (Z.of_nat (length translations) - Z.of_nat (length originals))
   > tolerance (length originals))%Z ->
  _reconcile_translation_count translations originals = translations.
Proof.
  intros Hgt. unfold _reconcile_translation_count.
  destruct (_ || _); [done|].
  assert ((Z.abs (Z.of_nat (length translations) - Z.of_nat (length originals))
           >? tolerance (length originals))%Z = true) as ->; [|done].
  apply Z.gtb_lt. lia.
Qed.

Lemma reconcile_within_tolerance (translations originals : list str) :
  originals <> [] ->
  length translations <> length originals ->
  (Z.abs (Z.of_nat (length translations) - Z.of_nat (length originals))
   <= tolerance (length originals))%Z ->
  _reconcile_translation_count translations originals
  = if (length originals <? length translations)%nat
    then _merge_extra_items translations (length originals)
    else _pad_missing_items translations originals.
Proof.
  intros Hne Hlen Htol. unfold _reconcile_translation_count.
  assert ((length originals =? 0)%nat = false) as ->.
  { apply Nat.eqb_neq. by destruct originals. }
  assert ((length translations =? length originals)%nat = false) as ->.
  { by apply Nat.eqb_neq. }
  simpl.
  assert ((Z.abs (Z.of_nat (length translations) - Z.of_nat (length originals))
           >? tolerance (length originals))%Z = false) as ->.
  { rewrite Z.gtb_ltb. apply Z.ltb_ge. lia. }
  destruct (length originals <? length translations)%nat eqn:E.
  - apply Nat.ltb_lt in E.
    rewrite merge_extra_items_length by (destruct originals; simpl in *; [done|lia]).
    by rewrite Nat.ltb_irrefl.
  - apply Nat.ltb_ge in E.
    assert ((length translations <? length originals)%nat = true) as ->; [|done].
    apply Nat.ltb_lt. lia.
Qed.

(** *** The helpers on a decoded list of strings

    On a list whose items are all strings the helpers, run on the decoded
    list, raise nothing and compute what they compute on [List[str]]. *)

Lemma find_merge_from_decoded_strings (idx : nat) (previous : str) (rest : list str) :
  find_merge_from_decoded idx (JString previous) (JString <$> rest)
  = Ok (find_merge_from idx previous rest).
Proof.
  revert idx previous. induction rest as [|item rest IH]; intros idx previous; [done|].
  rewrite fmap_cons. cbn [find_merge_from_decoded find_merge_from method_lstrip bind].
  destruct (lstrip item) as [|first_char t]; [done|].
  destruct (char_in first_char CLOSING); [done|].
  assert (truth_value (JString previous) = negb (bool_decide (previous = []))) as ->
    by by destruct previous.
  destruct (negb (bool_decide (previous = []))); cbn [method_rstrip bind andb].
  - destruct (negb (endswith_any (rstrip previous) TERMINALS)); [done|].
    destruct (islower first_char); [done|]. apply IH.
  - destruct (islower first_char); [done|]. apply IH.
Qed.

Lemma find_merge_index_decoded_strings (items : list str) :
  _find_merge_index_decoded (JString <$> items) = Ok (_find_merge_index items).
Proof.
  unfold _find_merge_index_decoded, _find_merge_index. rewrite length_fmap.
  destruct items as [|first rest]; [done|]. rewrite fmap_cons.
  rewrite find_merge_from_decoded_strings. cbn [bind].
  by destruct (find_merge_from 1 first rest).
Qed.

Lemma merge_at_decoded_strings (merged : list str) (idx : nat) :
  (S idx < length merged)%nat ->
  merge_at_decoded (JString <$> merged) idx = Ok (JString <$> merge_at merged idx).
Proof.
  intros Hlt. unfold merge_at_decoded, merge_at. rewrite !list_lookup_fmap.
  destruct (lookup_lt_is_Some_2 merged idx) as [l ->]; [lia|].
  destruct (lookup_lt_is_Some_2 merged (S idx)) as [r ->]; [lia|].
  cbn [fmap option_fmap option_map _concat_segments_decoded method_rstrip method_lstrip bind].
  f_equal. rewrite list_fmap_insert. f_equal.
  rewrite !delete_take_drop, fmap_app, fmap_take, fmap_drop. done.
Qed.

Lemma merge_loop_decoded_strings (rounds : nat) (merged : list str) (expected : nat) :
  merge_loop_decoded rounds (JString <$> merged) expected
  = Ok (JString <$> merge_loop rounds merged expected).
Proof.
  revert merged. induction rounds as [|rounds IH]; intros merged; [done|].
  cbn [merge_loop_decoded merge_loop]. rewrite length_fmap.
  destruct (expected <? length merged)%nat; [|done].
  destruct (1 <? length merged)%nat eqn:E1; [|done]. cbn [andb].
  apply Nat.ltb_lt in E1.
  rewrite find_merge_index_decoded_strings. cbn [bind].
  rewrite merge_at_decoded_strings by (apply find_merge_index_in_range; lia).
  cbn [bind]. apply IH.
Qed.

Lemma pad_missing_items_decoded_strings (items originals : list str) :
  _pad_missing_items_decoded (JString <$> items) originals
  = JString <$> _pad_missing_items items originals.
Proof.
  unfold _pad_missing_items_decoded, _pad_missing_items. rewrite length_fmap.
  generalize (seq (length items) (length originals - length items)).
  intros indices. revert items.
  induction indices as [|idx indices IH]; intros items; [done|].
  cbn [foldl]. destruct (originals !! idx) as [original|]; [|apply IH].
  rewrite <- IH. by rewrite fmap_app.
Qed.

Lemma reconcile_decoded_strings (translations originals : list str) :
  _reconcile_translation_count_decoded (JString <$> translations) originals
  = Ok (JString <$> _reconcile_translation_count translations originals).
Proof.
  unfold _reconcile_translation_count_decoded, _reconcile_translation_count.
  rewrite length_fmap.
  destruct ((length originals =? 0)%nat || (length translations =? length originals)%nat);
    [done|].
  destruct (Z.abs _ >? tolerance _)%Z; [done|].
  destruct (length originals <? length translations)%nat.
  - unfold _merge_extra_items_decoded, _merge_extra_items.
    rewrite length_fmap, merge_loop_decoded_strings. cbn [bind]. rewrite length_fmap.
    destruct (_ <? _)%nat; [|done]. by rewrite pad_missing_items_decoded_strings.
  - cbn [bind]. rewrite length_fmap.
    destruct (_ <? _)%nat; [|done]. by rewrite pad_missing_items_decoded_strings.
Qed.

(** The caller's check on a list whose count was not restored. *)
Lemma deliver_count_mismatch (translations originals : list str) :
  length (_reconcile_translation_count translations originals) <> length originals ->
  length translations <> length originals ->
  deliver (JString <$> translations) originals = Raise (TranslationError CountMismatch).
Proof.
  intros Hrec Hlen. unfold deliver.
  rewrite bool_decide_eq_true_2 by by rewrite length_fmap.
  rewrite reconcile_decoded_strings. simpl.
  by rewrite bool_decide_eq_true_2 by by rewrite length_fmap.
Qed.

End EngineProperties.

(** ** The client and the engine against the specification *)

#[local] Existing Instance ascii_runtime.
#[local] Existing Instance office_libraries.

(** Items that are not strings, at a count [translate_texts] never hands
    over: an item no [str] method is called on passes through and goes
    out through [str]; one that is merged, or tested as the item before a
    merge point, raises [AttributeError]; padding touches no item. *)
Lemma deliver_decoded_items :
  deliver [JString (py "a"); JString (py "b"); JNumber (py "5")] [py "x"; py "y"]
  = Ok [py "a b"; py "<value>"]
  /\ deliver [JNumber (py "5"); JString (py "b"); JString (py "c")] [py "x"; py "y"]
     = Raise AttributeError
  /\ deliver [JNumber (py "0"); JString (py "B"); JString (py "c")] [py "x"; py "y"]
     = Ok [py "<value>"; py "B c"]
  /\ deliver [JNull] [py "x"; py "y"] = Ok [py "<value>"; py "y"]
  /\ deliver [JNull; JNull; JNull; JNull; JNull; JNull] [py "x"; py "y"]
     = Raise (TranslationError CountMismatch).
Proof. vm_compute. repeat split; reflexivity. Qed.


(** C10. For the empty input sequence [translate_texts] returns the empty
    list at once: no request is built or sent, whether or not an API key
    is configured, and nothing is raised. *)
Theorem translate_texts_empty `{PyRuntime} (settings : Settings)
    (self : OpenRouterTranslator) (post : http_request -> http_outcome) :
  translate_texts settings self [] post = (Ok [], []).
Proof. reflexivity. Qed.

(** C5. When the provider answers a request of N >= 1 strings, sent with a
    key, with a success status and a content that (stripped, as the client
    reads it) is a JSON array of N strings, [translate_texts] returns these
    N strings, unchanged and in the same order. *)
Theorem translate_texts_well_formed `{PyRuntime} (settings : Settings)
    (self : OpenRouterTranslator) (post : http_request -> http_outcome)
    (texts strs : list str) (status : Z) (text : str) (data : json) (content : str) :
  texts <> [] ->
  api_key (config self) <> [] ->
  (forall request, post request = Response status text) ->
  (status < 400)%Z ->
  json_loads text = Ok data ->
  content_of data = Ok (JString content) ->
  json_loads (strip content) = Ok (JArray (JString <$> strs)) ->
  length strs = length texts ->
  fst (translate_texts settings self texts post) = Ok strs.
Proof.
  intros Htexts Hkey Hpost Hstatus Hdata Hcontent Hparse Hlen.
  unfold translate_texts.
  destruct texts as [|t0 texts]; [done|].
  destruct (api_key (config self)) as [|k0 key] eqn:Ek; [done|].
  simpl fst. rewrite Hpost.
  assert ((status >=? 400)%Z = false) as -> by (rewrite Z.geb_leb; apply Z.leb_gt; lia).
  rewrite Hdata. cbn [bind]. unfold message_content_of. rewrite Hcontent. simpl.
  unfold _extract_translations. rewrite Hparse. unfold accept_parsed.
  rewrite length_fmap, Hlen, Nat.eqb_refl. simpl.
  rewrite deliver_same_length by by rewrite length_fmap.
  by rewrite py_str_strings.
Qed.

Lemma translate_texts_well_formed_witness :
  fst (translate_texts default_settings example_translator three_texts
         (fun _ => Response 200 (chat_response (pyq "['Uno', 'Dos', 'Tres']"))))
  = Ok [py "Uno"; py "Dos"; py "Tres"].
Proof.
  apply (translate_texts_well_formed default_settings example_translator _ three_texts
           [py "Uno"; py "Dos"; py "Tres"] 200
           (chat_response (pyq "['Uno', 'Dos', 'Tres']"))
           (JObject [(py "choices",
              JArray [JObject [(py "message",
                JObject [(py "role", JString (py "assistant"));
                         (py "content", JString (pyq "['Uno', 'Dos', 'Tres']"))])]])])
           (pyq "['Uno', 'Dos', 'Tres']")).
  - discriminate.
  - discriminate.
  - reflexivity.
  - lia.
  - vm_compute. reflexivity.
  - vm_compute. reflexivity.
  - vm_compute. reflexivity.
  - reflexivity.
Defined.

(** C1, on the request of three strings answered by a well-formed array of
    two: the reconciliation engine would pad the array to three, but
    [translate_texts] raises the parse error, because no step of the
    cascade accepts an array whose length is not the expected count. *)
Theorem translate_texts_short_array_raises :
  fst (translate_texts default_settings example_translator three_texts
         (fun _ => Response 200 (chat_response (pyq "['Uno', 'Dos']"))))
  = Raise (TranslationError CouldNotParse)
  /\ json_loads (pyq "['Uno', 'Dos']") = Ok (JArray [JString (py "Uno"); JString (py "Dos")])
  /\ (Z.abs (2 - 3) <= tolerance (length three_texts))%Z
  /\ _reconcile_translation_count [py "Uno"; py "Dos"] three_texts
     = [py "Uno"; py "Dos"; py "c"].
Proof. vm_compute. repeat split; try reflexivity. discriminate. Qed.

(** C2, on the request of ten strings answered by a well-formed array of
    two: the engine would return the two items as they are and the caller's
    check would raise the count-mismatch error, but [translate_texts]
    raises the parse error before either runs. *)
Theorem translate_texts_far_array_raises :
  fst (translate_texts default_settings example_translator ten_texts
         (fun _ => Response 200 (chat_response (pyq "['a', 'b']"))))
  = Raise (TranslationError CouldNotParse)
  /\ tolerance (length ten_texts) = 3%Z
  /\ _reconcile_translation_count [py "a"; py "b"] ten_texts = [py "a"; py "b"]
  /\ deliver [JString (py "a"); JString (py "b")] ten_texts
     = Raise (TranslationError CountMismatch).
Proof. vm_compute. repeat split; reflexivity. Qed.

(** C4. With fewer parsed items than expected, within the tolerance, the
    engine returns the parsed items in their positions followed by the
    original strings of the missing tail positions; the result has the
    expected count. *)
Theorem reconcile_pads_with_originals `{PyRuntime} (translations originals : list str) :
  (length translations < length originals)%nat ->
  (Z.abs (Z.of_nat (length translations) - Z.of_nat (length originals))
   <= tolerance (length originals))%Z ->
  _reconcile_translation_count translations originals
  = translations ++ drop (length translations) originals
  /\ length (_reconcile_translation_count translations originals) = length originals
  /\ (forall i, (length translations <= i)%nat ->
        _reconcile_translation_count translations originals !! i = originals !! i)
  /\ (forall i, (i < length translations)%nat ->
        _reconcile_translation_count translations originals !! i = translations !! i).
Proof.
  intros Hlt Htol.
  assert (Hne : originals <> []) by (destruct originals; simpl in *; [lia|done]).
  rewrite reconcile_within_tolerance by (done || lia).
  assert ((length originals <? length translations)%nat = false) as ->
    by (apply Nat.ltb_ge; lia).
  rewrite pad_missing_items_eq by lia.
  split; [done|]. split; [|split].
  - rewrite length_app, length_drop. lia.
  - intros i Hi. rewrite lookup_app_r by done. rewrite lookup_drop. f_equal. lia.
  - intros i Hi. by rewrite lookup_app_l.
Qed.

Lemma reconcile_pads_with_originals_witness :
  _reconcile_translation_count [py "Uno"; py "Dos"] three_texts
  = [py "Uno"; py "Dos"] ++ drop 2 three_texts
  /\ [py "Uno"; py "Dos"] ++ drop 2 three_texts = [py "Uno"; py "Dos"; py "c"].
Proof.
  split; [|reflexivity].
  apply (reconcile_pads_with_originals [py "Uno"; py "Dos"] three_texts).
  - simpl. lia.
  - vm_compute. discriminate.
Defined.

(** C3, as stated, fails on an empty item: the terminal-punctuation signal
    is skipped when the previous item is empty, so the code merges the last
    two items where the described heuristic merges the first two.  It also
    fails when nothing is expected: two items against no original are
    within the tolerance of 3, and the code returns them as they are where
    the described engine merges them. *)
Lemma merge_differs_on_empty_item :
  _reconcile_translation_count [[]; py "Abc"; py "def"] [py "a"; py "b"]
  = [[]; py "Abc def"]
  /\ spec_merge_extra_items [[]; py "Abc"; py "def"] 2 = [py " Abc"; py "def"]
  /\ _reconcile_translation_count [[]; py "Abc"; py "def"] [py "a"; py "b"]
     <> spec_merge_extra_items [[]; py "Abc"; py "def"] 2
  /\ (Z.abs (2 - 0) <= tolerance 0)%Z
  /\ _reconcile_translation_count [py "Abc"; py "def"] [] = [py "Abc"; py "def"]
  /\ spec_merge_extra_items [py "Abc"; py "def"] 0 = [py "Abc def"]
  /\ _reconcile_translation_count [py "Abc"; py "def"] []
     <> spec_merge_extra_items [py "Abc"; py "def"] 0.
Proof. vm_compute. repeat split; try reflexivity; discriminate. Qed.

(** C3, amended. With at least one item expected, more parsed items than
    expected, within the tolerance, and every item holding a character
    that is not whitespace, the engine merges two adjacent items at a time
    until the count matches, each time at the point the specified
    heuristic chooses (left-to-right scan: closing punctuation at the
    start of an item, then no terminal punctuation at the end of the
    previous one, then a lowercase start; otherwise the last two items),
    joining the trimmed fragments with one space, or with none before
    closing punctuation. *)
Theorem reconcile_merges_as_specified `{PyRuntime} (translations originals : list str) :
  Forall nonblank translations ->
  originals <> [] ->
  (length originals < length translations)%nat ->
  (Z.abs (Z.of_nat (length translations) - Z.of_nat (length originals))
   <= tolerance (length originals))%Z ->
  _reconcile_translation_count translations originals
  = spec_merge_extra_items translations (length originals)
  /\ length (_reconcile_translation_count translations originals) = length originals.
Proof.
  intros Hnb Hne Hlt Htol.
  rewrite reconcile_within_tolerance by (done || lia).
  assert ((length originals <? length translations)%nat = true) as ->
    by (apply Nat.ltb_lt; lia).
  assert (He : (1 <= length originals)%nat) by (destruct originals; simpl; [done|lia]).
  split.
  - unfold _merge_extra_items, spec_merge_extra_items. by apply merge_loop_spec.
  - apply merge_extra_items_length. lia.
Qed.

Lemma reconcile_merges_as_specified_witness :
  _reconcile_translation_count [py "Hello"; py "world."; py "Goodbye"] [py "a"; py "b"]
  = spec_merge_extra_items [py "Hello"; py "world."; py "Goodbye"] 2
  /\ spec_merge_extra_items [py "Hello"; py "world."; py "Goodbye"] 2
     = [py "Hello world."; py "Goodbye"].
Proof.
  split; [|vm_compute; reflexivity].
  apply (reconcile_merges_as_specified
           [py "Hello"; py "world."; py "Goodbye"] [py "a"; py "b"]).
  - repeat constructor; vm_compute; discriminate.
  - discriminate.
  - simpl. lia.
  - vm_compute. discriminate.
Defined.

(** ** The bracket scanner *)

Section Scanner.

Lemma eqb_ne (a b : N) : a <> b -> (a =? b) = false.
Proof. apply N.eqb_neq. Qed.

Lemma scan_plain (c : char) (rest : str) (idx : nat) (d : Z) :
  c <> QUOTE -> c <> BACKSLASH -> c <> ch "[" -> c <> ch "]" ->
  scan_array (c :: rest) idx d false false = scan_array rest (S idx) d false false.
Proof.
  intros H1 H2 H3 H4. cbn [scan_array].
  rewrite (eqb_ne _ _ H1), (eqb_ne _ _ H2), (eqb_ne _ _ H3), (eqb_ne _ _ H4). done.
Qed.

Lemma scan_quote_open (rest : str) (idx : nat) (d : Z) :
  scan_array (QUOTE :: rest) idx d false false = scan_array rest (S idx) d true false.
Proof. reflexivity. Qed.

Lemma scan_quote_close (rest : str) (idx : nat) (d : Z) :
  scan_array (QUOTE :: rest) idx d true false = scan_array rest (S idx) d false false.
Proof. reflexivity. Qed.

Lemma scan_in_string (c : char) (rest : str) (idx : nat) (d : Z) :
  c <> QUOTE -> c <> BACKSLASH ->
  scan_array (c :: rest) idx d true false = scan_array rest (S idx) d true false.
Proof.
  intros H1 H2. cbn [scan_array]. rewrite (eqb_ne _ _ H1), (eqb_ne _ _ H2). done.
Qed.

Lemma scan_escape (c : char) (rest : str) (idx : nat) (d : Z) :
  scan_array (BACKSLASH :: c :: rest) idx d true false
  = scan_array rest (S (S idx)) d true false.
Proof.
  cbn [scan_array]. change (BACKSLASH =? QUOTE) with false.
  change (BACKSLASH =? BACKSLASH) with true. cbn [andb negb].
  rewrite andb_false_r. cbn [andb negb]. by rewrite andb_false_r.
Qed.

Lemma scan_open (rest : str) (idx : nat) (d : Z) :
  scan_array (ch "[" :: rest) idx d false false
  = scan_array rest (S idx) (d + 1)%Z false false.
Proof. reflexivity. Qed.

Lemma scan_close (rest : str) (idx : nat) (d : Z) :
  scan_array (ch "]" :: rest) idx d false false
  = if (d - 1 =? 0)%Z then Some idx else scan_array rest (S idx) (d - 1)%Z false false.
Proof. reflexivity. Qed.

(** Inside a literal nothing is counted, whatever the characters are. *)
Lemma scan_literal_body (body : list literal_item) (rest : str) (idx : nat) (d : Z) :
  Forall literal_item_ok body ->
  scan_array (concat (render_item <$> body) ++ rest) idx d true false
  = scan_array rest (idx + length (concat (render_item <$> body))) d true false.
Proof.
  intros Hok. revert idx. induction Hok as [|i body Hi _ IH]; intros idx.
  - simpl. f_equal. lia.
  - rewrite fmap_cons. cbn [concat]. rewrite <- app_assoc, length_app.
    destruct i as [c|c]; cbn [render_item app length].
    + destruct Hi as [H1 H2]. rewrite scan_in_string by done.
      rewrite IH. f_equal. lia.
    + rewrite scan_escape, IH. f_equal. lia.
Qed.

(** A well-formed token is passed over: the scanner is back outside any
    literal, at the depth it had, and it has not stopped. *)
Lemma scan_token (t : token) :
  token_ok t ->
  forall (rest : str) (idx : nat) (d : Z), (1 <= d)%Z ->
  scan_array (render t ++ rest) idx d false false
  = scan_array rest (idx + length (render t)) d false false.
Proof.
  revert t. fix IH 1. intros [c|body|inner] Hok rest idx d Hd.
  - destruct Hok as (H1 & H2 & H3 & H4). cbn [render app length].
    rewrite scan_plain by done. f_equal. lia.
  - cbn [render]. cbn [app]. rewrite scan_quote_open, <- app_assoc.
    rewrite scan_literal_body by done. cbn [app].
    rewrite scan_quote_close. f_equal. cbn [length]. rewrite length_app. simpl. lia.
  - cbn [render app]. rewrite scan_open, <- app_assoc.
    assert (Hinner : forall rest' idx' d', (1 <= d')%Z ->
              scan_array (concat (render <$> inner) ++ rest') idx' d' false false
              = scan_array rest' (idx' + length (concat (render <$> inner))) d' false false).
    { clear rest idx d Hd. cbn [token_ok] in Hok.
      induction inner as [|t inner IHinner]; intros rest' idx' d' Hd'.
      - simpl. f_equal. lia.
      - destruct Hok as [Ht Hrest]. rewrite fmap_cons. cbn [concat].
        rewrite <- app_assoc, (IH t Ht) by done.
        rewrite IHinner by done. f_equal. rewrite length_app. lia. }
    rewrite Hinner by lia. cbn [app]. rewrite scan_close.
    assert ((d + 1 - 1 =? 0)%Z = false) as -> by (apply Z.eqb_neq; lia).
    f_equal; [|lia]. cbn [length]. rewrite length_app. simpl. lia.
Qed.

Lemma scan_tokens (inner : list token) (rest : str) (idx : nat) (d : Z) :
  Forall token_ok inner -> (1 <= d)%Z ->
  scan_array (concat (render <$> inner) ++ rest) idx d false false
  = scan_array rest (idx + length (concat (render <$> inner))) d false false.
Proof.
  intros Hok Hd. revert idx.
  induction Hok as [|t inner Ht _ IH]; intros idx.
  - simpl. f_equal. lia.
  - rewrite fmap_cons. cbn [concat]. rewrite <- app_assoc, scan_token by done.
    rewrite IH. f_equal. rewrite length_app. lia.
Qed.

Lemma find_char_first (c : char) (before rest : str) :
  find_char c before = None ->
  find_char c (before ++ c :: rest) = Some (length before).
Proof.
  induction before as [|x before IH]; simpl.
  - by rewrite N.eqb_refl.
  - destruct (x =? c); [discriminate|].
    destruct (find_char c before); [discriminate|].
    intros _. by rewrite IH.
Qed.

Lemma slice_middle (before body after : str) :
  slice (before ++ body ++ after) (length before) (length before + length body) = body.
Proof.
  unfold slice. rewrite drop_app_length.
  replace (length before + length body - length before)%nat with (length body) by lia.
  by rewrite take_app_length.
Qed.

End Scanner.

(** C6. The finder returns the text from the first opening bracket to the
    closing bracket that matches it: brackets inside quoted literals,
    escaped characters included, are not counted, and nested brackets
    outside literals are.  On the text
    [Note: see [ "a]b", "c" ] end] the result parses to the array of
    [a]b] and [c]. *)
Theorem find_json_array_matching_bracket (before after : str) (inner : list token) :
  find_char (ch "[") before = None ->
  Forall token_ok inner ->
  _find_json_array (before ++ render (TNested inner) ++ after)
  = Some (render (TNested inner)).
Proof.
  intros Hbefore Hok.
  assert (Hscan : scan_array (render (TNested inner) ++ after) (length before) 0 false false
                  = Some (length before + S (length (concat (render <$> inner))))%nat).
  { cbn [render app]. rewrite scan_open, <- app_assoc.
    rewrite scan_tokens by (done || lia). cbn [app]. rewrite scan_close.
    simpl Z.eqb. cbv iota. f_equal. lia. }
  unfold _find_json_array.
  assert (Hfind : find_char (ch "[") (before ++ render (TNested inner) ++ after)
                  = Some (length before)).
  { cbn [render app]. by apply find_char_first. }
  rewrite Hfind, drop_app_length, Hscan. f_equal.
  replace (length before + S (length (concat (render <$> inner))) + 1)%nat
    with (length before + length (render (TNested inner)))%nat.
  2:{ cbn [render length]. rewrite length_app. simpl. lia. }
  apply slice_middle.
Qed.

Lemma find_json_array_matching_bracket_witness :
  _find_json_array (pyq "Note: see [ 'a]b', 'c' ] end") = Some (pyq "[ 'a]b', 'c' ]")
  /\ json_loads (pyq "[ 'a]b', 'c' ]") = Ok (JArray [JString (py "a]b"); JString (py "c")]).
Proof.
  split; [|vm_compute; reflexivity].
  apply (find_json_array_matching_bracket (py "Note: see ") (py " end")
           [TPlain 32;
            TLiteral [LChar (ch "a"); LChar (ch "]"); LChar (ch "b")];
            TPlain (ch ","); TPlain 32;
            TLiteral [LChar (ch "c")];
            TPlain 32]).
  - vm_compute. reflexivity.
  - repeat constructor; vm_compute; discriminate.
Defined.

(** ** Element identifiers *)

Section Identifiers.

Lemma digits_app_inj (d1 d2 x y : str) :
  all_digits d1 -> all_digits d2 -> stops x -> stops y ->
  d1 ++ x = d2 ++ y -> d1 = d2 /\ x = y.
Proof.
  intros H1. revert d2. induction H1 as [|c d1 Hc _ IH]; intros d2 H2 Hx Hy E.
  - destruct H2 as [|c' d2 Hc' _]; [done|].
    simpl in E. subst x. simpl in Hx. congruence.
  - destruct H2 as [|c' d2 Hc' H2].
    + simpl in E. subst y. simpl in Hy. congruence.
    + simpl in E. injection E as -> E.
      destruct (IH d2 H2 Hx Hy E) as [-> ->]. done.
Qed.

Lemma string_of_uint_digits (d : Decimal.uint) :
  all_digits (py (NilEmpty.string_of_uint d)).
Proof.
  induction d; cbn [NilEmpty.string_of_uint py list_ascii_of_string map];
    try (constructor; [reflexivity|assumption]).
  constructor.
Qed.

Lemma str_of_nat_digits (n : nat) : all_digits (str_of_nat n).
Proof. apply string_of_uint_digits. Qed.

Lemma ch_inj (a b : ascii) : ch a = ch b -> a = b.
Proof.
  unfold ch. intros E. apply (f_equal ascii_of_N) in E.
  by rewrite !ascii_N_embedding in E.
Qed.

Lemma py_inj (s t : string) : py s = py t -> s = t.
Proof.
  unfold py. intros E.
  assert (E' : list_ascii_of_string s = list_ascii_of_string t).
  { revert E. generalize (list_ascii_of_string s) (list_ascii_of_string t).
    intros l1. induction l1 as [|a l1 IH]; intros [|b l2]; simpl; try done.
    intros [= E1 E2]. f_equal; [by apply ch_inj|by apply IH]. }
  apply (f_equal string_of_list_ascii) in E'.
  by rewrite !string_of_list_ascii_of_string in E'.
Qed.

Lemma str_of_nat_inj (m n : nat) : str_of_nat m = str_of_nat n -> m = n.
Proof.
  unfold str_of_nat. intros E%py_inj.
  apply (f_equal NilEmpty.uint_of_string) in E.
  rewrite !NilEmpty.usu in E. injection E as E.
  apply (f_equal Nat.of_uint) in E. by rewrite !Unsigned.of_to in E.
Qed.

(** A number followed by text that does not go on with a digit can be read
    back. *)
Lemma number_then_inj (m n : nat) (x y : str) :
  stops x -> stops y ->
  str_of_nat m ++ x = str_of_nat n ++ y -> m = n /\ x = y.
Proof.
  intros Hx Hy E.
  destruct (digits_app_inj _ _ _ _ (str_of_nat_digits m) (str_of_nat_digits n) Hx Hy E)
    as [Ed ->].
  split; [by apply str_of_nat_inj|done].
Qed.

Lemma number_end_inj (m n : nat) : str_of_nat m = str_of_nat n -> m = n.
Proof. apply str_of_nat_inj. Qed.

End Identifiers.

Arguments str_of_nat : simpl never.

(** Peels the literal parts and the numbers off an equation between two
    identifiers: equal schemes give equal numbers, different schemes a
    contradiction. *)
Ltac split_id E :=
  repeat first
    [ progress (cbn in E; simplify_eq)
    | match type of E with
      | str_of_nat ?m ++ _ = str_of_nat ?n ++ _ =>
          let Hm := fresh "Hm" in
          apply number_then_inj in E as [Hm E]; [| exact eq_refl | exact eq_refl]
      | str_of_nat ?m = str_of_nat ?n => apply str_of_nat_inj in E
      end ].

(** ** Extraction loops *)

Section Loops.
Context {A B : Type}.

Lemma for_each_cons (a : A) (l : list A) (body : nat -> A -> list B) :
  for_each (a :: l) body = body 0%nat a ++ for_each l (fun i => body (S i)).
Proof. reflexivity. Qed.

Lemma elem_of_for_each (l : list A) (body : nat -> A -> list B) (x : B) :
  x ∈ for_each l body <-> exists i a, l !! i = Some a /\ x ∈ body i a.
Proof.
  revert body. induction l as [|a l IH]; intros body.
  - unfold for_each. simpl. split.
    + intros Hx. by apply elem_of_nil in Hx.
    + intros (i & a & Hl & _). done.
  - rewrite for_each_cons, elem_of_app, IH. split.
    + intros [Hx|(i & a' & Hl & Hx)].
      * by exists 0%nat, a.
      * by exists (S i), a'.
    + intros ([|i] & a' & Hl & Hx).
      * simpl in Hl. injection Hl as <-. by left.
      * right. by exists i, a'.
Qed.

Lemma for_each_fmap {C} (h : C -> A) (l : list C) (body : nat -> A -> list B) :
  for_each (h <$> l) body = for_each l (fun i c => body i (h c)).
Proof.
  revert body. induction l as [|c l IH]; intros body; [done|].
  rewrite fmap_cons, !for_each_cons. by rewrite IH.
Qed.

Lemma for_each_imap {C} (h : nat -> C -> A) (l : list C) (body : nat -> A -> list B) :
  for_each (imap h l) body = for_each l (fun i c => body i (h i c)).
Proof.
  revert h body. induction l as [|c l IH]; intros h body; [done|].
  cbn [imap]. rewrite !for_each_cons. by rewrite IH.
Qed.

Lemma concat_fmap_for_each (f : A -> list B) (l : list A) :
  concat (f <$> l) = for_each l (fun _ a => f a).
Proof.
  induction l as [|a l IH]; [done|].
  rewrite fmap_cons, for_each_cons. simpl. by rewrite IH.
Qed.

Lemma for_each_ext (l : list A) (body body' : nat -> A -> list B) :
  (forall i a, l !! i = Some a -> body i a = body' i a) ->
  for_each l body = for_each l body'.
Proof.
  revert body body'. induction l as [|a l IH]; intros body body' Hext; [done|].
  rewrite !for_each_cons. f_equal.
  - by apply Hext.
  - apply IH. intros i a' Hl. by apply Hext.
Qed.

End Loops.

(** Identifiers of a loop are pairwise distinct when each round yields
    distinct ones and an identifier tells the round it comes from. *)
Lemma for_each_ids_NoDup {A} (l : list A) (body : nat -> A -> list TextElement)
    (from_round : nat -> str -> Prop) :
  (forall i a, l !! i = Some a -> NoDup (element_id <$> body i a)) ->
  (forall i a e, l !! i = Some a -> e ∈ body i a -> from_round i (element_id e)) ->
  (forall i j x, from_round i x -> from_round j x -> i = j) ->
  NoDup (element_id <$> for_each l body).
Proof.
  revert body from_round. induction l as [|a l IH]; intros body from_round Hnd Hfrom Hfun.
  - constructor.
  - rewrite for_each_cons, fmap_app. apply NoDup_app. split; [|split].
    + by apply (Hnd 0%nat).
    + intros x (e & -> & He)%list_elem_of_fmap (e' & Ex & He')%list_elem_of_fmap.
      apply elem_of_for_each in He' as (i & a' & Hl & He').
      assert (0%nat = S i); [|done].
      apply (Hfun _ _ (element_id e)).
      * by apply (Hfrom 0%nat a).
      * rewrite Ex. by apply (Hfrom (S i) a').
    + apply (IH _ (fun i => from_round (S i))).
      * intros i a' Hl. by apply (Hnd (S i)).
      * intros i a' e Hl He. by apply (Hfrom (S i) a').
      * intros i j x Hi Hj. by injection (Hfun _ _ _ Hi Hj).
Qed.

Lemma emit_ids_NoDup (id raw : str) : NoDup (element_id <$> emit id raw).
Proof.
  unfold emit. destruct (strip raw); simpl.
  - constructor.
  - apply NoDup_singleton.
Qed.

Lemma emit_id (id raw : str) (e : TextElement) : e ∈ emit id raw -> element_id e = id.
Proof. by intros (? & _)%emit_spec. Qed.

(** ** Presentations *)

Section PowerPointExtraction.
Import PowerPoint.

Lemma ppt_paragraph_id_inj (s sh p s' sh' p' : nat) :
  _paragraph_id s sh p = _paragraph_id s' sh' p' -> s = s' /\ sh = sh' /\ p = p'.
Proof. unfold _paragraph_id. intros E. split_id E. done. Qed.

Lemma ppt_cell_id_inj (s sh r c s' sh' r' c' : nat) :
  _cell_id s sh r c = _cell_id s' sh' r' c' -> s = s' /\ sh = sh' /\ r = r' /\ c = c'.
Proof. unfold _cell_id. intros E. split_id E. done. Qed.

Lemma ppt_paragraph_cell_ne (s sh p s' sh' r' c' : nat) :
  _paragraph_id s sh p <> _cell_id s' sh' r' c'.
Proof. unfold _paragraph_id, _cell_id. intros E. split_id E. Qed.


Lemma ppt_shape_ids (si shi : nat) (shape : Shape) (e : TextElement) :
  e ∈ _extract_from_shape si shi shape ->
  (exists k, element_id e = _paragraph_id si shi k)
  \/ (exists r c, element_id e = _cell_id si shi r c).
Proof.
  unfold _extract_from_shape. intros [He|He]%elem_of_app.
  - left. destruct (text_frame shape) as [paragraphs|]; [|by apply elem_of_nil in He].
    apply elem_of_for_each in He as (k & p & _ & He). exists k. by apply emit_id in He.
  - right. destruct (table shape) as [rows|]; [|by apply elem_of_nil in He].
    apply elem_of_for_each in He as (r & row & _ & He).
    apply elem_of_for_each in He as (c & cell & _ & He).
    exists r, c. by apply emit_id in He.
Qed.

Lemma ppt_shape_NoDup (si shi : nat) (shape : Shape) :
  NoDup (element_id <$> _extract_from_shape si shi shape).
Proof.
  unfold _extract_from_shape. rewrite fmap_app. apply NoDup_app. split; [|split].
  - destruct (text_frame shape) as [paragraphs|]; [|constructor].
    apply (for_each_ids_NoDup _ _ (fun k x => x = _paragraph_id si shi k)).
    + intros. apply emit_ids_NoDup.
    + intros k p e _ He. by apply emit_id in He.
    + intros i j x -> E. by apply ppt_paragraph_id_inj in E as (_ & _ & ?).
  - intros x (e & -> & He)%list_elem_of_fmap (e' & Ex & He')%list_elem_of_fmap.
    destruct (text_frame shape) as [paragraphs|]; [|by apply elem_of_nil in He].
    destruct (table shape) as [rows|]; [|by apply elem_of_nil in He'].
    apply elem_of_for_each in He as (k & p & _ & He). apply emit_id in He.
    apply elem_of_for_each in He' as (r & row & _ & He').
    apply elem_of_for_each in He' as (c & cell & _ & He'). apply emit_id in He'.
    rewrite He, He' in Ex. by apply ppt_paragraph_cell_ne in Ex.
  - destruct (table shape) as [rows|]; [|constructor].
    apply (for_each_ids_NoDup _ _ (fun r x => exists c, x = _cell_id si shi r c)).
    + intros r row _.
      apply (for_each_ids_NoDup _ _ (fun c x => x = _cell_id si shi r c)).
      * intros. apply emit_ids_NoDup.
      * intros c cell e _ He. by apply emit_id in He.
      * intros i j x -> E. by apply ppt_cell_id_inj in E as (_ & _ & _ & ?).
    + intros r row e _ He. apply elem_of_for_each in He as (c & cell & _ & He).
      exists c. by apply emit_id in He.
    + intros i j x [c ->] [c' E]. by apply ppt_cell_id_inj in E as (_ & _ & ? & _).
Qed.

Lemma ppt_extract_NoDup (presentation : Presentation) :
  NoDup (element_id <$> PowerPoint.extract_text presentation).
Proof.
  unfold PowerPoint.extract_text.
  apply (for_each_ids_NoDup _ _
           (fun si x => exists shi, (exists k, x = _paragraph_id si shi k)
                                    \/ (exists r c, x = _cell_id si shi r c))).
  - intros si slide _.
    apply (for_each_ids_NoDup _ _
             (fun shi x => (exists k, x = _paragraph_id si shi k)
                           \/ (exists r c, x = _cell_id si shi r c))).
    + intros. apply ppt_shape_NoDup.
    + intros shi shape e _ He. by eapply ppt_shape_ids.
    + intros i j x [[k ->]|(r & c & ->)] [[k' E]|(r' & c' & E)].
      * by apply ppt_paragraph_id_inj in E as (_ & ? & _).
      * by apply ppt_paragraph_cell_ne in E.
      * symmetry in E. by apply ppt_paragraph_cell_ne in E.
      * by apply ppt_cell_id_inj in E as (_ & ? & _).
  - intros si slide e _ He. apply elem_of_for_each in He as (shi & shape & _ & He).
    exists shi. by eapply ppt_shape_ids.
  - intros i j x [shi [[k ->]|(r & c & ->)]] [shi' [[k' E]|(r' & c' & E)]].
    + by apply ppt_paragraph_id_inj in E as (? & _).
    + by apply ppt_paragraph_cell_ne in E.
    + symmetry in E. by apply ppt_paragraph_cell_ne in E.
    + by apply ppt_cell_id_inj in E as (? & _).
Qed.

Lemma ppt_extract_trimmed (presentation : Presentation) (e : TextElement) :
  e ∈ PowerPoint.extract_text presentation -> trimmed_nonempty (text e).
Proof.
  unfold PowerPoint.extract_text. intros He.
  apply elem_of_for_each in He as (si & slide & _ & He).
  apply elem_of_for_each in He as (shi & shape & _ & He).
  unfold _extract_from_shape in He. apply elem_of_app in He as [He|He].
  - destruct (text_frame shape); [|by apply elem_of_nil in He].
    apply elem_of_for_each in He as (k & p & _ & He). by apply emit_trimmed in He.
  - destruct (table shape); [|by apply elem_of_nil in He].
    apply elem_of_for_each in He as (r & row & _ & He).
    apply elem_of_for_each in He as (c & cell & _ & He). by apply emit_trimmed in He.
Qed.

End PowerPointExtraction.

(** ** Word documents *)

Section WordExtraction.
Import Word.

Lemma doc_paragraph_id_inj (p p' : nat) : _paragraph_id p = _paragraph_id p' -> p = p'.
Proof. unfold _paragraph_id. intros E. split_id E. done. Qed.

Lemma doc_cell_id_inj (t r c t' r' c' : nat) :
  _cell_id t r c = _cell_id t' r' c' -> t = t' /\ r = r' /\ c = c'.
Proof. unfold _cell_id. intros E. split_id E. done. Qed.

Lemma doc_paragraph_cell_ne (p t r c : nat) : _paragraph_id p <> _cell_id t r c.
Proof. unfold _paragraph_id, _cell_id. intros E. split_id E. Qed.

Lemma elem_of_placed (cells : list Cell) (place : nat) (id : str) (e : TextElement) :
  e ∈ match cells !! place with
      | Some cell => emit id (cell_text cell)
      | None => []
      end
  <-> exists cell, cells !! place = Some cell /\ e ∈ emit id (cell_text cell).
Proof.
  destruct (cells !! place) as [cell|].
  - split; [eauto|]. by intros (cell' & [= <-] & He).
  - split; [by intros ?%elem_of_nil|]. by intros (cell' & [=] & _).
Qed.

Lemma doc_extract_NoDup (document : Document) :
  NoDup (element_id <$> Word.extract_text document).
Proof.
  unfold Word.extract_text. rewrite fmap_app. apply NoDup_app. split; [|split].
  - apply (for_each_ids_NoDup _ _ (fun k x => x = _paragraph_id k)).
    + intros. apply emit_ids_NoDup.
    + intros k p e _ He. by apply emit_id in He.
    + intros i j x -> E. by apply doc_paragraph_id_inj in E.
  - intros x (e & -> & He)%list_elem_of_fmap (e' & Ex & He')%list_elem_of_fmap.
    apply elem_of_for_each in He as (k & p & _ & He). apply emit_id in He.
    apply elem_of_for_each in He' as (t & table & _ & He').
    apply elem_of_for_each in He' as (r & row & _ & He').
    apply elem_of_for_each in He' as (c & place & _ & He').
    apply elem_of_placed in He' as (cell & _ & He'). apply emit_id in He'.
    rewrite He, He' in Ex. by apply doc_paragraph_cell_ne in Ex.
  - apply (for_each_ids_NoDup _ _ (fun t x => exists r c, x = _cell_id t r c)).
    + intros t table _.
      apply (for_each_ids_NoDup _ _ (fun r x => exists c, x = _cell_id t r c)).
      * intros r row _.
        apply (for_each_ids_NoDup _ _ (fun c x => x = _cell_id t r c)).
        -- intros c place _. destruct (table_cells table !! place);
             [apply emit_ids_NoDup|apply NoDup_nil_2].
        -- intros c place e _ (cell & _ & He)%elem_of_placed. by apply emit_id in He.
        -- intros i j x -> E. by apply doc_cell_id_inj in E as (_ & _ & ?).
      * intros r row e _ He. apply elem_of_for_each in He as (c & place & _ & He).
        apply elem_of_placed in He as (cell & _ & He).
        exists c. by apply emit_id in He.
      * intros i j x [c ->] [c' E]. by apply doc_cell_id_inj in E as (_ & ? & _).
    + intros t table e _ He.
      apply elem_of_for_each in He as (r & row & _ & He).
      apply elem_of_for_each in He as (c & place & _ & He).
      apply elem_of_placed in He as (cell & _ & He).
      exists r, c. by apply emit_id in He.
    + intros i j x (r & c & ->) (r' & c' & E).
      by apply doc_cell_id_inj in E as (? & _).
Qed.

Lemma doc_extract_trimmed (document : Document) (e : TextElement) :
  e ∈ Word.extract_text document -> trimmed_nonempty (text e).
Proof.
  unfold Word.extract_text. intros [He|He]%elem_of_app.
  - apply elem_of_for_each in He as (k & p & _ & He). by apply emit_trimmed in He.
  - apply elem_of_for_each in He as (t & table & _ & He).
    apply elem_of_for_each in He as (r & row & _ & He).
    apply elem_of_for_each in He as (c & place & _ & He).
    apply elem_of_placed in He as (cell & _ & He). by apply emit_trimmed in He.
Qed.

End WordExtraction.

(** ** Workbooks *)

Section ExcelExtraction.
Import Excel.

Lemma xls_cell_id_inj (s r c s' r' c' : nat) :
  _cell_id s r c = _cell_id s' r' c' -> s = s' /\ r = r' /\ c = c'.
Proof. unfold _cell_id. intros E. split_id E. done. Qed.

(** The extraction as one loop over the stored grid. *)
Lemma xls_extract_text_eq (file : File) :
  Excel.extract_text file
  = for_each file (fun sheet_index sheet =>
      for_each sheet (fun r cells =>
        for_each cells (fun c cell =>
          extract_cell sheet_index (load_cell true r c cell)))).
Proof.
  unfold Excel.extract_text, load_workbook. rewrite for_each_fmap.
  apply for_each_ext. intros si sheet _.
  rewrite concat_fmap_for_each, for_each_imap.
  apply for_each_ext. intros r cells _.
  by rewrite concat_fmap_for_each, for_each_imap.
Qed.

Lemma extract_cell_id (si r c : nat) (cell : StoredCell) (e : TextElement) :
  e ∈ extract_cell si (load_cell true r c cell) ->
  element_id e = _cell_id si (S r) (S c).
Proof.
  unfold extract_cell. cbn [load_cell value_of row column].
  destruct (stored_content cell) as [[]|? []|];
    try (intros Hn; by apply elem_of_nil in Hn); apply emit_id.
Qed.

Lemma extract_cell_NoDup (si : nat) (cell : Cell) :
  NoDup (element_id <$> extract_cell si cell).
Proof.
  unfold extract_cell. destruct (value_of cell); try constructor. apply emit_ids_NoDup.
Qed.

Lemma xls_extract_NoDup (file : File) :
  NoDup (element_id <$> Excel.extract_text file).
Proof.
  rewrite xls_extract_text_eq.
  apply (for_each_ids_NoDup _ _ (fun s x => exists r c, x = _cell_id s r c)).
  - intros s sheet _.
    apply (for_each_ids_NoDup _ _ (fun r x => exists c, x = _cell_id s (S r) c)).
    + intros r cells _.
      apply (for_each_ids_NoDup _ _ (fun c x => x = _cell_id s (S r) (S c))).
      * intros. apply extract_cell_NoDup.
      * intros c cell e _ He. by apply extract_cell_id in He.
      * intros i j x -> E. apply xls_cell_id_inj in E as (_ & _ & ?). lia.
    + intros r cells e _ He. apply elem_of_for_each in He as (c & cell & _ & He).
      exists (S c). by apply extract_cell_id in He.
    + intros i j x [c ->] [c' E]. apply xls_cell_id_inj in E as (_ & ? & _). lia.
  - intros s sheet e _ He.
    apply elem_of_for_each in He as (r & cells & _ & He).
    apply elem_of_for_each in He as (c & cell & _ & He).
    exists (S r), (S c). by apply extract_cell_id in He.
  - intros i j x (r & c & ->) (r' & c' & E). by apply xls_cell_id_inj in E as (? & _).
Qed.

(** An element is emitted exactly for a cell whose data-only value is a
    string that is not blank. *)
Lemma xls_extract_elem (file : File) (e : TextElement) :
  e ∈ Excel.extract_text file <->
  exists sheet_index r c cell s,
    stored_cell_at file sheet_index r c = Some cell
    /\ data_only_value cell = VString s
    /\ strip s <> []
    /\ e = {| element_id := _cell_id sheet_index (S r) (S c); text := strip s |}.
Proof.
  rewrite xls_extract_text_eq. split.
  - intros He.
    apply elem_of_for_each in He as (si & sheet & Hs & He).
    apply elem_of_for_each in He as (r & cells & Hr & He).
    apply elem_of_for_each in He as (c & cell & Hc & He).
    unfold extract_cell in He. cbn [load_cell value_of row column] in He.
    assert (Hv : exists s, data_only_value cell = VString s
                           /\ e ∈ emit (_cell_id si (S r) (S c)) s).
    { unfold data_only_value.
      destruct (stored_content cell) as [[]|? []|];
        try (by apply elem_of_nil in He); eauto. }
    destruct Hv as (s & Hv & Hemit).
    exists si, r, c, cell, s. unfold stored_cell_at. rewrite Hs, Hr.
    apply emit_spec in Hemit as (Hid & Ht & Hne).
    repeat split; try done. destruct e; simpl in *. by subst.
  - intros (si & r & c & cell & s & Hat & Hv & Hne & ->).
    unfold stored_cell_at in Hat.
    destruct (file !! si) as [sheet|] eqn:Hs; [|done].
    destruct (sheet !! r) as [cells|] eqn:Hr; [|done].
    apply elem_of_for_each. exists si, sheet. split; [done|].
    apply elem_of_for_each. exists r, cells. split; [done|].
    apply elem_of_for_each. exists c, cell. split; [done|].
    unfold extract_cell. cbn [load_cell value_of row column].
    assert (match stored_content cell with
            | Constant v => v
            | Formula _ cached => cached
            | Merged => VNone
            end = VString s) as -> by exact Hv.
    unfold emit. destruct (strip s) as [|x t]; [done|]. apply list_elem_of_singleton. done.
Qed.

Lemma xls_extract_trimmed (file : File) (e : TextElement) :
  e ∈ Excel.extract_text file -> trimmed_nonempty (text e).
Proof.
  intros (si & r & c & cell & s & _ & _ & Hne & ->)%xls_extract_elem.
  split; [done|apply strip_idem].
Qed.

End ExcelExtraction.

(** Every element comes from a location: its identifier names the location
    and its text is the stripped raw text, which is not empty. *)
Lemma extract_text_location (handler : DocumentHandler) (e : TextElement) :
  e ∈ extract_text handler ->
  exists raw, location_text handler (element_id e) raw
              /\ text e = strip raw /\ strip raw <> [].
Proof.
  destruct handler as [presentation|document|file]; cbn [extract_text].
  - unfold PowerPoint.extract_text. intros He.
    apply elem_of_for_each in He as (si & slide & Hsi & He).
    apply elem_of_for_each in He as (shi & shape & Hshi & He).
    unfold PowerPoint._extract_from_shape in He. apply elem_of_app in He as [He|He].
    + destruct (PowerPoint.text_frame shape) as [ps|] eqn:Etf; [|by apply elem_of_nil in He].
      apply elem_of_for_each in He as (k & p & Hk & He).
      apply emit_spec in He as (-> & Ht & Hne).
      exists (PowerPoint.paragraph_text p). split; [|done].
      constructor. unfold ppt_paragraph_at, ppt_shape_at. by rewrite Hsi, Hshi, Etf.
    + destruct (PowerPoint.table shape) as [rows|] eqn:Etb; [|by apply elem_of_nil in He].
      apply elem_of_for_each in He as (r & row & Hr & He).
      apply elem_of_for_each in He as (c & cell & Hc & He).
      apply emit_spec in He as (-> & Ht & Hne).
      exists (PowerPoint.cell_text cell). split; [|done].
      constructor. unfold ppt_cell_at, ppt_shape_at. by rewrite Hsi, Hshi, Etb, Hr.
  - unfold Word.extract_text. intros [He|He]%elem_of_app.
    + apply elem_of_for_each in He as (k & p & Hk & He).
      apply emit_spec in He as (-> & Ht & Hne).
      exists (Word.paragraph_text p). split; [|done]. by constructor.
    + apply elem_of_for_each in He as (t & table & Ht & He).
      apply elem_of_for_each in He as (r & row & Hr & He).
      apply elem_of_for_each in He as (c & place & Hc & He).
      apply elem_of_placed in He as (cell & Hcell & He).
      apply emit_spec in He as (-> & Hx & Hne).
      exists (Word.cell_text cell). split; [|done].
      constructor. unfold doc_cell_at, doc_cell_place. by rewrite Ht, Hr, Hc.
  - intros (si & r & c & cell & s & Hat & Hv & Hne & ->)%xls_extract_elem.
    exists s. split; [|done]. by eapply xls_cell_text.
Qed.

(** An identifier names one location. *)
Lemma location_text_functional (handler : DocumentHandler) (id raw raw' : str) :
  location_text handler id raw -> location_text handler id raw' -> raw = raw'.
Proof.
  intros H1 H2. destruct H1;
    match type of H2 with
    | location_text ?h ?i _ =>
        remember h as h' eqn:Eh; remember i as i' eqn:Ei;
        destruct H2; try discriminate Eh; injection Eh as <-
    end.
  - apply ppt_paragraph_id_inj in Ei as (-> & -> & ->). congruence.
  - symmetry in Ei. by apply ppt_paragraph_cell_ne in Ei.
  - by apply ppt_paragraph_cell_ne in Ei.
  - apply ppt_cell_id_inj in Ei as (-> & -> & -> & ->). congruence.
  - apply doc_paragraph_id_inj in Ei as ->. congruence.
  - symmetry in Ei. by apply doc_paragraph_cell_ne in Ei.
  - by apply doc_paragraph_cell_ne in Ei.
  - apply doc_cell_id_inj in Ei as (-> & -> & ->). congruence.
  - apply xls_cell_id_inj in Ei as (-> & Hr & Hc).
    injection Hr as ->. injection Hc as ->. congruence.
Qed.

(** C9. One [extract_text] call, on any of the three handlers, returns
    elements whose identifiers are pairwise distinct and whose texts are
    trimmed and not empty; no element is returned for a location whose text
    is empty or only whitespace. *)
Theorem extract_text_ids_distinct_texts_trimmed (handler : DocumentHandler) :
  NoDup (element_id <$> extract_text handler)
  /\ Forall (fun e => trimmed_nonempty (text e)) (extract_text handler)
  /\ (forall id raw,
        location_text handler id raw -> strip raw = [] ->
        id ∉ element_id <$> extract_text handler).
Proof.
  split; [|split].
  - destruct handler as [presentation|document|workbook]; cbn [extract_text].
    + apply ppt_extract_NoDup.
    + apply doc_extract_NoDup.
    + apply xls_extract_NoDup.
  - apply Forall_forall. intros e He.
    destruct handler as [presentation|document|workbook]; cbn [extract_text] in He.
    + by apply ppt_extract_trimmed in He.
    + by apply doc_extract_trimmed in He.
    + by apply xls_extract_trimmed in He.
  - intros id raw Hloc Hblank (e & -> & He)%list_elem_of_fmap.
    apply extract_text_location in He as (raw' & Hloc' & _ & Hne).
    by rewrite (location_text_functional _ _ _ _ Hloc' Hloc) in Hne.
Qed.

Lemma extract_text_ids_distinct_texts_trimmed_witness :
  NoDup (element_id <$> extract_text (PowerPointHandler blank_presentation))
  /\ Forall (fun e => trimmed_nonempty (text e))
       (extract_text (PowerPointHandler blank_presentation))
  /\ py "ppt_s0_sh0_p1" ∉ element_id <$> extract_text (PowerPointHandler blank_presentation).
Proof.
  destruct (extract_text_ids_distinct_texts_trimmed (PowerPointHandler blank_presentation))
    as (Hids & Htexts & Hblank).
  refine (conj Hids (conj Htexts _)).
  apply (Hblank (PowerPoint._paragraph_id 0 0 1)
           (PowerPoint.paragraph_text (plain_paragraph (py "  ")))).
  - by apply (ppt_paragraph_text blank_presentation 0 0 1)%nat.
  - vm_compute. reflexivity.
Defined.

(** C7, as stated, fails on a formula cell whose cached result is a string:
    loaded with [data_only=True] the cell reports that string, and an
    element is emitted for it. *)
Lemma formula_cell_is_emitted :
  Excel.extract_text formula_file
  = [ {| element_id := py "xls_s0_r1_c2"; text := py "Total" |} ]
  /\ ~ emitted_only_for_string_cells formula_file.
Proof.
  assert (E : Excel.extract_text formula_file
              = [ {| element_id := py "xls_s0_r1_c2"; text := py "Total" |} ])
    by (vm_compute; reflexivity).
  split; [exact E|].
  intros Hclaim.
  destruct (Hclaim {| element_id := py "xls_s0_r1_c2"; text := py "Total" |})
    as (si & r & c & cell & s & Hat & Hid & Hcontent).
  { rewrite E. apply list_elem_of_singleton. done. }
  cbn [element_id] in Hid.
  change (py "xls_s0_r1_c2") with (Excel._cell_id 0 1 2) in Hid.
  apply xls_cell_id_inj in Hid as (<- & Hr & Hc).
  injection Hr as <-. injection Hc as <-.
  vm_compute in Hat. injection Hat as <-. discriminate.
Qed.

(** C7, amended. The spreadsheet handler emits an element only for a cell
    whose value, as loaded with [data_only=True], is a string: a constant
    string, or a formula whose cached result is a string.  A cell holding
    a number or a boolean, and a formula with any other cached result, is
    never emitted. *)
Theorem excel_emits_only_data_only_strings (file : Excel.File) (e : TextElement) :
  e ∈ Excel.extract_text file ->
  exists sheet_index r c cell s,
    stored_cell_at file sheet_index r c = Some cell
    /\ element_id e = Excel._cell_id sheet_index (S r) (S c)
    /\ text e = strip s
    /\ (Excel.stored_content cell = Excel.Constant (Excel.VString s)
        \/ exists source, Excel.stored_content cell = Excel.Formula source (Excel.VString s)).
Proof.
  intros (si & r & c & cell & s & Hat & Hv & _ & ->)%xls_extract_elem.
  exists si, r, c, cell, s. repeat split; try done.
  unfold data_only_value in Hv.
  destruct (Excel.stored_content cell) as [v|source cached|]; subst; eauto.
  discriminate.
Qed.

Lemma excel_emits_only_data_only_strings_witness :
  exists sheet_index r c cell s,
    stored_cell_at formula_file sheet_index r c = Some cell
    /\ py "xls_s0_r1_c2" = Excel._cell_id sheet_index (S r) (S c)
    /\ py "Total" = strip s
    /\ (Excel.stored_content cell = Excel.Constant (Excel.VString s)
        \/ exists source, Excel.stored_content cell = Excel.Formula source (Excel.VString s)).
Proof.
  apply (excel_emits_only_data_only_strings formula_file
           {| element_id := py "xls_s0_r1_c2"; text := py "Total" |}).
  vm_compute. apply list_elem_of_singleton. reflexivity.
Defined.

(** ** Reinsertion *)

(** *** Loops that rewrite in place *)

Section RewritingLoops.
Context {A : Type}.

Lemma rewrite_from_lookup (body : nat -> A -> result A) (l : list A) :
  forall index l',
    rewrite_from body index l = Ok l' ->
    forall i,
      match l !! i with
      | Some a => exists a', body (index + i)%nat a = Ok a' /\ l' !! i = Some a'
      | None => l' !! i = None
      end.
Proof.
  induction l as [|a l IH]; intros index l' E i; cbn [rewrite_from] in E.
  - injection E as <-. done.
  - destruct (body index a) as [a'|] eqn:Ea; cbn [bind] in E; [|done].
    destruct (rewrite_from body (S index) l) as [rest'|] eqn:Er; cbn [bind] in E; [|done].
    injection E as <-. destruct i as [|i]; cbn [lookup list_lookup].
    + exists a'. by rewrite Nat.add_0_r.
    + specialize (IH _ _ Er i). by rewrite Nat.add_succ_r.
Qed.

Lemma rewrite_each_lookup (body : nat -> A -> result A) (l l' : list A) (i : nat) :
  rewrite_each l body = Ok l' ->
  match l !! i with
  | Some a => exists a', body i a = Ok a' /\ l' !! i = Some a'
  | None => l' !! i = None
  end.
Proof. intros E. apply (rewrite_from_lookup body l 0 l' E i). Qed.

Lemma update_from_invariant {T : Type} (P : nat -> T -> Prop)
    (body : nat -> A -> T -> result T) (l : list A) :
  forall index state state',
    update_from body index l state = Ok state' ->
    P index state ->
    (forall i a s s',
       l !! i = Some a -> P (index + i)%nat s -> body (index + i)%nat a s = Ok s' ->
       P (S (index + i)) s') ->
    P (index + length l)%nat state'.
Proof.
  induction l as [|a l IH]; intros index state state' E HP Hstep; cbn [update_from] in E.
  - injection E as <-. by rewrite Nat.add_0_r.
  - destruct (body index a state) as [s1|] eqn:Ea; cbn [bind] in E; [|done].
    cbn [length]. rewrite Nat.add_succ_r, <- Nat.add_succ_l.
    apply (IH _ _ _ E).
    + specialize (Hstep 0%nat a state s1). rewrite Nat.add_0_r in Hstep. by apply Hstep.
    + intros i a' s s' Hl. rewrite Nat.add_succ_l, <- Nat.add_succ_r.
      by apply (Hstep (S i)).
Qed.

Lemma update_each_invariant {T : Type} (P : nat -> T -> Prop)
    (body : nat -> A -> T -> result T) (l : list A) (state state' : T) :
  update_each l state body = Ok state' ->
  P 0%nat state ->
  (forall i a s s', l !! i = Some a -> P i s -> body i a s = Ok s' -> P (S i) s') ->
  P (length l) state'.
Proof.
  intros E HP Hstep. by apply (update_from_invariant P body l 0 state state').
Qed.

End RewritingLoops.

(** The loops complete when every round does. *)
Section CompletingLoops.
Context {A : Type}.

Lemma rewrite_from_completes (body : nat -> A -> result A) (l : list A) :
  forall index,
    (forall i a, l !! i = Some a -> exists a', body (index + i)%nat a = Ok a') ->
    exists l', rewrite_from body index l = Ok l'.
Proof.
  induction l as [|a l IH]; intros index Hbody; cbn [rewrite_from]; [by eexists|].
  destruct (Hbody 0%nat a eq_refl) as [a' Ea]. rewrite Nat.add_0_r in Ea.
  rewrite Ea. cbn [bind].
  destruct (IH (S index)) as [rest' ->]; [|by eexists].
  intros i b Hi. specialize (Hbody (S i) b Hi). by rewrite Nat.add_succ_r in Hbody.
Qed.

Lemma rewrite_each_completes (body : nat -> A -> result A) (l : list A) :
  (forall i a, l !! i = Some a -> exists a', body i a = Ok a') ->
  exists l', rewrite_each l body = Ok l'.
Proof. intros Hbody. by apply rewrite_from_completes. Qed.

Lemma update_from_completes {T : Type} (body : nat -> A -> T -> result T) (l : list A) :
  forall index state,
    (forall i a s, exists s', body i a s = Ok s') ->
    exists state', update_from body index l state = Ok state'.
Proof.
  induction l as [|a l IH]; intros index state Hbody; cbn [update_from]; [by eexists|].
  destruct (Hbody index a state) as [s' ->]. cbn [bind]. by apply IH.
Qed.

End CompletingLoops.

Section Reinsertion.
Context `{OfficeLibraries}.
Variable translations : gmap str str.
Variable font_name : option str.

Lemma rewritten_none {A : Type} (id : str) (replace : A -> str -> result A)
    (before after : option A) :
  translations !! id = None -> rewritten translations id replace before after ->
  after = before.
Proof. unfold rewritten. by intros ->. Qed.

Lemma rewritten_some {A : Type} (id translated : str) (replace : A -> str -> result A)
    (a : A) (after : option A) :
  translations !! id = Some translated ->
  rewritten translations id replace (Some a) after ->
  exists a', replace a translated = Ok a' /\ after = Some a'.
Proof. unfold rewritten. by intros ->. Qed.

(** A loop that rewrites the locations named by a key. *)
Lemma rewrite_each_rewritten {A : Type} (id : nat -> str) (replace : A -> str -> result A)
    (l l' : list A) (i : nat) :
  rewrite_each l (fun index a =>
                    match translations !! id index with
                    | Some translated => replace a translated
                    | None => Ok a
                    end) = Ok l' ->
  rewritten translations (id i) replace (l !! i) (l' !! i).
Proof.
  intros E. pose proof (rewrite_each_lookup _ _ _ i E) as Hi. unfold rewritten.
  destruct (l !! i) as [a|].
  - destruct Hi as (a' & Ea & ->). destruct (translations !! id i); [eauto|].
    by injection Ea as <-.
  - rewrite Hi. by destruct (translations !! id i).
Qed.

Lemma ppt_apply_shape_at (presentation output : PowerPoint.Presentation) (si shi : nat) :
  PowerPoint.apply_translations presentation translations font_name = Ok output ->
  match ppt_shape_at presentation si shi with
  | Some shape =>
      exists shape', PowerPoint._apply_to_shape si shi shape translations = Ok shape'
                     /\ ppt_shape_at output si shi = Some shape'
  | None => ppt_shape_at output si shi = None
  end.
Proof.
  unfold PowerPoint.apply_translations, ppt_shape_at. intros E.
  pose proof (rewrite_each_lookup _ _ _ si E) as Hs.
  destruct (presentation !! si) as [slide|].
  - destruct Hs as (slide' & Es & ->). apply (rewrite_each_lookup _ _ _ shi Es).
  - by rewrite Hs.
Qed.

(** The two halves of [_apply_to_shape]. *)
Lemma apply_to_shape_parts (si shi : nat) (shape shape' : PowerPoint.Shape) :
  PowerPoint._apply_to_shape si shi shape translations = Ok shape' ->
  match PowerPoint.text_frame shape with
  | Some paragraphs =>
      exists paragraphs',
        PowerPoint.text_frame shape' = Some paragraphs'
        /\ rewrite_each paragraphs (fun paragraph_index paragraph =>
             match translations !! PowerPoint._paragraph_id si shi paragraph_index with
             | Some translated => PowerPoint._replace_ppt_paragraph paragraph translated
             | None => Ok paragraph
             end) = Ok paragraphs'
  | None => PowerPoint.text_frame shape' = None
  end
  /\ match PowerPoint.table shape with
     | Some rows =>
         exists rows',
           PowerPoint.table shape' = Some rows'
           /\ rewrite_each rows (fun row_idx row =>
                rewrite_each row (fun col_idx cell =>
                  match translations !! PowerPoint._cell_id si shi row_idx col_idx with
                  | Some translated => PowerPoint._replace_ppt_cell cell translated
                  | None => Ok cell
                  end)) = Ok rows'
     | None => PowerPoint.table shape' = None
     end.
Proof.
  unfold PowerPoint._apply_to_shape. intros E.
  destruct (PowerPoint.text_frame shape) as [paragraphs|].
  - destruct (rewrite_each paragraphs _) as [paragraphs'|] eqn:Ep; cbn [bind] in E; [|done].
    destruct (PowerPoint.table shape) as [rows|].
    + destruct (rewrite_each rows _) as [rows'|] eqn:Er; cbn [bind] in E; [|done].
      injection E as <-. cbn [PowerPoint.text_frame PowerPoint.table]. split; eauto.
    + cbn [bind] in E. injection E as <-. cbn [PowerPoint.text_frame PowerPoint.table]. split; eauto.
  - cbn [bind] in E. destruct (PowerPoint.table shape) as [rows|].
    + destruct (rewrite_each rows _) as [rows'|] eqn:Er; cbn [bind] in E; [|done].
      injection E as <-. cbn [PowerPoint.text_frame PowerPoint.table]. split; eauto.
    + cbn [bind] in E. injection E as <-. cbn [PowerPoint.text_frame PowerPoint.table]. split; eauto.
Qed.

Lemma ppt_apply_paragraph_at (presentation output : PowerPoint.Presentation)
    (si shi k : nat) :
  PowerPoint.apply_translations presentation translations font_name = Ok output ->
  rewritten translations (PowerPoint._paragraph_id si shi k)
    PowerPoint._replace_ppt_paragraph
    (ppt_paragraph_at presentation si shi k) (ppt_paragraph_at output si shi k).
Proof.
  intros E. pose proof (ppt_apply_shape_at _ _ si shi E) as Hs.
  unfold ppt_paragraph_at.
  destruct (ppt_shape_at presentation si shi) as [shape|].
  2:{ rewrite Hs. unfold rewritten. by destruct (translations !! _). }
  destruct Hs as (shape' & Ea & ->).
  apply apply_to_shape_parts in Ea as [Htf _].
  destruct (PowerPoint.text_frame shape) as [paragraphs|].
  2:{ rewrite Htf. unfold rewritten. by destruct (translations !! _). }
  destruct Htf as (paragraphs' & -> & Ep).
  by apply (rewrite_each_rewritten (PowerPoint._paragraph_id si shi)).
Qed.

Lemma ppt_apply_cell_at (presentation output : PowerPoint.Presentation)
    (si shi r c : nat) :
  PowerPoint.apply_translations presentation translations font_name = Ok output ->
  rewritten translations (PowerPoint._cell_id si shi r c)
    PowerPoint._replace_ppt_cell
    (ppt_cell_at presentation si shi r c) (ppt_cell_at output si shi r c).
Proof.
  intros E. pose proof (ppt_apply_shape_at _ _ si shi E) as Hs.
  unfold ppt_cell_at.
  destruct (ppt_shape_at presentation si shi) as [shape|].
  2:{ rewrite Hs. unfold rewritten. by destruct (translations !! _). }
  destruct Hs as (shape' & Ea & ->).
  apply apply_to_shape_parts in Ea as [_ Htb].
  destruct (PowerPoint.table shape) as [rows|].
  2:{ rewrite Htb. unfold rewritten. by destruct (translations !! _). }
  destruct Htb as (rows' & -> & Er).
  pose proof (rewrite_each_lookup _ _ _ r Er) as Hr.
  destruct (rows !! r) as [row|].
  2:{ rewrite Hr. unfold rewritten. by destruct (translations !! _). }
  destruct Hr as (row' & Erow & ->).
  by apply (rewrite_each_rewritten (PowerPoint._cell_id si shi r)).
Qed.

Lemma doc_apply_parts (default_style : Word.Style) (document output : Word.Document) :
  Word.apply_translations default_style document translations font_name = Ok output ->
  rewrite_each (Word.paragraphs document) (fun paragraph_index paragraph =>
    match translations !! Word._paragraph_id paragraph_index with
    | Some translated => Word._replace_paragraph paragraph translated font_name
    | None => Ok paragraph
    end) = Ok (Word.paragraphs output)
  /\ rewrite_each (Word.tables document) (fun table_index table =>
       Word._apply_to_table default_style table_index table translations font_name)
     = Ok (Word.tables output).
Proof.
  unfold Word.apply_translations. intros E.
  destruct (rewrite_each (Word.paragraphs document) _) as [ps|]; cbn [bind] in E; [|done].
  destruct (rewrite_each (Word.tables document) _) as [ts|]; cbn [bind] in E; [|done].
  by injection E as <-.
Qed.

Lemma doc_apply_paragraph_at (default_style : Word.Style)
    (document output : Word.Document) (k : nat) :
  Word.apply_translations default_style document translations font_name = Ok output ->
  rewritten translations (Word._paragraph_id k)
    (fun p new_text => Word._replace_paragraph p new_text font_name)
    (doc_paragraph_at document k) (doc_paragraph_at output k).
Proof.
  intros [Ep _]%doc_apply_parts. unfold doc_paragraph_at.
  by apply (rewrite_each_rewritten Word._paragraph_id
              (fun p new_text => Word._replace_paragraph p new_text font_name)).
Qed.

(** The table of the output at an index: the same rows, over the cells
    the two loops leave. *)
Lemma doc_apply_table_at (default_style : Word.Style)
    (document output : Word.Document) (t : nat) :
  Word.apply_translations default_style document translations font_name = Ok output ->
  match Word.tables document !! t with
  | Some table =>
      exists table',
        Word.tables output !! t = Some table'
        /\ Word._apply_to_table default_style t table translations font_name = Ok table'
        /\ Word.table_rows table' = Word.table_rows table
  | None => Word.tables output !! t = None
  end.
Proof.
  intros [_ Et]%doc_apply_parts.
  pose proof (rewrite_each_lookup _ _ _ t Et) as Ht.
  destruct (Word.tables document !! t) as [table|]; [|done].
  destruct Ht as (table' & Ea & Hl). exists table'. split; [done|]. split; [done|].
  unfold Word._apply_to_table in Ea.
  destruct (update_each _ _ _) as [cells|]; cbn [bind] in Ea; [|done].
  by injection Ea as <-.
Qed.

Lemma doc_apply_place (default_style : Word.Style)
    (document output : Word.Document) (t r c : nat) :
  Word.apply_translations default_style document translations font_name = Ok output ->
  doc_cell_place output t r c = doc_cell_place document t r c.
Proof.
  intros E. pose proof (doc_apply_table_at _ _ _ t E) as Ht. unfold doc_cell_place.
  destruct (Word.tables document !! t) as [table|].
  - destruct Ht as (table' & -> & _ & ->). done.
  - by rewrite Ht.
Qed.

(** *** Cells of a Word table *)

(** A position that refers to another place leaves the cell alone. *)
Lemma apply_to_position_other (default_style : Word.Style) (t r c place place' : nat)
    (cells cells' : list Word.Cell) :
  place' <> place ->
  Word._apply_to_position default_style t r c place' cells translations font_name
  = Ok cells' ->
  cells' !! place = cells !! place.
Proof.
  unfold Word._apply_to_position. intros Hne E.
  destruct (translations !! _) as [translated|]; [|by injection E as <-].
  destruct (cells !! place') as [cell|]; [|by injection E as <-].
  destruct (Word._replace_cell _ _ _ _) as [cell'|]; cbn [bind] in E; [|done].
  injection E as <-. by apply list_lookup_insert_ne.
Qed.

(** A position without a key leaves every cell alone. *)
Lemma apply_to_position_no_key (default_style : Word.Style) (t r c place' : nat)
    (cells cells' : list Word.Cell) :
  translations !! Word._cell_id t r c = None ->
  Word._apply_to_position default_style t r c place' cells translations font_name
  = Ok cells' ->
  cells' = cells.
Proof. unfold Word._apply_to_position. intros -> E. by injection E as <-. Qed.

(** The position of a cell rewrites it when its identifier is a key. *)
Lemma apply_to_position_here (default_style : Word.Style) (t r c place : nat)
    (cells cells' : list Word.Cell) :
  Word._apply_to_position default_style t r c place cells translations font_name
  = Ok cells' ->
  rewritten translations (Word._cell_id t r c)
    (fun cell new_text => Word._replace_cell default_style cell new_text font_name)
    (cells !! place) (cells' !! place).
Proof.
  unfold Word._apply_to_position, rewritten. intros E.
  destruct (translations !! _) as [translated|]; [|by injection E as <-].
  destruct (cells !! place) as [cell|] eqn:Ec; [|by injection E as <-].
  destruct (Word._replace_cell _ _ _ _) as [cell'|]; cbn [bind] in E; [|done].
  injection E as <-. exists cell'. split; [done|].
  apply list_lookup_insert_eq. by apply lookup_lt_Some in Ec.
Qed.

Lemma apply_to_table_cells (default_style : Word.Style) (t : nat) (table table' : Word.Table) :
  Word._apply_to_table default_style t table translations font_name = Ok table' ->
  update_each (Word.table_rows table) (Word.table_cells table) (fun row_index row cells =>
    update_each row cells (fun col_index place cells =>
      Word._apply_to_position default_style t row_index col_index place cells
        translations font_name))
  = Ok (Word.table_cells table').
Proof.
  unfold Word._apply_to_table. intros E.
  destruct (update_each _ _ _) as [cells|]; cbn [bind] in E; [|done].
  by injection E as <-.
Qed.

(** A cell none of whose positions has a key is not touched. *)
Lemma apply_to_table_frame (default_style : Word.Style) (t place : nat)
    (table table' : Word.Table) :
  Word._apply_to_table default_style t table translations font_name = Ok table' ->
  (forall r row c,
     Word.table_rows table !! r = Some row -> row !! c = Some place ->
     translations !! Word._cell_id t r c = None) ->
  Word.table_cells table' !! place = Word.table_cells table !! place.
Proof.
  intros E%apply_to_table_cells Hkeys.
  apply (update_each_invariant
           (fun _ cells => cells !! place = Word.table_cells table !! place) _ _ _ _ E);
    [done|].
  intros r row s s' Hr Hs Erow. rewrite <- Hs.
  apply (update_each_invariant (fun _ cells => cells !! place = s !! place) _ _ _ _ Erow);
    [done|].
  intros c place' s1 s2 Hc Hs1 Estep. rewrite <- Hs1.
  destruct (decide (place' = place)) as [->|Hne].
  - by rewrite (apply_to_position_no_key _ _ _ _ _ _ _ (Hkeys _ _ _ Hr Hc) Estep).
  - by apply (apply_to_position_other _ _ _ _ _ _ _ _ Hne Estep).
Qed.

(** A cell with one position is rewritten when the identifier of that
    position is a key, and not touched otherwise. *)
Lemma apply_to_table_once (default_style : Word.Style) (t r c place : nat)
    (row : list nat) (table table' : Word.Table) :
  Word._apply_to_table default_style t table translations font_name = Ok table' ->
  Word.table_rows table !! r = Some row -> row !! c = Some place ->
  (forall r' row' c',
     Word.table_rows table !! r' = Some row' -> row' !! c' = Some place ->
     r' = r /\ c' = c) ->
  rewritten translations (Word._cell_id t r c)
    (fun cell new_text => Word._replace_cell default_style cell new_text font_name)
    (Word.table_cells table !! place) (Word.table_cells table' !! place).
Proof.
  intros E%apply_to_table_cells Hr Hc Honce.
  set (R := rewritten translations (Word._cell_id t r c)
              (fun cell new_text => Word._replace_cell default_style cell new_text font_name)
              (Word.table_cells table !! place)).
  set (Q := fun (i : nat) (cells : list Word.Cell) =>
              ((i <= r)%nat -> cells !! place = Word.table_cells table !! place)
              /\ ((r < i)%nat -> R (cells !! place))).
  assert (Hend : Q (length (Word.table_rows table)) (Word.table_cells table')).
  { apply (update_each_invariant Q _ _ _ _ E); [split; [done|lia]|].
    intros i row_i s s' Hi [Hbefore Hafter] Erow.
    destruct (decide (i = r)) as [->|Hne].
    - rewrite Hr in Hi. injection Hi as <-.
      specialize (Hbefore ltac:(lia)).
      set (Q' := fun (j : nat) (cells : list Word.Cell) =>
                   ((j <= c)%nat -> cells !! place = Word.table_cells table !! place)
                   /\ ((c < j)%nat -> R (cells !! place))).
      assert (Hrow : Q' (length row) s').
      { apply (update_each_invariant Q' _ _ _ _ Erow); [split; [done|lia]|].
        intros j place' s1 s2 Hj [Hb Ha] Estep.
        destruct (decide (j = c)) as [->|Hnc].
        - rewrite Hc in Hj. injection Hj as <-. split; [lia|]. intros _.
          unfold R. rewrite <- (Hb ltac:(lia)).
          by apply (apply_to_position_here default_style t r c place).
        - assert (place' <> place) as Hp.
          { intros ->. destruct (Honce _ _ _ Hr Hj) as [_ ?]. done. }
          split; rewrite (apply_to_position_other _ _ _ _ _ _ _ _ Hp Estep);
            [intros ?; apply Hb; lia|intros ?; apply Ha; lia]. }
      destruct Hrow as [_ Hrow]. split; [lia|]. intros _. apply Hrow.
      by apply lookup_lt_Some in Hc.
    - assert (Hsame : s' !! place = s !! place).
      { apply (update_each_invariant (fun _ cells => cells !! place = s !! place)
                 _ _ _ _ Erow); [done|].
        intros j place' s1 s2 Hj Hs1 Estep. rewrite <- Hs1.
        assert (place' <> place) as Hp.
        { intros ->. destruct (Honce _ _ _ Hi Hj) as [? _]. done. }
        by apply (apply_to_position_other _ _ _ _ _ _ _ _ Hp Estep). }
      split; rewrite Hsame; [intros ?; apply Hbefore; lia|intros ?; apply Hafter; lia]. }
  destruct Hend as [_ Hend]. apply Hend. by apply lookup_lt_Some in Hr.
Qed.

Lemma doc_cell_place_rows (document : Word.Document) (t r c place : nat) :
  doc_cell_place document t r c = Some place <->
  exists table row,
    Word.tables document !! t = Some table
    /\ Word.table_rows table !! r = Some row /\ row !! c = Some place.
Proof.
  unfold doc_cell_place. split.
  - destruct (Word.tables document !! t) as [table|]; [|done].
    destruct (Word.table_rows table !! r) as [row|] eqn:Er; [|done]. eauto.
  - by intros (table & row & -> & -> & ->).
Qed.

(** A cell of a Word table none of whose positions has a key is as it
    was. *)
Lemma doc_apply_cell_frame (default_style : Word.Style)
    (document output : Word.Document) (t r c place : nat) :
  Word.apply_translations default_style document translations font_name = Ok output ->
  doc_cell_place document t r c = Some place ->
  (forall r' c',
     doc_cell_place document t r' c' = Some place ->
     translations !! Word._cell_id t r' c' = None) ->
  doc_cell_at output t r c = doc_cell_at document t r c.
Proof.
  intros E Hplace Hkeys. unfold doc_cell_at.
  rewrite (doc_apply_place _ _ _ t r c E), Hplace.
  pose proof (doc_apply_table_at _ _ _ t E) as Ht.
  destruct (Word.tables document !! t) as [table|] eqn:Etable; [|by rewrite Ht].
  destruct Ht as (table' & -> & Ea & _).
  apply (apply_to_table_frame _ _ _ _ _ Ea).
  intros r' row c' Hr' Hc'. apply Hkeys. apply doc_cell_place_rows. eauto.
Qed.

(** A cell of a Word table that has one position is rewritten under the
    identifier of that position. *)
Lemma doc_apply_cell_at (default_style : Word.Style)
    (document output : Word.Document) (t r c place : nat) :
  Word.apply_translations default_style document translations font_name = Ok output ->
  doc_cell_place document t r c = Some place ->
  (forall r' c', doc_cell_place document t r' c' = Some place -> r' = r /\ c' = c) ->
  rewritten translations (Word._cell_id t r c)
    (fun cell new_text => Word._replace_cell default_style cell new_text font_name)
    (doc_cell_at document t r c) (doc_cell_at output t r c).
Proof.
  intros E Hplace Honce. unfold doc_cell_at.
  rewrite (doc_apply_place _ _ _ t r c E), Hplace.
  pose proof (doc_apply_table_at _ _ _ t E) as Ht.
  apply doc_cell_place_rows in Hplace as (table & row & Etable & Hr & Hc).
  rewrite Etable in Ht |- *. destruct Ht as (table' & -> & Ea & _).
  apply (apply_to_table_once _ _ _ _ _ _ _ _ Ea Hr Hc).
  intros r' row' c' Hr' Hc'. apply Honce. apply doc_cell_place_rows. eauto.
Qed.

(** *** Cells of a workbook *)

Lemma xls_loaded_cell_at (file : Excel.File) (data_only : bool) (si r c : nat) :
  xls_cell_at (Excel.load_workbook file data_only) si r c
  = Excel.load_cell data_only r c <$> stored_cell_at file si r c.
Proof.
  unfold xls_cell_at, stored_cell_at, Excel.load_workbook.
  rewrite list_lookup_fmap. destruct (file !! si) as [sheet|]; [|done]. simpl.
  rewrite list_lookup_imap. destruct (sheet !! r) as [cells|]; [|done]. simpl.
  by rewrite list_lookup_imap.
Qed.

Lemma xls_apply_cell_at (file : Excel.File) (output : Excel.Workbook) (si r c : nat) :
  Excel.apply_translations file translations font_name = Ok output ->
  rewritten translations (Excel._cell_id si (S r) (S c)) (Excel.write_cell font_name)
    (xls_cell_at (Excel.load_workbook file false) si r c) (xls_cell_at output si r c).
Proof.
  unfold Excel.apply_translations. intros E.
  assert (Hnone : forall after : option Excel.Cell,
            after = None ->
            rewritten translations (Excel._cell_id si (S r) (S c))
              (Excel.write_cell font_name) None after).
  { intros after ->. unfold rewritten. by destruct (translations !! _). }
  pose proof (rewrite_each_lookup _ _ _ si E) as Hs.
  rewrite xls_loaded_cell_at.
  unfold xls_cell_at, stored_cell_at, Excel.load_workbook in *.
  rewrite list_lookup_fmap in Hs.
  destruct (file !! si) as [sheet|]; cbn [fmap option_fmap option_map] in Hs |- *.
  2:{ apply Hnone. by rewrite Hs. }
  destruct Hs as (sheet' & Esheet & ->).
  pose proof (rewrite_each_lookup _ _ _ r Esheet) as Hr.
  rewrite list_lookup_imap in Hr.
  destruct (sheet !! r) as [cells|]; cbn [fmap option_fmap option_map] in Hr |- *.
  2:{ apply Hnone. by rewrite Hr. }
  destruct Hr as (cells' & Ecells & ->).
  pose proof (rewrite_each_lookup _ _ _ c Ecells) as Hc.
  rewrite list_lookup_imap in Hc.
  destruct (cells !! c) as [cell|]; cbn [fmap option_fmap option_map] in Hc |- *.
  2:{ apply Hnone. by rewrite Hc. }
  destruct Hc as (cell' & Ecell & ->).
  unfold Excel.apply_cell in Ecell. cbn [Excel.load_cell Excel.row Excel.column] in Ecell.
  unfold rewritten. destruct (translations !! _) as [translated|]; [eauto|].
  by injection Ecell as <-.
Qed.

End Reinsertion.

(** *** Completion *)

Section Completion.
Context `{OfficeLibraries}.
Variable translations : gmap str str.
Variable font_name : option str.

Lemma ppt_apply_completes (presentation : PowerPoint.Presentation) :
  accepted pptx_run_text translations ->
  exists output, PowerPoint.apply_translations presentation translations font_name = Ok output.
Proof.
  intros Hacc.
  assert (Hp : forall p translated,
            (exists id, translations !! id = Some translated) ->
            exists p', PowerPoint._replace_ppt_paragraph p translated = Ok p').
  { intros p translated [id Hid]. unfold PowerPoint._replace_ppt_paragraph.
    destruct (Hacc _ _ Hid) as [kept ->]. by eexists. }
  assert (Hc : forall cell translated,
            (exists id, translations !! id = Some translated) ->
            exists cell', PowerPoint._replace_ppt_cell cell translated = Ok cell').
  { intros cell translated Hid. unfold PowerPoint._replace_ppt_cell.
    edestruct Hp as [p' ->]; [exact Hid|]. by eexists. }
  assert (shape_table_completes : forall si shi shape frame,
            exists shape',
              (let* table' :=
                 match PowerPoint.table shape with
                 | Some rows =>
                     let* rows' :=
                       rewrite_each rows (fun row_idx row =>
                         rewrite_each row (fun col_idx cell =>
                           match translations !! PowerPoint._cell_id si shi row_idx col_idx with
                           | Some translated => PowerPoint._replace_ppt_cell cell translated
                           | None => Ok cell
                           end)) in
                     Ok (Some rows')
                 | None => Ok None
                 end in
               Ok {| PowerPoint.text_frame := frame; PowerPoint.table := table' |})
              = Ok shape').
  { intros si shi shape frame.
    destruct (PowerPoint.table shape) as [rows|]; [|by eexists].
    match goal with
    | |- context [rewrite_each rows ?body] =>
        destruct (rewrite_each_completes body rows) as [rows' ->]; [|by eexists]
    end.
    intros r row _. apply rewrite_each_completes. intros c cell _.
    destruct (translations !! PowerPoint._cell_id si shi r c) as [translated|] eqn:Et;
      [|by eexists].
    apply Hc. eauto. }
  unfold PowerPoint.apply_translations.
  apply rewrite_each_completes. intros si slide _.
  apply rewrite_each_completes. intros shi shape _.
  unfold PowerPoint._apply_to_shape.
  destruct (PowerPoint.text_frame shape) as [paragraphs|].
  - match goal with
    | |- context [rewrite_each paragraphs ?body] =>
        destruct (rewrite_each_completes body paragraphs) as [ps' ->]
    end.
    { intros k p _.
      destruct (translations !! PowerPoint._paragraph_id si shi k) as [translated|] eqn:Et;
        [|by eexists].
      apply Hp. eauto. }
    cbn [bind]. by apply shape_table_completes.
  - cbn [bind]. by apply shape_table_completes.
Qed.

Lemma doc_new_run_completes (translated : str) (font_name' original_name : option str)
    (original_size : option Z) :
  (exists id, translations !! id = Some translated) ->
  accepted docx_run_text translations ->
  exists run, Word.new_run translated font_name' original_name original_size = Ok run.
Proof.
  intros [id Hid] Hacc. unfold Word.new_run.
  destruct (Hacc _ _ Hid) as [kept ->]. by eexists.
Qed.

Lemma doc_apply_completes (default_style : Word.Style) (document : Word.Document) :
  accepted docx_run_text translations ->
  exists output,
    Word.apply_translations default_style document translations font_name = Ok output.
Proof.
  intros Hacc. unfold Word.apply_translations.
  match goal with
  | |- context [rewrite_each (Word.paragraphs document) ?body] =>
      destruct (rewrite_each_completes body (Word.paragraphs document)) as [ps' ->]
  end.
  { intros k p _.
    destruct (translations !! Word._paragraph_id k) as [translated|] eqn:Et; [|by eexists].
    unfold Word._replace_paragraph. destruct (Word._get_run_font_attributes _).
    edestruct doc_new_run_completes as [run ->]; [eauto|done|]. by eexists. }
  cbn [bind].
  match goal with
  | |- context [rewrite_each (Word.tables document) ?body] =>
      destruct (rewrite_each_completes body (Word.tables document)) as [ts' ->];
        [|by eexists]
  end.
  intros t table _. unfold Word._apply_to_table, update_each.
  match goal with
  | |- context [update_from ?body 0%nat ?l ?state] =>
      destruct (update_from_completes body l 0%nat state) as [cells' ->]; [|by eexists]
  end.
  intros r row cells. apply update_from_completes. intros c place cells0.
  unfold Word._apply_to_position.
  destruct (translations !! Word._cell_id t r c) as [translated|] eqn:Et; [|by eexists].
  destruct (cells0 !! place) as [cell|]; [|by eexists].
  assert (exists cell', Word._replace_cell default_style cell translated font_name = Ok cell')
    as [cell' ->]; [|by eexists].
  unfold Word._replace_cell.
  destruct (Word.scan_cell_fonts _ _ _).
  destruct (Word.cell_paragraphs cell) as [|first rest].
  - edestruct doc_new_run_completes as [run ->]; [eauto|done|]. by eexists.
  - destruct (negb _).
    + edestruct doc_new_run_completes as [run ->]; [eauto|done|]. by eexists.
    + edestruct doc_new_run_completes as [run ->]; [eauto|done|]. by eexists.
Qed.

Lemma xls_apply_completes (file : Excel.File) :
  accepted xlsx_cell_value translations ->
  no_merged_key file translations ->
  exists output, Excel.apply_translations file translations font_name = Ok output.
Proof.
  intros Hacc Hmerged. unfold Excel.apply_translations.
  apply rewrite_each_completes. intros si sheet Hsheet.
  apply rewrite_each_completes. intros r row Hrow.
  apply rewrite_each_completes. intros c cell Hcell.
  assert (Hat : xls_cell_at (Excel.load_workbook file false) si r c = Some cell).
  { unfold xls_cell_at. by rewrite Hsheet; cbn; rewrite Hrow. }
  rewrite xls_loaded_cell_at in Hat.
  destruct (stored_cell_at file si r c) as [stored|] eqn:Estored; [|done].
  injection Hat as <-.
  unfold Excel.apply_cell. cbn [Excel.load_cell Excel.row Excel.column].
  destruct (translations !! Excel._cell_id si (S r) (S c)) as [translated|] eqn:Et;
    [|by eexists].
  unfold Excel.write_cell. cbn [Excel.is_merged_cell Excel.load_cell].
  destruct (Excel.stored_content stored) eqn:Ec.
  - destruct (Hacc _ _ Et) as [kept ->]. by eexists.
  - destruct (Hacc _ _ Et) as [kept ->]. by eexists.
  - by rewrite (Hmerged si r c stored Estored Ec) in Et.
Qed.

End Completion.

(** C8, as stated, fails on a merged cell of a Word table: the cell is
    yielded at both positions it covers, so rewriting it under the
    identifier of the first changes what the second shows, although the
    identifier of the second is not a key.  It also fails on a
    translation the library refuses: a vertical tab makes [add_run]
    raise, and no document is produced. *)
Lemma merged_cell_is_rewritten :
  (list_to_map [(py "doc_t0_r0_c0", py "Suma")] : gmap str str) !! py "doc_t0_r0_c1" = None
  /\ (exists output,
        Word.apply_translations normal_style merged_document
          (list_to_map [(py "doc_t0_r0_c0", py "Suma")]) None = Ok output
        /\ Word.cell_text <$> doc_cell_at merged_document 0 0 1 = Some (py "Total")
        /\ Word.cell_text <$> doc_cell_at output 0 0 1 = Some (py "Suma"))
  /\ Word.apply_translations normal_style example_document
       (list_to_map [(py "doc_p1", [11])]) None = Raise ValueError
  /\ ~ untouched_without_key.
Proof.
  assert (Hkey : (list_to_map [(py "doc_t0_r0_c0", py "Suma")] : gmap str str)
                 !! Word._cell_id 0 0 1 = None) by (vm_compute; reflexivity).
  split; [exact Hkey|]. split; [|split].
  - eexists. split; [vm_compute; reflexivity|]. split; vm_compute; reflexivity.
  - vm_compute. reflexivity.
  - intros Hclaim.
    destruct (Hclaim normal_style merged_document _ None 0 0 1 Hkey)%nat
      as (output & E & Hsame).
    vm_compute in E. injection E as <-. vm_compute in Hsame. discriminate.
Qed.

(** C8, amended. In the three handlers [apply_translations] completes
    whenever the library stores every translation of the mapping and, in
    a workbook, no key is the identifier of a position inside a merged
    range.  Whenever it completes, it leaves every location whose
    identifier is not a key of the mapping as it was in the source
    document; for the cell of a Word table, which is one location under
    the identifier of every position it covers, when none of these
    identifiers is a key.  It puts the replacement at every location whose
    identifier is a key (for the cell of a Word table that covers one
    position); no location appears or disappears. *)
Theorem apply_translations_frame `{OfficeLibraries} (translations : gmap str str)
    (font_name : option str) :
  (forall presentation,
     accepted pptx_run_text translations ->
     exists output,
       PowerPoint.apply_translations presentation translations font_name = Ok output)
  /\ (forall default_style document,
     accepted docx_run_text translations ->
     exists output,
       Word.apply_translations default_style document translations font_name = Ok output)
  /\ (forall file,
     accepted xlsx_cell_value translations ->
     no_merged_key file translations ->
     exists output, Excel.apply_translations file translations font_name = Ok output)
  /\ (forall presentation output si shi k,
     PowerPoint.apply_translations presentation translations font_name = Ok output ->
     translations !! PowerPoint._paragraph_id si shi k = None ->
     ppt_paragraph_at output si shi k = ppt_paragraph_at presentation si shi k)
  /\ (forall presentation output si shi r c,
     PowerPoint.apply_translations presentation translations font_name = Ok output ->
     translations !! PowerPoint._cell_id si shi r c = None ->
     ppt_cell_at output si shi r c = ppt_cell_at presentation si shi r c)
  /\ (forall default_style document output k,
     Word.apply_translations default_style document translations font_name = Ok output ->
     translations !! Word._paragraph_id k = None ->
     doc_paragraph_at output k = doc_paragraph_at document k)
  /\ (forall default_style document output t r c place,
     Word.apply_translations default_style document translations font_name = Ok output ->
     doc_cell_place document t r c = Some place ->
     (forall r' c',
        doc_cell_place document t r' c' = Some place ->
        translations !! Word._cell_id t r' c' = None) ->
     doc_cell_at output t r c = doc_cell_at document t r c)
  /\ (forall file output si r c,
     Excel.apply_translations file translations font_name = Ok output ->
     translations !! Excel._cell_id si (S r) (S c) = None ->
     xls_cell_at output si r c = xls_cell_at (Excel.load_workbook file false) si r c)
  /\ (forall presentation output si shi k translated p,
     PowerPoint.apply_translations presentation translations font_name = Ok output ->
     translations !! PowerPoint._paragraph_id si shi k = Some translated ->
     ppt_paragraph_at presentation si shi k = Some p ->
     exists p', PowerPoint._replace_ppt_paragraph p translated = Ok p'
                /\ ppt_paragraph_at output si shi k = Some p')
  /\ (forall presentation output si shi r c translated cell,
     PowerPoint.apply_translations presentation translations font_name = Ok output ->
     translations !! PowerPoint._cell_id si shi r c = Some translated ->
     ppt_cell_at presentation si shi r c = Some cell ->
     exists cell', PowerPoint._replace_ppt_cell cell translated = Ok cell'
                   /\ ppt_cell_at output si shi r c = Some cell')
  /\ (forall default_style document output k translated p,
     Word.apply_translations default_style document translations font_name = Ok output ->
     translations !! Word._paragraph_id k = Some translated ->
     doc_paragraph_at document k = Some p ->
     exists p', Word._replace_paragraph p translated font_name = Ok p'
                /\ doc_paragraph_at output k = Some p')
  /\ (forall default_style document output t r c place translated cell,
     Word.apply_translations default_style document translations font_name = Ok output ->
     doc_cell_place document t r c = Some place ->
     (forall r' c', doc_cell_place document t r' c' = Some place -> r' = r /\ c' = c) ->
     translations !! Word._cell_id t r c = Some translated ->
     doc_cell_at document t r c = Some cell ->
     exists cell', Word._replace_cell default_style cell translated font_name = Ok cell'
                   /\ doc_cell_at output t r c = Some cell')
  /\ (forall file output si r c translated cell,
     Excel.apply_translations file translations font_name = Ok output ->
     translations !! Excel._cell_id si (S r) (S c) = Some translated ->
     xls_cell_at (Excel.load_workbook file false) si r c = Some cell ->
     exists cell', Excel.write_cell font_name cell translated = Ok cell'
                   /\ xls_cell_at output si r c = Some cell').
Proof.
  split; [exact (ppt_apply_completes translations font_name)|].
  split; [exact (doc_apply_completes translations font_name)|].
  split; [exact (xls_apply_completes translations font_name)|].
  repeat split.
  - intros presentation output si shi k E Hkey.
    by apply (rewritten_none _ _ _ _ _ Hkey (ppt_apply_paragraph_at _ _ _ _ si shi k E)).
  - intros presentation output si shi r c E Hkey.
    by apply (rewritten_none _ _ _ _ _ Hkey (ppt_apply_cell_at _ _ _ _ si shi r c E)).
  - intros default_style document output k E Hkey.
    by apply (rewritten_none _ _ _ _ _ Hkey (doc_apply_paragraph_at _ _ _ _ _ k E)).
  - intros default_style document output t r c place E Hplace Hkeys.
    by apply (doc_apply_cell_frame _ _ _ _ _ t r c place E).
  - intros file output si r c E Hkey.
    by apply (rewritten_none _ _ _ _ _ Hkey (xls_apply_cell_at _ _ _ _ si r c E)).
  - intros presentation output si shi k translated p E Hkey Hp.
    pose proof (ppt_apply_paragraph_at _ _ _ _ si shi k E) as Hr. rewrite Hp in Hr.
    by apply (rewritten_some _ _ _ _ _ _ Hkey Hr).
  - intros presentation output si shi r c translated cell E Hkey Hc.
    pose proof (ppt_apply_cell_at _ _ _ _ si shi r c E) as Hr. rewrite Hc in Hr.
    by apply (rewritten_some _ _ _ _ _ _ Hkey Hr).
  - intros default_style document output k translated p E Hkey Hp.
    pose proof (doc_apply_paragraph_at _ _ _ _ _ k E) as Hr. rewrite Hp in Hr.
    by apply (rewritten_some _ _ _ _ _ _ Hkey Hr).
  - intros default_style document output t r c place translated cell E Hplace Honce Hkey Hc.
    pose proof (doc_apply_cell_at _ _ _ _ _ t r c place E Hplace Honce) as Hr.
    rewrite Hc in Hr. by apply (rewritten_some _ _ _ _ _ _ Hkey Hr).
  - intros file output si r c translated cell E Hkey Hc.
    pose proof (xls_apply_cell_at _ _ _ _ si r c E) as Hr. rewrite Hc in Hr.
    by apply (rewritten_some _ _ _ _ _ _ Hkey Hr).
Qed.

(** The library of the examples stores every translation of the example
    mapping, and the example workbook has no merged range. *)
Lemma example_mapping_accepted :
  accepted pptx_run_text example_mapping
  /\ accepted docx_run_text example_mapping
  /\ accepted xlsx_cell_value example_mapping.
Proof.
  repeat split; intros id translated Hid;
    apply elem_of_list_to_map_2 in Hid;
    repeat (apply elem_of_cons in Hid as [[= -> ->]|Hid]; [by eexists|]);
    by apply elem_of_nil in Hid.
Qed.

Lemma formula_file_unmerged (translations : gmap str str) :
  no_merged_key formula_file translations.
Proof.
  intros si r c cell Hcell Hmerged.
  destruct si as [|si]; [|discriminate Hcell].
  destruct r as [|r]; [|by destruct r].
  destruct c as [|[|c]]; [..|by destruct c]; by injection Hcell as <-.
Qed.

Lemma apply_translations_frame_witness :
  (exists output,
     PowerPoint.apply_translations example_presentation example_mapping None = Ok output
     /\ ppt_paragraph_at output 0 0 1 = Some (plain_paragraph (py "Body"))
     /\ ppt_cell_at output 0 1 0 1
        = Some {| PowerPoint.cell_paragraphs := [plain_paragraph (py "Right")] |}
     /\ exists p', PowerPoint._replace_ppt_paragraph (plain_paragraph (py "Title")) (py "Titulo")
                   = Ok p'
                   /\ ppt_paragraph_at output 0 0 0 = Some p')
  /\ (exists output,
        Word.apply_translations normal_style merged_document example_mapping None = Ok output
        /\ doc_cell_at output 0 1 1
           = Some {| Word.cell_paragraphs := [word_paragraph (py "Two")] |})
  /\ (exists output,
        Excel.apply_translations formula_file example_mapping None = Ok output
        /\ xls_cell_at output 0 0 0 = xls_cell_at (Excel.load_workbook formula_file false) 0 0 0).
Proof.
  destruct (apply_translations_frame example_mapping None)
    as (Hpc & Hdc' & Hxc & Hp & Hc & _ & Hdc & Hx & Hp' & _).
  destruct example_mapping_accepted as (Hpa & Hda & Hxa).
  split; [|split].
  - destruct (Hpc example_presentation Hpa) as [output E].
    exists output. split; [done|]. split; [|split].
    + rewrite (Hp example_presentation output 0 0 1 E)%nat by (vm_compute; reflexivity).
      reflexivity.
    + rewrite (Hc example_presentation output 0 1 0 1 E)%nat by (vm_compute; reflexivity).
      reflexivity.
    + apply (Hp' example_presentation output 0 0 0 (py "Titulo") _ E)%nat;
        [vm_compute; reflexivity|reflexivity].
  - destruct (Hdc' normal_style merged_document Hda) as [output E].
    exists output. split; [done|].
    rewrite (Hdc normal_style merged_document output 0 1 1 2 E)%nat; [reflexivity|reflexivity|].
    intros r' c' Hplace.
    destruct r' as [|[|r']]; [destruct c' as [|[|c']]; discriminate Hplace| |].
    + destruct c' as [|[|c']]; try discriminate Hplace. vm_compute. reflexivity.
    + destruct r'; discriminate Hplace.
  - destruct (Hxc formula_file Hxa (formula_file_unmerged example_mapping)) as [output E].
    exists output. split; [done|].
    apply (Hx formula_file output 0 0 0 E)%nat. vm_compute. reflexivity.
Defined.

(** * Further properties of the code *)

(** ** The client on every path *)

Section ClientPaths.
Context `{PyRuntime} (settings : Settings).

(** X1. Whatever path [translate_texts] takes (empty input, mock mode, or a
    provider answer), a list it returns has as many items as the request. *)
Theorem translate_texts_length (self : OpenRouterTranslator) (texts : list str)
    (post : http_request -> http_outcome) (translated : list str) :
  fst (translate_texts settings self texts post) = Ok translated ->
  length translated = length texts.
Proof.
  unfold translate_texts.
  destruct texts as [|t0 texts]; [by intros [= <-]|].
  destruct (api_key (config self)) as [|k0 key].
  { cbn [fst]. intros E. injection E as <-.
    apply (length_fmap (_mock_translate self) (t0 :: texts)). }
  cbn [fst]. destruct (post _) as [|status text]; [done|].
  destruct (status >=? 400)%Z; [done|].
  destruct (json_loads text) as [data|]; cbn [bind]; [|done].
  destruct (message_content_of data) as [message|[]]; try done.
  destruct (_extract_translations message (length (t0 :: texts))) as [parsed|e] eqn:E;
    cbn [bind]; [|done].
  rewrite (deliver_after_extract message) by done.
  intros E'. injection E' as <-. rewrite length_fmap.
  by apply (extract_translations_length _ _ _ E).
Qed.

(** X2. Without an API key nothing is sent: every input comes back behind
    the bracketed target-language tag ([translated] when no target language
    is set) and a space, in the order of the request. *)
Theorem translate_texts_mock (self : OpenRouterTranslator) (texts : list str)
    (post : http_request -> http_outcome) :
  api_key (config self) = [] ->
  translate_texts settings self texts post
  = (Ok ((fun text => py "[" ++ str_or (target_lang (config self)) (py "translated")
                      ++ py "] " ++ text) <$> texts), []).
Proof.
  intros Hkey. unfold translate_texts. rewrite Hkey. by destruct texts.
Qed.

(** X3. With a key and a request that is not empty, exactly one HTTP request
    is sent; a transport failure raises "failed to contact", and a status
    of 400 or more raises the error carrying that status and the body,
    whatever the body is. *)
Theorem translate_texts_transport_errors (self : OpenRouterTranslator) (texts : list str)
    (post : http_request -> http_outcome) :
  texts <> [] ->
  api_key (config self) <> [] ->
  exists request,
    snd (translate_texts settings self texts post) = [request]
    /\ endpoint request = api_base self ++ py "/chat/completions"
    /\ timeout request = 60%Z
    /\ (post request = RequestException ->
        fst (translate_texts settings self texts post)
        = Raise (TranslationError FailedToContact))
    /\ (forall status text,
          post request = Response status text -> (400 <= status)%Z ->
          fst (translate_texts settings self texts post)
          = Raise (TranslationError (ApiReturned status text))).
Proof.
  intros Htexts Hkey. unfold translate_texts.
  destruct texts as [|t0 texts]; [done|].
  destruct (api_key (config self)) as [|k0 key] eqn:Ek; [done|].
  eexists. cbn [fst snd]. split; [reflexivity|].
  split; [reflexivity|]. split; [reflexivity|]. split.
  - by intros ->.
  - intros status text -> Hs.
    assert ((status >=? 400)%Z = true) as -> by (apply Z.geb_le; lia). done.
Qed.

(** X4. What [translate_texts] does with a success response, case by
    case.  An exception of [response.json()] escapes as it is: the decode
    error for a body that is not JSON, [RecursionError] for one nested
    too deep, [ValueError] for an integer of too many digits.  A body
    that lacks [choices], has an empty [choices] list, or lacks [message]
    or [content] (a [KeyError] or [IndexError] on the way to the content)
    raises "could not parse"; a content that is not a string escapes as
    [AttributeError].  Otherwise the result is that of the cascade on the
    stripped content, item by item through [str], or the exception the
    cascade raises. *)
Theorem translate_texts_bad_payload (self : OpenRouterTranslator) (texts : list str)
    (post : http_request -> http_outcome) (status : Z) (text : str) :
  texts <> [] ->
  api_key (config self) <> [] ->
  (forall request, post request = Response status text) ->
  (status < 400)%Z ->
  fst (translate_texts settings self texts post)
  = match json_loads text with
    | Raise e => Raise e
    | Ok data =>
        match content_of data with
        | Raise KeyError | Raise IndexError => Raise (TranslationError CouldNotParse)
        | Raise e => Raise e
        | Ok (JString content) =>
            match _extract_translations (strip content) (length texts) with
            | Ok parsed => Ok (py_str <$> parsed)
            | Raise e => Raise e
            end
        | Ok _ => Raise AttributeError
        end
    end.
Proof.
  intros Htexts Hkey Hpost Hstatus.
  unfold translate_texts. destruct texts as [|t0 texts]; [done|].
  destruct (api_key (config self)) as [|k0 key]; [done|].
  cbn [fst]. rewrite Hpost.
  assert ((status >=? 400)%Z = false) as ->
    by (rewrite Z.geb_leb; apply Z.leb_gt; lia).
  destruct (json_loads text) as [data|]; cbn [bind]; [|done].
  unfold message_content_of.
  destruct (content_of data) as [v|e]; cbn [bind].
  - destruct v; cbn [method_strip]; try done.
    destruct (_extract_translations (strip s) (length (t0 :: texts)))
      as [parsed|e] eqn:E; cbn [bind]; [|done].
    by apply (deliver_after_extract (strip s)).
  - by destruct e.
Qed.

Lemma scan_raises (fuel : nat) :
  (forall room s e, scan_once fuel room s = Raise e -> decoder_exn e)
  /\ (forall room s e, parse_items fuel room s = Raise e -> decoder_exn e)
  /\ (forall room s e, parse_members fuel room s = Raise e -> decoder_exn e).
Proof.
  unfold decoder_exn.
  induction fuel as [|fuel (IHs & IHi & IHm)];
    [repeat split; intros room s e [= <-]; auto|].
  repeat split; intros room s e E; cbn [scan_once parse_items parse_members] in E.
  - repeat (case_match; try (injection E as <-; by auto); try discriminate E).
    + destruct (parse_members fuel _ _) as [[ms r']|e'] eqn:Em; cbn [bind] in E;
        [discriminate|]. injection E as <-. by eapply IHm.
    + destruct (parse_items fuel _ _) as [[vs r']|e'] eqn:Ei; cbn [bind] in E;
        [discriminate|]. injection E as <-. by eapply IHi.
  - destruct (scan_once fuel room s) as [[v r]|e'] eqn:Es; cbn [bind] in E.
    2:{ injection E as <-. by eapply IHs. }
    repeat (case_match; try (injection E as <-; by auto); try discriminate E).
    destruct (parse_items fuel _ _) as [[vs r']|e'] eqn:Ei; cbn [bind] in E;
      [discriminate|]. injection E as <-. by eapply IHi.
  - repeat (case_match; try (injection E as <-; by auto); try discriminate E).
    destruct (scan_once fuel _ _) as [[v r3]|e'] eqn:Es; cbn [bind] in E.
    2:{ injection E as <-. by eapply IHs. }
    repeat (case_match; try (injection E as <-; by auto); try discriminate E).
    destruct (parse_members fuel _ _) as [[ms r5]|e'] eqn:Em; cbn [bind] in E;
      [discriminate|]. injection E as <-. by eapply IHm.
Qed.

Lemma json_loads_raises (s : str) (e : exn) :
  json_loads s = Raise e -> decoder_exn e.
Proof.
  unfold json_loads. intros E.
  destruct (scan_once _ _ _) as [[v rest]|e'] eqn:Es; cbn [bind] in E.
  - destruct (skip_ws rest); [done|]. injection E as <-. by left.
  - injection E as <-. by eapply (proj1 (scan_raises _)).
Qed.

Lemma accept_parsed_raises (parsed : result json) (n : nat) (e : exn) :
  accept_parsed parsed n = Raise e -> parsed = Raise e /\ e <> JSONDecodeError.
Proof.
  unfold accept_parsed. destruct parsed as [[| | | |l|]|[]]; try discriminate;
    try (intros [= <-]; by split).
  by destruct (_ || _).
Qed.

Lemma extract_translations_raises (message : str) (n : nat) (e : exn) :
  _extract_translations message n = Raise e ->
  e = TranslationError CouldNotParse \/ e = RecursionError \/ e = ValueError.
Proof.
  assert (Hstep : forall text e', accept_parsed (json_loads text) n = Raise e' ->
                    e' = RecursionError \/ e' = ValueError).
  { intros text e' [Hl Hne]%accept_parsed_raises.
    apply json_loads_raises in Hl as [->|[->| ->]]; [done|by left|by right]. }
  unfold _extract_translations. intros E.
  destruct (accept_parsed (json_loads message) n) as [[p1|]|e1] eqn:E1;
    cbn [bind] in E; [done| |injection E as <-; right; by eapply Hstep].
  destruct (match search_fenced message with
            | Some snippet => accept_parsed (json_loads snippet) n
            | None => Ok None
            end) as [[p2|]|e2] eqn:E2; cbn [bind] in E; [done| |].
  2:{ injection E as <-. right. destruct (search_fenced message); [|done].
      by eapply Hstep. }
  destruct (match _find_json_array message with
            | Some (c :: snippet) => accept_parsed (json_loads (c :: snippet)) n
            | _ => Ok None
            end) as [[p3|]|e3] eqn:E3; cbn [bind] in E; [done| |].
  - injection E as <-. by left.
  - injection E as <-. right.
    destruct (_find_json_array message) as [[|c snip]|]; try done. by eapply Hstep.
Qed.

Lemma subscript_key_raises (data : json) (key : str) (e : exn) :
  subscript_key data key = Raise e -> e = KeyError \/ e = TypeError.
Proof.
  unfold subscript_key. destruct data; try (intros [= <-]; auto).
  destruct (assoc_last key members); [done|]. intros [= <-]. auto.
Qed.

Lemma message_content_raises (data : json) (e : exn) :
  message_content_of data = Raise e ->
  e = KeyError \/ e = IndexError \/ e = TypeError \/ e = AttributeError.
Proof.
  unfold message_content_of, content_of.
  destruct (subscript_key data (py "choices")) as [choices|e1] eqn:E1; cbn [bind].
  2:{ intros [= <-]. apply subscript_key_raises in E1. tauto. }
  destruct (subscript_zero choices) as [first|e2] eqn:E2; cbn [bind].
  2:{ intros [= <-]. unfold subscript_zero in E2.
      destruct choices as [|b0|lx|[|c0 s0]|[|v0 items0]|ms]; try done;
        injection E2 as <-; auto. }
  destruct (subscript_key first (py "message")) as [message|e3] eqn:E3; cbn [bind].
  2:{ intros [= <-]. apply subscript_key_raises in E3. tauto. }
  destruct (subscript_key message (py "content")) as [content|e4] eqn:E4; cbn [bind].
  2:{ intros [= <-]. apply subscript_key_raises in E4. tauto. }
  destruct content; cbn [method_strip]; try done; intros [= <-]; auto.
Qed.

(** The exceptions [translate_texts] can raise. *)
Lemma translate_texts_raises (self : OpenRouterTranslator) (texts : list str)
    (post : http_request -> http_outcome) (e : exn) :
  fst (translate_texts settings self texts post) = Raise e ->
  e = TranslationError FailedToContact
  \/ (exists status text, e = TranslationError (ApiReturned status text))
  \/ e = TranslationError CouldNotParse
  \/ e = JSONDecodeError \/ e = RecursionError \/ e = ValueError
  \/ e = TypeError \/ e = AttributeError.
Proof.
  unfold translate_texts.
  destruct texts as [|t0 texts]; [done|].
  destruct (api_key (config self)) as [|k0 key]; [done|].
  cbn [fst]. destruct (post _) as [|status text]; [intros [= <-]; auto|].
  destruct (status >=? 400)%Z; [intros [= <-]; eauto 10|].
  destruct (json_loads text) as [data|e0] eqn:Ed; cbn [bind].
  2:{ intros [= <-]. apply json_loads_raises in Ed as [->|[->| ->]]; auto 10. }
  destruct (message_content_of data) as [message|e0] eqn:Em.
  2:{ apply message_content_raises in Em.
      destruct Em as [-> | [-> | [-> | ->]]]; intros [= <-]; auto 10. }
  destruct (_extract_translations message (length (t0 :: texts))) as [parsed|e'] eqn:E;
    cbn [bind].
  - by rewrite (deliver_after_extract message) by done.
  - apply extract_translations_raises in E as [->|[->| ->]]; intros [= <-]; auto 10.
Qed.

(** X5. [translate_texts] never raises the count-mismatch error, and never
    lets a [KeyError] or an [IndexError] out: the length guard of the
    cascade leaves the count check nothing to reject. *)
Theorem translate_texts_never_count_mismatch (self : OpenRouterTranslator)
    (texts : list str) (post : http_request -> http_outcome) :
  fst (translate_texts settings self texts post) <> Raise (TranslationError CountMismatch)
  /\ fst (translate_texts settings self texts post) <> Raise KeyError
  /\ fst (translate_texts settings self texts post) <> Raise IndexError.
Proof.
  split; [|split]; intros E; apply translate_texts_raises in E;
    destruct E as [E|[(s0 & t1 & E)|[E|[E|[E|[E|[E|E]]]]]]]; discriminate E.
Qed.

End ClientPaths.

Lemma translate_texts_length_witness :
  length [py "Uno"; py "Dos"; py "Tres"] = length three_texts.
Proof.
  apply (translate_texts_length default_settings example_translator three_texts
           (fun _ => Response 200 (chat_response (pyq "['Uno', 'Dos', 'Tres']")))).
  vm_compute. reflexivity.
Defined.

Lemma translate_texts_mock_witness :
  translate_texts default_settings keyless_translator three_texts (fun _ => RequestException)
  = (Ok [py "[es] a"; py "[es] b"; py "[es] c"], []).
Proof.
  rewrite (translate_texts_mock default_settings keyless_translator three_texts)
    by reflexivity.
  vm_compute. reflexivity.
Defined.

Lemma translate_texts_transport_errors_witness :
  exists request,
    snd (translate_texts default_settings example_translator three_texts
           (fun _ => Response 503 (py "busy"))) = [request]
    /\ endpoint request = py "https://openrouter.ai/api/v1/chat/completions"
    /\ fst (translate_texts default_settings example_translator three_texts
              (fun _ => Response 503 (py "busy")))
       = Raise (TranslationError (ApiReturned 503 (py "busy"))).
Proof.
  destruct (translate_texts_transport_errors default_settings example_translator
              three_texts (fun _ => Response 503 (py "busy")))
    as (request & Hsent & Hend & _ & _ & Hstatus).
  - discriminate.
  - discriminate.
  - exists request. split; [exact Hsent|]. split.
    + rewrite Hend. vm_compute. reflexivity.
    + apply Hstatus; [reflexivity|lia].
Defined.

Lemma translate_texts_bad_payload_witness :
  fst (translate_texts default_settings example_translator three_texts
         (fun _ => Response 200 (pyq "{'choices': []}")))
  = Raise (TranslationError CouldNotParse)
  /\ fst (translate_texts default_settings example_translator three_texts
            (fun _ => Response 200 (pyq "{'choices': [{'message': {'content': null}}]}")))
     = Raise AttributeError.
Proof.
  split.
  - rewrite (translate_texts_bad_payload default_settings example_translator three_texts
               _ 200 (pyq "{'choices': []}")); [|discriminate|discriminate|done|lia].
    vm_compute. reflexivity.
  - rewrite (translate_texts_bad_payload default_settings example_translator three_texts
               _ 200 (pyq "{'choices': [{'message': {'content': null}}]}"));
      [|discriminate|discriminate|done|lia].
    vm_compute. reflexivity.
Defined.

(** ** The translator's base address *)

Lemma lstrip_slash_split (s : str) :
  exists k, s = repeat (ch "/") k ++ lstrip_slash s
            /\ (forall t, lstrip_slash s <> ch "/" :: t).
Proof.
  induction s as [|c s (k & E & Hhead)]; cbn [lstrip_slash].
  - by exists 0%nat.
  - destruct (c =? ch "/") eqn:Ec.
    + apply N.eqb_eq in Ec as ->. exists (S k). split; [|exact Hhead].
      cbn [repeat app]. by f_equal.
    + exists 0%nat. split; [done|]. intros t Et. injection Et as -> _.
      by rewrite N.eqb_refl in Ec.
Qed.

Lemma rev_repeat_char (c : char) (k : nat) : rev (repeat c k) = repeat c k.
Proof.
  induction k as [|k IH]; [done|]. cbn [repeat rev]. rewrite IH.
  clear IH. induction k as [|k IH]; [done|]. cbn [repeat app]. by rewrite IH.
Qed.

(** X6. The translator's base address is the configured one without its
    trailing slashes, however many there are: it never ends in a slash, so
    the endpoint has exactly one slash before [chat/completions]. *)
Theorem api_base_has_no_trailing_slash (settings : Settings) (cfg : TranslationConfig) :
  exists k,
    openrouter_api_base settings
    = api_base (new_translator settings cfg) ++ repeat (ch "/") k
    /\ (forall s, api_base (new_translator settings cfg) <> s ++ [ch "/"]).
Proof.
  cbn [new_translator api_base]. unfold rstrip_slash.
  destruct (lstrip_slash_split (rev (openrouter_api_base settings))) as (k & E & Hhead).
  exists k. split.
  - apply (f_equal (@rev _)) in E. rewrite rev_involutive, rev_app_distr in E.
    by rewrite rev_repeat_char in E.
  - intros s Es. apply (f_equal (@rev _)) in Es.
    rewrite rev_involutive, rev_app_distr in Es. cbn [rev app] in Es.
    by apply Hhead in Es.
Qed.

(** ** The cascade on text without an array *)

Lemma find_char_app_none (c : char) (a b : str) :
  find_char c (a ++ b) = None <-> find_char c a = None /\ find_char c b = None.
Proof.
  induction a as [|x a IH]; simpl.
  - tauto.
  - destruct (x =? c).
    + split; [discriminate|]. intros [? _]. discriminate.
    + by rewrite !fmap_None.
Qed.

Lemma strip_prefix_app (word s rest : str) :
  strip_prefix word s = Some rest -> s = word ++ rest.
Proof.
  revert s. induction word as [|w word IH]; intros s; simpl.
  - by intros [= ->].
  - destruct s as [|c s]; [done|]. destruct (c =? w) eqn:E; [|done].
    apply N.eqb_eq in E as ->. intros Hs. by rewrite (IH _ Hs).
Qed.

Lemma find_char_lstrip (c : char) (s : str) :
  find_char c s = None -> find_char c (lstrip s) = None.
Proof.
  intros Hs. destruct (lstrip_split s) as (w & E & _).
  rewrite E in Hs. by apply find_char_app_none in Hs as [_ ?].
Qed.

Lemma skip_ws_split (s : str) : exists w, s = w ++ skip_ws s.
Proof.
  induction s as [|c s [w E]]; simpl.
  - by exists [].
  - destruct (json_ws c); [|by exists []]. exists (c :: w). simpl. by f_equal.
Qed.

Section CascadeSteps.
Context `{PyRuntime}.

(** A decoded list starts, after JSON whitespace, with an opening bracket. *)
Lemma scan_once_array (fuel room : nat) (s : str) (items : list json) (rest : str) :
  scan_once fuel room s = Ok (JArray items, rest) -> exists s', s = ch "[" :: s'.
Proof.
  destruct fuel as [|fuel]; [done|]. cbn [scan_once].
  destruct s as [|c s]; [done|].
  destruct (c =? QUOTE).
  { destruct (scanstring _ _ _) as [[]|]; discriminate. }
  destruct (c =? ch "{").
  { destruct room as [|room]; [done|].
    destruct (skip_ws s) as [|c' r]; [done|]. destruct (c' =? ch "}"); [done|].
    destruct (parse_members _ _ _) as [[]|]; discriminate. }
  destruct (c =? ch "[") eqn:E.
  { apply N.eqb_eq in E as ->. eauto. }
  intros Hv. repeat case_match; simplify_eq.
Qed.

Lemma json_loads_array_has_bracket (s : str) (items : list json) :
  json_loads s = Ok (JArray items) -> find_char (ch "[") s <> None.
Proof.
  unfold json_loads.
  destruct (scan_once _ _ (skip_ws s)) as [[v rest]|] eqn:E; cbn [bind]; [|done].
  destruct (skip_ws rest); [|done]. intros [= ->].
  apply scan_once_array in E as [s' Es].
  destruct (skip_ws_split s) as [w Ew]. rewrite Es in Ew. rewrite Ew.
  intros Hnone. apply find_char_app_none in Hnone as [_ Hnone].
  cbn [find_char] in Hnone. by rewrite N.eqb_refl in Hnone.
Qed.

Lemma match_fence_has_bracket (s : str) :
  find_char (ch "[") s = None -> match_fence s = None.
Proof.
  intros Hs. unfold match_fence.
  destruct (strip_prefix FENCE s) as [r1|] eqn:E1; [|done].
  apply strip_prefix_app in E1. rewrite E1 in Hs.
  apply find_char_app_none in Hs as [_ Hr1].
  assert (Hr2 : find_char (ch "[")
                  (match strip_prefix (py "json") r1 with Some r => r | None => r1 end) = None).
  { destruct (strip_prefix (py "json") r1) as [r|] eqn:E2; [|done].
    apply strip_prefix_app in E2. rewrite E2 in Hr1.
    by apply find_char_app_none in Hr1 as [_ ?]. }
  apply find_char_lstrip in Hr2.
  destruct (lstrip _) as [|c rest]; [done|].
  destruct (c =? ch "[") eqn:Ec; [|done].
  cbn [find_char] in Hr2. by rewrite Ec in Hr2.
Qed.

Lemma search_fenced_has_bracket (s : str) :
  find_char (ch "[") s = None -> search_fenced s = None.
Proof.
  induction s as [|c s IH]; intros Hs.
  - reflexivity.
  - cbn [search_fenced]. rewrite (match_fence_has_bracket _ Hs).
    apply IH. change (c :: s) with ([c] ++ s) in Hs.
    by apply find_char_app_none in Hs as [_ ?].
Qed.

(** X7. A response without any opening bracket is never accepted: the
    second and the third step find nothing to decode, so
    [_extract_translations] raises "could not parse", whatever count is
    expected, unless [json.loads] of the first step raised an exception
    that is not the decode error ([RecursionError] on objects nested too
    deep, [ValueError] on an integer of too many digits), which escapes. *)
Theorem extract_translations_without_bracket (message : str) (expected_count : nat) :
  find_char (ch "[") message = None ->
  _extract_translations message expected_count
  = match json_loads message with
    | Ok _ | Raise JSONDecodeError => Raise (TranslationError CouldNotParse)
    | Raise e => Raise e
    end.
Proof.
  intros Hnone. unfold _extract_translations.
  rewrite (search_fenced_has_bracket _ Hnone).
  unfold _find_json_array. rewrite Hnone.
  destruct (json_loads message) as [v|e] eqn:E.
  - destruct v; try done. by apply json_loads_array_has_bracket in E.
  - by destruct e.
Qed.

End CascadeSteps.

Lemma extract_translations_without_bracket_witness :
  _extract_translations (py "Sorry, I cannot translate that.") 3
  = Raise (TranslationError CouldNotParse)
  /\ _extract_translations (repeat (ch "7") 4301) 3 = Raise ValueError.
Proof.
  split.
  - rewrite extract_translations_without_bracket by (vm_compute; reflexivity).
    vm_compute. reflexivity.
  - rewrite extract_translations_without_bracket by (vm_compute; reflexivity).
    vm_compute. reflexivity.
Defined.

(** ** The fenced step and the bracket finder *)

Lemma strip_prefix_self (word rest : str) : strip_prefix word (word ++ rest) = Some rest.
Proof.
  induction word as [|w word IH]; cbn [strip_prefix app]; [done|].
  by rewrite N.eqb_refl.
Qed.

Lemma lstrip_whitespace_app (w s : str) :
  forallb isspace w = true -> lstrip (w ++ s) = lstrip s.
Proof.
  induction w as [|c w IH]; [done|]. cbn [forallb app lstrip].
  intros [Hc Hw]%andb_prop. rewrite Hc. by apply IH.
Qed.

Lemma startswith_app (word rest : str) : startswith (word ++ rest) word = true.
Proof.
  induction word as [|w word IH]; cbn [startswith app]; [by destruct rest|].
  by rewrite N.eqb_refl.
Qed.

Lemma json_loads_backquote `{PyRuntime} (rest : str) :
  json_loads (ch "`" :: rest) = Raise JSONDecodeError.
Proof.
  unfold json_loads.
  replace (2 * length (ch "`" :: rest) + 2)%nat
    with (S (2 * length (ch "`" :: rest) + 1))%nat by lia.
  reflexivity.
Qed.

Lemma no_json_tag (ws1 rest : str) :
  forallb isspace ws1 = true ->
  strip_prefix (py "json") (ws1 ++ ch "[" :: rest) = None.
Proof.
  destruct ws1 as [|c ws1]; [reflexivity|].
  cbn [forallb app]. intros [Hc _]%andb_prop.
  cbn [py list_ascii_of_string map strip_prefix].
  destruct (c =? ch "j") eqn:E; [|done].
  apply N.eqb_eq in E as ->. done.
Qed.

(** Inside the brackets no closing bracket is followed by a fence, when
    there is no backquote inside. *)
Lemma no_early_fence (body tail : str) :
  find_char (ch "`") body = None ->
  startswith (lstrip (body ++ ch "]" :: tail)) FENCE = false.
Proof.
  induction body as [|c body IH]; cbn [app lstrip find_char].
  - intros _. reflexivity.
  - destruct (c =? ch "`") eqn:Ec; [done|]. rewrite fmap_None. intros Hbody.
    destruct (isspace c); [by apply IH|].
    cbn [FENCE py list_ascii_of_string map startswith]. by rewrite Ec.
Qed.

Lemma fenced_group_closes (body ws2 after acc : str) :
  find_char (ch "`") body = None ->
  forallb isspace ws2 = true ->
  fenced_group (body ++ ch "]" :: ws2 ++ FENCE ++ after) acc
  = Some (rev acc ++ body ++ [ch "]"]).
Proof.
  intros Hbody Hws. revert acc Hbody.
  induction body as [|c body IH]; intros acc Hbody; cbn [app fenced_group].
  - rewrite N.eqb_refl, lstrip_whitespace_app by done.
    assert (lstrip (FENCE ++ after) = FENCE ++ after) as -> by reflexivity.
    rewrite startswith_app. cbn [andb rev]. done.
  - cbn [find_char] in Hbody. destruct (c =? ch "`") eqn:Ec; [done|].
    rewrite fmap_None in Hbody.
    rewrite (no_early_fence body _ Hbody), andb_false_r.
    rewrite IH by done. cbn [rev]. by rewrite <- app_assoc.
Qed.

(** X8. An array inside a code fence, with the [json] tag or without it, is
    recovered by the second step: when the fenced text decodes to a list
    of the expected length and has no backquote inside,
    [_extract_translations] returns that list, whatever follows the fence. *)
Theorem extract_translations_fenced `{PyRuntime} (tag ws1 ws2 body after : str)
    (items : list json) :
  tag = [] \/ tag = py "json" ->
  forallb isspace ws1 = true ->
  forallb isspace ws2 = true ->
  find_char (ch "`") body = None ->
  json_loads (ch "[" :: body ++ [ch "]"]) = Ok (JArray items) ->
  _extract_translations
    (FENCE ++ tag ++ ws1 ++ ch "[" :: body ++ ch "]" :: ws2 ++ FENCE ++ after)
    (length items)
  = Ok items.
Proof.
  intros Htag Hws1 Hws2 Hbody Hparse. unfold _extract_translations.
  assert (json_loads (FENCE ++ tag ++ ws1 ++ ch "[" :: body ++ ch "]" :: ws2 ++ FENCE ++ after)
          = Raise JSONDecodeError) as -> by apply json_loads_backquote.
  cbn [accept_parsed bind].
  assert (search_fenced
            (FENCE ++ tag ++ ws1 ++ ch "[" :: body ++ ch "]" :: ws2 ++ FENCE ++ after)
          = Some (ch "[" :: body ++ [ch "]"])) as ->.
  { assert (Hm : match_fence
                   (FENCE ++ tag ++ ws1 ++ ch "[" :: body ++ ch "]" :: ws2 ++ FENCE ++ after)
                 = Some (ch "[" :: body ++ [ch "]"])).
    { unfold match_fence. rewrite strip_prefix_self.
      assert (match strip_prefix (py "json")
                      (tag ++ ws1 ++ ch "[" :: body ++ ch "]" :: ws2 ++ FENCE ++ after) with
              | Some r => r
              | None => tag ++ ws1 ++ ch "[" :: body ++ ch "]" :: ws2 ++ FENCE ++ after
              end = ws1 ++ ch "[" :: body ++ ch "]" :: ws2 ++ FENCE ++ after) as ->.
      { destruct Htag as [-> | ->].
        - cbn [app]. by rewrite no_json_tag.
        - by rewrite strip_prefix_self. }
      rewrite lstrip_whitespace_app by done. cbn [lstrip].
      change (isspace (ch "[")) with false. cbv iota.
      rewrite N.eqb_refl. by rewrite fenced_group_closes. }
    destruct (FENCE ++ tag ++ ws1 ++ ch "[" :: body ++ ch "]" :: ws2 ++ FENCE ++ after);
      cbn [search_fenced]; by rewrite Hm. }
  rewrite Hparse. cbn [accept_parsed]. by rewrite Nat.eqb_refl.
Qed.

Lemma extract_translations_fenced_witness :
  _extract_translations
    (FENCE ++ py "json" ++ LF ++ ch "[" :: pyq "'Uno', 'Dos'" ++ ch "]" :: LF ++ FENCE ++ [])
    (length [JString (py "Uno"); JString (py "Dos")])
  = Ok [JString (py "Uno"); JString (py "Dos")].
Proof.
  apply extract_translations_fenced.
  - by right.
  - reflexivity.
  - reflexivity.
  - vm_compute. reflexivity.
  - vm_compute. reflexivity.
Defined.

Lemma find_char_some (c : char) (s : str) (start : nat) :
  find_char c s = Some start ->
  exists pre rest, s = pre ++ c :: rest /\ length pre = start /\ find_char c pre = None.
Proof.
  revert start. induction s as [|x s IH]; intros start; cbn [find_char]; [done|].
  destruct (x =? c) eqn:E.
  - intros [= <-]. apply N.eqb_eq in E as ->. by exists [], s.
  - destruct (find_char c s) as [n|]; [|done]. cbn. intros [= <-].
    destruct (IH n eq_refl) as (pre & rest & -> & Hlen & Hnone).
    exists (x :: pre), rest. cbn [app length find_char]. rewrite E, Hnone, Hlen. done.
Qed.

(** When the loop stops, it stops on a closing bracket. *)
Lemma scan_array_stops (chars : str) (idx : nat) (depth : Z) (in_string escape : bool)
    (stop : nat) :
  scan_array chars idx depth in_string escape = Some stop ->
  exists k, stop = (idx + k)%nat /\ chars !! k = Some (ch "]").
Proof.
  revert idx depth in_string escape.
  induction chars as [|c chars IH]; intros idx depth in_string escape; cbn [scan_array];
    [done|].
  assert (Hrec : forall d s e,
             scan_array chars (S idx) d s e = Some stop ->
             exists k, stop = (idx + k)%nat /\ (c :: chars) !! k = Some (ch "]")).
  { intros d s e (k & -> & Hk)%IH. exists (S k). split; [lia|done]. }
  destruct (if (c =? QUOTE) && negb escape then negb in_string else in_string);
    [by apply Hrec|].
  destruct (c =? ch "["); [by apply Hrec|].
  destruct (c =? ch "]") eqn:Ec; [|by apply Hrec].
  destruct (depth - 1 =? 0)%Z; [|by apply Hrec].
  intros [= <-]. exists 0%nat. apply N.eqb_eq in Ec as ->. split; [lia|done].
Qed.

(** X9. What [_find_json_array] returns is a piece of the message: it
    starts at the first opening bracket of the message and ends with a
    closing bracket.  Without an opening bracket it returns nothing. *)
Theorem find_json_array_sound (message snippet : str) :
  _find_json_array message = Some snippet ->
  exists before body after,
    message = before ++ snippet ++ after
    /\ find_char (ch "[") before = None
    /\ snippet = ch "[" :: body ++ [ch "]"].
Proof.
  unfold _find_json_array.
  destruct (find_char (ch "[") message) as [start|] eqn:Hfind; [|done].
  apply find_char_some in Hfind as (before & rest & -> & <- & Hnone).
  rewrite drop_app_length.
  destruct (scan_array _ _ _ _ _) as [stop|] eqn:Hscan; [|done].
  apply scan_array_stops in Hscan as (k & -> & Hk).
  intros [= <-]. unfold slice. rewrite drop_app_length.
  replace (length before + k + 1 - length before)%nat with (S k) by lia.
  destruct k as [|k]; [cbn in Hk; by injection Hk|]. cbn in Hk.
  exists before, (take k rest), (drop (S k) rest). split; [|split; [done|]].
  - f_equal. cbn [take app]. f_equal. by rewrite take_drop.
  - cbn [take]. f_equal. by apply take_S_r.
Qed.

Lemma find_json_array_sound_witness :
  exists before body after,
    pyq "Note: see [ 'a]b', 'c' ] end" = before ++ pyq "[ 'a]b', 'c' ]" ++ after
    /\ find_char (ch "[") before = None
    /\ pyq "[ 'a]b', 'c' ]" = ch "[" :: body ++ [ch "]"].
Proof.
  apply find_json_array_sound. vm_compute. reflexivity.
Defined.

(** ** The engine on every input *)

Section EngineInvariants.
Context `{PyRuntime}.

(** X10. [_pad_missing_items] appends the originals from the position after
    the last item on, and nothing when there are at least as many items as
    originals: it never drops or changes an item. *)
Theorem pad_missing_items_appends_tail (items originals : list str) :
  _pad_missing_items items originals = items ++ drop (length items) originals
  /\ length (_pad_missing_items items originals)
     = Nat.max (length items) (length originals).
Proof.
  assert (E : _pad_missing_items items originals
              = items ++ drop (length items) originals).
  { destruct (decide (length items <= length originals)%nat) as [Hle|Hgt].
    - by apply pad_missing_items_eq.
    - unfold _pad_missing_items.
      replace (length originals - length items)%nat with 0%nat by lia.
      cbn [seq foldl]. rewrite drop_ge by lia. by rewrite app_nil_r. }
  split; [exact E|]. rewrite E, length_app, length_drop. lia.
Qed.

(** X11. [_merge_extra_items] stops at the expected count or at one item,
    whichever is larger, and leaves a list that is not longer than that
    alone. *)
Theorem merge_extra_items_length_formula (items : list str) (expected : nat) :
  length (_merge_extra_items items expected)
  = Nat.min (length items) (Nat.max expected 1).
Proof.
  unfold _merge_extra_items.
  assert (Hgen : forall rounds merged,
             (length merged - Nat.max expected 1 <= rounds)%nat ->
             length (merge_loop rounds merged expected)
             = Nat.min (length merged) (Nat.max expected 1)).
  { induction rounds as [|rounds IH]; intros merged Hr; cbn [merge_loop].
    - lia.
    - destruct (expected <? length merged)%nat eqn:E1; cbn [andb].
      2:{ apply Nat.ltb_ge in E1. lia. }
      destruct (1 <? length merged)%nat eqn:E2.
      2:{ apply Nat.ltb_ge in E2. apply Nat.ltb_lt in E1. lia. }
      apply Nat.ltb_lt in E1, E2.
      pose proof (find_merge_index_in_range merged ltac:(lia)) as Hin.
      pose proof (merge_at_length merged _ Hin) as Hl.
      rewrite IH by lia. lia. }
  apply Hgen. lia.
Qed.

(** X12. The length of what [_reconcile_translation_count] returns: the
    expected count whenever there are originals and the difference is
    within the tolerance, the length of its input otherwise. *)
Theorem reconcile_length (translations originals : list str) :
  length (_reconcile_translation_count translations originals)
  = if (length originals =? 0)%nat
       || (Z.abs (Z.of_nat (length translations) - Z.of_nat (length originals))
           >? tolerance (length originals))%Z
    then length translations
    else length originals.
Proof.
  destruct (length originals =? 0)%nat eqn:E0.
  { unfold _reconcile_translation_count. by rewrite E0. }
  apply Nat.eqb_neq in E0. cbn [orb].
  destruct (Z.abs _ >? _)%Z eqn:Etol.
  { rewrite reconcile_beyond_tolerance; [done|]. by apply Z.gtb_lt in Etol; lia. }
  rewrite Z.gtb_ltb in Etol. apply Z.ltb_ge in Etol.
  destruct (decide (length translations = length originals)) as [Heq|Hne].
  { unfold _reconcile_translation_count.
    assert ((length translations =? length originals)%nat = true) as ->
      by by apply Nat.eqb_eq.
    by rewrite orb_true_r. }
  rewrite reconcile_within_tolerance; [|by destruct originals|done|done].
  destruct (length originals <? length translations)%nat eqn:E.
  - apply Nat.ltb_lt in E. apply merge_extra_items_length. lia.
  - apply Nat.ltb_ge in E. rewrite pad_missing_items_eq by lia.
    rewrite length_app, length_drop. lia.
Qed.

(** *** Merging keeps the text *)

Lemma visible_app (a b : str) : visible (a ++ b) = visible a ++ visible b.
Proof. apply filter_app. Qed.

Lemma visible_whitespace (w : str) : forallb isspace w = true -> visible w = [].
Proof.
  induction w as [|c w IH]; [done|]. cbn [forallb].
  intros [Hc Hw]%andb_prop. unfold visible. rewrite filter_cons.
  destruct (decide (isspace c = false)) as [Hf|_]; [congruence|]. by apply IH.
Qed.

Lemma visible_lstrip (s : str) : visible (lstrip s) = visible s.
Proof.
  destruct (lstrip_split s) as (w & E & Hw). rewrite E at 2.
  by rewrite visible_app, (visible_whitespace w Hw).
Qed.

Lemma visible_rstrip (s : str) : visible (rstrip s) = visible s.
Proof.
  destruct (rstrip_split s) as (w & E & Hw). rewrite E at 2.
  by rewrite visible_app, (visible_whitespace w Hw), app_nil_r.
Qed.

Lemma visible_concat_segments (l r : str) :
  visible (_concat_segments l r) = visible l ++ visible r.
Proof.
  unfold _concat_segments.
  rewrite <- (visible_rstrip l), <- (visible_lstrip r).
  destruct (rstrip l) as [|x l']; [done|].
  destruct (lstrip r) as [|c t]; [by rewrite app_nil_r|].
  destruct (char_in c CLOSING); rewrite !visible_app; [done|].
  f_equal.
Qed.

Lemma visible_merge_at (merged : list str) (idx : nat) :
  concat (visible <$> merge_at merged idx) = concat (visible <$> merged).
Proof.
  destruct (merged !! idx) as [l|] eqn:El.
  2:{ unfold merge_at. by rewrite El. }
  destruct (merged !! S idx) as [r|] eqn:Er.
  2:{ unfold merge_at. by rewrite El, Er. }
  rewrite (merge_at_eq _ _ _ _ El Er).
  rewrite <- (take_drop idx merged) at 3.
  rewrite (drop_S _ _ _ El), (drop_S _ _ _ Er).
  rewrite !fmap_app, !fmap_cons, !concat_app. cbn [concat].
  by rewrite visible_concat_segments, <- app_assoc.
Qed.

Lemma merge_loop_visible (rounds : nat) (items : list str) (expected : nat) :
  concat (visible <$> merge_loop rounds items expected) = concat (visible <$> items).
Proof.
  revert items.
  induction rounds as [|rounds IH]; intros items; cbn [merge_loop]; [done|].
  destruct (_ && _); [|done]. by rewrite IH, visible_merge_at.
Qed.

(** X13. Merging never reorders or loses text: the characters that are not
    whitespace, read through the whole list in order, are the same before
    and after [_merge_extra_items]; and so they are after
    [_reconcile_translation_count] whenever it is given at least as many
    items as there are originals. *)
Theorem merge_keeps_visible_text (items : list str) :
  (forall expected,
     concat (visible <$> _merge_extra_items items expected) = concat (visible <$> items))
  /\ (forall originals,
        (length originals <= length items)%nat ->
        concat (visible <$> _reconcile_translation_count items originals)
        = concat (visible <$> items)).
Proof.
  split.
  - intros expected. apply merge_loop_visible.
  - intros originals Hle. unfold _reconcile_translation_count.
    destruct (_ || _); [done|]. destruct (_ >? _)%Z; [done|].
    destruct (length originals <? length items)%nat eqn:E.
    + apply Nat.ltb_lt in E.
      destruct (length (_merge_extra_items items (length originals)) <? length originals)%nat
        eqn:E2.
      * apply Nat.ltb_lt in E2.
        pose proof (merge_extra_items_length_formula items (length originals)). lia.
      * apply merge_loop_visible.
    + apply Nat.ltb_ge in E.
      assert ((length items <? length originals)%nat = false) as ->
        by (apply Nat.ltb_ge; lia).
      done.
Qed.

End EngineInvariants.

Lemma merge_keeps_visible_text_witness :
  concat (visible <$> _reconcile_translation_count
                        [py "Hello "; py " world ."; py "Goodbye"] [py "a"; py "b"])
  = concat (visible <$> [py "Hello "; py " world ."; py "Goodbye"])
  /\ concat (visible <$> [py "Hello "; py " world ."; py "Goodbye"])
     = py "Helloworld.Goodbye".
Proof.
  split; [|vm_compute; reflexivity].
  apply (merge_keeps_visible_text [py "Hello "; py " world ."; py "Goodbye"]).
  simpl. lia.
Defined.

(** ** The mapping of the translate route *)

Lemma build_mapping_fold_notin (elements : list TextElement) (ts : list str)
    (mapping : gmap str str) (id : str) :
  id ∉ element_id <$> elements ->
  foldl (fun mapping pair => <[element_id pair.1 := pair.2]> mapping) mapping
        (zip elements ts) !! id
  = mapping !! id.
Proof.
  revert ts mapping. induction elements as [|e elements IH]; intros ts mapping Hid.
  - done.
  - destruct ts as [|t ts]; [done|]. cbn [zip zip_with foldl fst snd].
    rewrite fmap_cons in Hid. apply not_elem_of_cons in Hid as [Hne Hid].
    rewrite IH by done. by rewrite lookup_insert_ne.
Qed.

Lemma build_mapping_fold_lookup (elements : list TextElement) (ts : list str)
    (mapping : gmap str str) (i : nat) (e : TextElement) (t : str) :
  NoDup (element_id <$> elements) ->
  elements !! i = Some e -> ts !! i = Some t ->
  foldl (fun mapping pair => <[element_id pair.1 := pair.2]> mapping) mapping
        (zip elements ts) !! element_id e
  = Some t.
Proof.
  revert ts mapping i. induction elements as [|e0 elements IH]; intros ts mapping i Hnd He Ht.
  - done.
  - destruct ts as [|t0 ts]; [done|]. cbn [zip zip_with foldl fst snd].
    rewrite fmap_cons in Hnd. apply NoDup_cons in Hnd as [Hnotin Hnd].
    destruct i as [|i]; cbn in He, Ht.
    + injection He as <-. injection Ht as <-.
      rewrite build_mapping_fold_notin by done. by rewrite lookup_insert_eq.
    + by apply (IH ts _ i).
Qed.

Lemma build_mapping_by_position_lookup (handler : DocumentHandler) (ts : list str) :
  (forall i e t,
     extract_text handler !! i = Some e -> ts !! i = Some t ->
     build_mapping (extract_text handler) ts !! element_id e = Some t)
  /\ (forall id,
        id ∉ element_id <$> extract_text handler ->
        build_mapping (extract_text handler) ts !! id = None).
Proof.
  split.
  - intros i e t He Ht. unfold build_mapping.
    apply (build_mapping_fold_lookup _ _ _ i); [|done|done].
    destruct handler; cbn [extract_text].
    + apply ppt_extract_NoDup.
    + apply doc_extract_NoDup.
    + apply xls_extract_NoDup.
  - intros id Hid. unfold build_mapping.
    by rewrite build_mapping_fold_notin.
Qed.

(** X14. The mapping the translate route builds from the extracted elements
    and the translated texts, paired by position, sends the identifier of
    every element to the translation at the same position, for each of the
    three handlers, and has no other key. *)
Theorem build_mapping_by_position (handler : DocumentHandler) (ts : list str) :
  (forall i e t,
     extract_text handler !! i = Some e -> ts !! i = Some t ->
     build_mapping (extract_text handler) ts !! element_id e = Some t)
  /\ (forall id,
        id ∉ element_id <$> extract_text handler ->
        build_mapping (extract_text handler) ts !! id = None).
Proof. apply build_mapping_by_position_lookup. Qed.

Lemma build_mapping_by_position_witness :
  build_mapping (extract_text (PowerPointHandler example_presentation))
    [py "Titulo"; py "Cuerpo"; py "Izquierda"; py "Derecha"] !! py "ppt_s0_sh1_c0_0"
  = Some (py "Izquierda").
Proof.
  apply (proj1 (build_mapping_by_position (PowerPointHandler example_presentation)
                  [py "Titulo"; py "Cuerpo"; py "Izquierda"; py "Derecha"])
           2%nat {| element_id := py "ppt_s0_sh1_c0_0"; text := py "Left" |}).
  - vm_compute. reflexivity.
  - reflexivity.
Defined.

(** ** Reinsertion followed by extraction *)

Section RoundTrip.
Context `{OfficeLibraries}.
Variable translations : gmap str str.
Variable font_name : option str.

Lemma ppt_replaced_paragraph_text (p p' : PowerPoint.Paragraph) (t : str) :
  PowerPoint._replace_ppt_paragraph p t = Ok p' ->
  pptx_run_text t = Ok (PowerPoint.paragraph_text p').
Proof.
  unfold PowerPoint._replace_ppt_paragraph.
  destruct (pptx_run_text t) as [stored|]; cbn [bind]; [|done].
  intros [= <-]. unfold PowerPoint.paragraph_text. cbn. by rewrite app_nil_r.
Qed.

Lemma ppt_replaced_cell_text (c c' : PowerPoint.Cell) (t : str) :
  PowerPoint._replace_ppt_cell c t = Ok c' ->
  pptx_run_text t = Ok (PowerPoint.cell_text c').
Proof.
  unfold PowerPoint._replace_ppt_cell.
  destruct (PowerPoint._replace_ppt_paragraph _ t) as [p'|] eqn:Ep; cbn [bind]; [|done].
  intros [= <-]. apply ppt_replaced_paragraph_text in Ep. rewrite Ep.
  unfold PowerPoint.cell_text. by cbn.
Qed.

Lemma doc_new_run_text (t : str) (font_name' original_name : option str)
    (original_size : option Z) (run : Word.Run) :
  Word.new_run t font_name' original_name original_size = Ok run ->
  docx_run_text t = Ok (Word.run_text run).
Proof.
  unfold Word.new_run. destruct (docx_run_text t) as [stored|]; cbn [bind]; [|done].
  by intros [= <-].
Qed.

(** The text of a rewritten paragraph: what the paragraph keeps beside
    its runs, then the new run. *)
Lemma doc_replaced_paragraph_kept (p p' : Word.Paragraph) (t : str) :
  Word._replace_paragraph p t font_name = Ok p' ->
  exists stored,
    docx_run_text t = Ok stored
    /\ Word.paragraph_text p'
       = concat (Word.inline_text <$> Word.remove_runs (Word.content p)) ++ stored.
Proof.
  unfold Word._replace_paragraph.
  destruct (Word._get_run_font_attributes _).
  destruct (Word.new_run _ _ _ _) as [run|] eqn:Er; cbn [bind]; [|done].
  intros [= <-]. apply doc_new_run_text in Er. exists (Word.run_text run).
  split; [done|]. unfold Word.paragraph_text. cbn [Word.content].
  rewrite fmap_app, concat_app. cbn. by rewrite app_nil_r.
Qed.

Lemma doc_replaced_paragraph_text (p p' : Word.Paragraph) (t : str) :
  Word._replace_paragraph p t font_name = Ok p' ->
  Word.remove_runs (Word.content p) = [] ->
  docx_run_text t = Ok (Word.paragraph_text p').
Proof.
  intros (stored & Es & Et)%doc_replaced_paragraph_kept Hruns.
  by rewrite Et, Hruns.
Qed.

Lemma doc_replaced_cell_text (default_style : Word.Style) (c c' : Word.Cell) (t : str) :
  Word._replace_cell default_style c t font_name = Ok c' ->
  docx_run_text t = Ok (Word.cell_text c').
Proof.
  unfold Word._replace_cell.
  destruct (Word.scan_cell_fonts _ _ _).
  assert (Hrun : forall name size,
            match Word.new_run t font_name name size with
            | Ok run => Ok {| Word.cell_paragraphs :=
                                [ {| Word.content := [Word.InRun run];
                                     Word.style := default_style |} ] |}
            | Raise e => Raise e
            end = Ok c' ->
            docx_run_text t = Ok (Word.cell_text c')).
  { intros name size E. destruct (Word.new_run _ _ _ _) as [run|] eqn:Er; [|done].
    injection E as <-. apply doc_new_run_text in Er. rewrite Er.
    unfold Word.cell_text, Word.paragraph_text. cbn. by rewrite app_nil_r. }
  destruct (Word.cell_paragraphs c); [apply Hrun|].
  destruct (negb _); apply Hrun.
Qed.

(** The locations of the output presentation. *)
Lemma ppt_location_after (presentation output : PowerPoint.Presentation) (id raw' : str) :
  PowerPoint.apply_translations presentation translations font_name = Ok output ->
  location_text (PowerPointHandler output) id raw'
  <-> exists raw, location_text (PowerPointHandler presentation) id raw
                  /\ text_after pptx_run_text translations id raw = Ok raw'.
Proof.
  intros E. split.
  - intros Hloc.
    remember (PowerPointHandler output) as h eqn:Eh.
    destruct Hloc; try discriminate Eh; injection Eh as ->.
    + pose proof (ppt_apply_paragraph_at _ _ _ _ si shi k E) as Hr.
      unfold rewritten, text_after in *. rewrite H0 in Hr.
      destruct (translations !! _) as [t|].
      * destruct (ppt_paragraph_at presentation si shi k) as [p0|] eqn:Ep; [|done].
        destruct Hr as (p' & Hp' & [= <-]). exists (PowerPoint.paragraph_text p0).
        split; [by constructor|by apply ppt_replaced_paragraph_text in Hp'].
      * assert (ppt_paragraph_at presentation si shi k = Some p) as Hp
          by (by destruct (ppt_paragraph_at presentation si shi k)).
        exists (PowerPoint.paragraph_text p). split; [by constructor|done].
    + pose proof (ppt_apply_cell_at _ _ _ _ si shi r c E) as Hr.
      unfold rewritten, text_after in *. rewrite H0 in Hr.
      destruct (translations !! _) as [t|].
      * destruct (ppt_cell_at presentation si shi r c) as [c0|] eqn:Ec; [|done].
        destruct Hr as (c' & Hc' & [= <-]). exists (PowerPoint.cell_text c0).
        split; [by constructor|by apply ppt_replaced_cell_text in Hc'].
      * assert (ppt_cell_at presentation si shi r c = Some cell) as Hc
          by (by destruct (ppt_cell_at presentation si shi r c)).
        exists (PowerPoint.cell_text cell). split; [by constructor|done].
  - intros (raw & Hloc & Hafter).
    remember (PowerPointHandler presentation) as h eqn:Eh.
    destruct Hloc; try discriminate Eh; injection Eh as ->; unfold text_after in Hafter.
    + pose proof (ppt_apply_paragraph_at _ _ _ _ si shi k E) as Hr.
      unfold rewritten in Hr. rewrite H0 in Hr.
      destruct (translations !! _) as [t|] eqn:Et.
      * destruct Hr as (p' & Hp' & Hout). apply ppt_replaced_paragraph_text in Hp'.
        rewrite Hafter in Hp'. injection Hp' as ->. by constructor.
      * injection Hafter as <-. by constructor.
    + pose proof (ppt_apply_cell_at _ _ _ _ si shi r c E) as Hr.
      unfold rewritten in Hr. rewrite H0 in Hr.
      destruct (translations !! _) as [t|] eqn:Et.
      * destruct Hr as (c' & Hc' & Hout). apply ppt_replaced_cell_text in Hc'.
        rewrite Hafter in Hc'. injection Hc' as ->. by constructor.
      * injection Hafter as <-. by constructor.
Qed.

Lemma doc_cell_at_place (document : Word.Document) (t r c : nat) (cell : Word.Cell) :
  doc_cell_at document t r c = Some cell ->
  exists place, doc_cell_place document t r c = Some place.
Proof.
  unfold doc_cell_at. destruct (Word.tables document !! t); [|done].
  destruct (doc_cell_place document t r c); [eauto|done].
Qed.

Lemma doc_location_after (default_style : Word.Style) (document output : Word.Document)
    (id raw' : str) :
  Word.apply_translations default_style document translations font_name = Ok output ->
  paragraphs_of_runs document ->
  no_merged_cells document ->
  location_text (WordHandler output) id raw'
  <-> exists raw, location_text (WordHandler document) id raw
                  /\ text_after docx_run_text translations id raw = Ok raw'.
Proof.
  intros E Hruns Hunshared. split.
  - intros Hloc.
    remember (WordHandler output) as h eqn:Eh.
    destruct Hloc; try discriminate Eh; injection Eh as ->.
    + pose proof (doc_apply_paragraph_at _ _ _ _ _ k E) as Hr.
      unfold rewritten, text_after in *. rewrite H0 in Hr.
      destruct (translations !! _) as [t|].
      * destruct (doc_paragraph_at document k) as [p0|] eqn:Ep; [|done].
        destruct Hr as (p' & Hp' & [= <-]). exists (Word.paragraph_text p0).
        split; [by constructor|].
        by apply doc_replaced_paragraph_text in Hp'; [|apply (Hruns k)].
      * assert (doc_paragraph_at document k = Some p) as Hp
          by (by destruct (doc_paragraph_at document k)).
        exists (Word.paragraph_text p). split; [by constructor|done].
    + destruct (doc_cell_at_place _ _ _ _ _ H0) as [place Hplace].
      rewrite (doc_apply_place _ _ _ _ _ _ _ _ E) in Hplace.
      pose proof (doc_apply_cell_at _ _ _ _ _ t r c place E Hplace
                    (fun r' c' => Hunshared t r c r' c' place Hplace)) as Hr.
      unfold rewritten, text_after in *. rewrite H0 in Hr.
      destruct (translations !! _) as [t0|].
      * destruct (doc_cell_at document t r c) as [c0|] eqn:Ec; [|done].
        destruct Hr as (c' & Hc' & [= <-]). exists (Word.cell_text c0).
        split; [by constructor|by apply doc_replaced_cell_text in Hc'].
      * assert (doc_cell_at document t r c = Some cell) as Hc
          by (by destruct (doc_cell_at document t r c)).
        exists (Word.cell_text cell). split; [by constructor|done].
  - intros (raw & Hloc & Hafter).
    remember (WordHandler document) as h eqn:Eh.
    destruct Hloc; try discriminate Eh; injection Eh as ->; unfold text_after in Hafter.
    + pose proof (doc_apply_paragraph_at _ _ _ _ _ k E) as Hr.
      unfold rewritten in Hr. rewrite H0 in Hr.
      destruct (translations !! _) as [t|] eqn:Et.
      * destruct Hr as (p' & Hp' & Hout).
        apply doc_replaced_paragraph_text in Hp'; [|by apply (Hruns k)].
        rewrite Hafter in Hp'. injection Hp' as ->. by constructor.
      * injection Hafter as <-. by constructor.
    + destruct (doc_cell_at_place _ _ _ _ _ H0) as [place Hplace].
      pose proof (doc_apply_cell_at _ _ _ _ _ t r c place E Hplace
                    (fun r' c' => Hunshared t r c r' c' place Hplace)) as Hr.
      unfold rewritten in Hr. rewrite H0 in Hr.
      destruct (translations !! _) as [t0|] eqn:Et.
      * destruct Hr as (c' & Hc' & Hout). apply doc_replaced_cell_text in Hc'.
        rewrite Hafter in Hc'. injection Hc' as ->. by constructor.
      * injection Hafter as <-. by constructor.
Qed.

End RoundTrip.

(** A location whose stripped text is not empty is emitted. *)
Lemma location_emitted (handler : DocumentHandler) (id raw : str) :
  location_text handler id raw -> strip raw <> [] ->
  {| element_id := id; text := strip raw |} ∈ extract_text handler.
Proof.
  assert (Hemit : forall i r, strip r <> [] ->
             {| element_id := i; text := strip r |} ∈ emit i r).
  { intros i r Hr. unfold emit. destruct (strip r); [done|].
    by apply list_elem_of_singleton. }
  intros Hloc Hne. destruct Hloc; cbn [extract_text].
  - unfold ppt_paragraph_at, ppt_shape_at in H.
    destruct (presentation !! si) as [slide|] eqn:Es; [|done].
    destruct (slide !! shi) as [shape|] eqn:Esh; [|done].
    destruct (PowerPoint.text_frame shape) as [ps|] eqn:Etf; [|done].
    apply elem_of_for_each. exists si, slide. split; [done|].
    apply elem_of_for_each. exists shi, shape. split; [done|].
    unfold PowerPoint._extract_from_shape. rewrite Etf. apply elem_of_app. left.
    apply elem_of_for_each. exists k, p. split; [done|]. by apply Hemit.
  - unfold ppt_cell_at, ppt_shape_at in H.
    destruct (presentation !! si) as [slide|] eqn:Es; [|done].
    destruct (slide !! shi) as [shape|] eqn:Esh; [|done].
    destruct (PowerPoint.table shape) as [rows|] eqn:Etb; [|done].
    destruct (rows !! r) as [row|] eqn:Er; [|done].
    apply elem_of_for_each. exists si, slide. split; [done|].
    apply elem_of_for_each. exists shi, shape. split; [done|].
    unfold PowerPoint._extract_from_shape. rewrite Etb. apply elem_of_app. right.
    apply elem_of_for_each. exists r, row. split; [done|].
    apply elem_of_for_each. exists c, cell. split; [done|]. by apply Hemit.
  - unfold Word.extract_text. apply elem_of_app. left.
    apply elem_of_for_each. exists k, p. split; [done|]. by apply Hemit.
  - unfold doc_cell_at, doc_cell_place in H.
    destruct (Word.tables document !! t) as [table|] eqn:Et; [|done].
    destruct (Word.table_rows table !! r) as [row|] eqn:Er; [|done].
    destruct (row !! c) as [place|] eqn:Ec; [|done].
    unfold Word.extract_text. apply elem_of_app. right.
    apply elem_of_for_each. exists t, table. split; [done|].
    apply elem_of_for_each. exists r, row. split; [done|].
    apply elem_of_for_each. exists c, place. split; [done|].
    rewrite H. by apply Hemit.
  - apply xls_extract_elem. by exists si, r, c, cell, s.
Qed.

Lemma extract_text_elem (handler : DocumentHandler) (e : TextElement) :
  e ∈ extract_text handler <->
  exists raw, location_text handler (element_id e) raw
              /\ strip raw <> [] /\ e = {| element_id := element_id e; text := strip raw |}.
Proof.
  split.
  - intros (raw & Hloc & Ht & Hne)%extract_text_location.
    exists raw. split; [done|]. split; [done|]. destruct e; cbn in *. by subst.
  - intros (raw & Hloc & Hne & ->). by apply location_emitted.
Qed.

(** The elements of the output document, by the locations of the source. *)
Lemma extract_after_apply_elem `{OfficeLibraries} (translations : gmap str str)
    (font_name : option str) (e : TextElement) :
  (forall presentation output,
     PowerPoint.apply_translations presentation translations font_name = Ok output ->
     e ∈ PowerPoint.extract_text output
     <-> exists id raw after,
           location_text (PowerPointHandler presentation) id raw
           /\ text_after pptx_run_text translations id raw = Ok after
           /\ strip after <> []
           /\ e = {| element_id := id; text := strip after |})
  /\ (forall default_style document output,
        Word.apply_translations default_style document translations font_name = Ok output ->
        paragraphs_of_runs document ->
        no_merged_cells document ->
        e ∈ Word.extract_text output
        <-> exists id raw after,
              location_text (WordHandler document) id raw
              /\ text_after docx_run_text translations id raw = Ok after
              /\ strip after <> []
              /\ e = {| element_id := id; text := strip after |}).
Proof.
  split.
  - intros presentation output E.
    change (PowerPoint.extract_text ?d) with (extract_text (PowerPointHandler d)).
    rewrite extract_text_elem. split.
    + intros (raw' & Hloc & Hne & ->). cbn [element_id] in *.
      apply (ppt_location_after _ _ _ _ _ _ E) in Hloc as (raw & Hloc & Hafter).
      by exists (element_id e), raw, raw'.
    + intros (id & raw & after & Hloc & Hafter & Hne & ->). cbn [element_id].
      exists after. split; [|done].
      apply (ppt_location_after _ _ _ _ _ _ E). by exists raw.
  - intros default_style document output E Hruns Hunshared.
    change (Word.extract_text ?d) with (extract_text (WordHandler d)).
    rewrite extract_text_elem. split.
    + intros (raw' & Hloc & Hne & ->). cbn [element_id] in *.
      apply (doc_location_after _ _ _ _ _ _ _ E Hruns Hunshared) in Hloc
        as (raw & Hloc & Hafter).
      by exists (element_id e), raw, raw'.
    + intros (id & raw & after & Hloc & Hafter & Hne & ->). cbn [element_id].
      exists after. split; [|done].
      apply (doc_location_after _ _ _ _ _ _ _ E Hruns Hunshared). by exists raw.
Qed.

(** X15. Extraction after reinsertion, for presentations, and for Word
    documents without merged cells whose body paragraphs hold only runs:
    whenever [apply_translations] completes, the output document yields,
    for every location of the
    source, the stripped text that the library stored for the translation
    mapped to its identifier, or its own stripped text when the identifier
    is not mapped, and yields nothing else; a location left with blank
    text yields no element. *)
Theorem extract_after_apply `{OfficeLibraries} (translations : gmap str str)
    (font_name : option str) (e : TextElement) :
  (forall presentation output,
     PowerPoint.apply_translations presentation translations font_name = Ok output ->
     e ∈ PowerPoint.extract_text output
     <-> exists id raw after,
           location_text (PowerPointHandler presentation) id raw
           /\ text_after pptx_run_text translations id raw = Ok after
           /\ strip after <> []
           /\ e = {| element_id := id; text := strip after |})
  /\ (forall default_style document output,
        Word.apply_translations default_style document translations font_name = Ok output ->
        paragraphs_of_runs document ->
        no_merged_cells document ->
        e ∈ Word.extract_text output
        <-> exists id raw after,
              location_text (WordHandler document) id raw
              /\ text_after docx_run_text translations id raw = Ok after
              /\ strip after <> []
              /\ e = {| element_id := id; text := strip after |}).
Proof. apply extract_after_apply_elem. Qed.

(** The example document has body paragraphs of runs and no merged cell. *)
Lemma example_document_of_runs : paragraphs_of_runs example_document.
Proof.
  intros k p Hp. destruct k as [|[|k]]; [by injection Hp as <-..|discriminate Hp].
Qed.

Lemma example_document_unmerged : no_merged_cells example_document.
Proof.
  intros t r c r' c' place Hplace Hplace'.
  destruct t as [|t]; [|discriminate Hplace].
  destruct r as [|r]; [|by destruct r].
  destruct r' as [|r']; [|by destruct r'].
  destruct c as [|[|c]], c' as [|[|c']]; try done;
    injection Hplace as <-; discriminate Hplace'.
Qed.

Lemma extract_after_apply_witness :
  (exists output,
     PowerPoint.apply_translations example_presentation example_mapping None = Ok output
     /\ {| element_id := py "ppt_s0_sh0_p0"; text := py "Titulo" |}
        ∈ PowerPoint.extract_text output)
  /\ (exists output,
        Word.apply_translations normal_style example_document example_mapping None = Ok output
        /\ {| element_id := py "doc_t0_r0_c0"; text := py "Uno" |}
           ∈ Word.extract_text output).
Proof.
  split.
  - destruct (PowerPoint.apply_translations example_presentation example_mapping None)
      as [output|] eqn:E; [|vm_compute in E; discriminate].
    exists output. split; [reflexivity|].
    apply (proj1 (extract_after_apply example_mapping None _) example_presentation output E).
    exists (PowerPoint._paragraph_id 0 0 0),
      (PowerPoint.paragraph_text (plain_paragraph (py "Title"))), (py "Titulo").
    split; [|split; [|split]].
    + by apply (ppt_paragraph_text example_presentation 0 0 0)%nat.
    + vm_compute. reflexivity.
    + vm_compute. discriminate.
    + vm_compute. reflexivity.
  - destruct (Word.apply_translations normal_style example_document example_mapping None)
      as [output|] eqn:E; [|vm_compute in E; discriminate].
    exists output. split; [reflexivity|].
    apply (proj2 (extract_after_apply example_mapping None _) normal_style example_document
             output E example_document_of_runs example_document_unmerged).
    exists (Word._cell_id 0 0 0),
      (Word.cell_text {| Word.cell_paragraphs := [word_paragraph (py "One")] |}), (py "Uno").
    split; [|split; [|split]].
    + by apply (doc_cell_text example_document 0 0 0)%nat.
    + vm_compute. reflexivity.
    + vm_compute. discriminate.
    + vm_compute. reflexivity.
Defined.

(** ** The translate route: extraction, mapping, reinsertion *)

Section Pipeline.
Variable stored : str -> result str.

(** What the mapping built by position does to a location of the source. *)
Lemma pipeline_text_after (handler : DocumentHandler) (ts : list str) (id raw : str) :
  length ts = length (extract_text handler) ->
  location_text handler id raw ->
  (strip raw <> [] /\
   exists i t, extract_text handler !! i
               = Some {| element_id := id; text := strip raw |}
               /\ ts !! i = Some t
               /\ text_after stored (build_mapping (extract_text handler) ts) id raw
                  = stored t)
  \/ (strip raw = [] /\
      text_after stored (build_mapping (extract_text handler) ts) id raw = Ok raw).
Proof.
  intros Hlen Hloc.
  destruct (decide (strip raw = [])) as [Hblank|Hne].
  - right. split; [done|]. unfold text_after.
    rewrite (proj2 (build_mapping_by_position_lookup handler ts)); [done|].
    intros (e & -> & He)%list_elem_of_fmap.
    apply extract_text_location in He as (raw' & Hloc' & _ & Hne').
    by rewrite (location_text_functional _ _ _ _ Hloc' Hloc) in Hne'.
  - left. split; [done|].
    pose proof (location_emitted _ _ _ Hloc Hne) as He.
    apply list_elem_of_lookup in He as [i Hi].
    destruct (lookup_lt_is_Some_2 ts i) as [t Ht].
    { rewrite Hlen. by apply lookup_lt_Some in Hi. }
    exists i, t. split; [done|]. split; [done|].
    unfold text_after.
    pose proof (proj1 (build_mapping_by_position_lookup handler ts) i _ t Hi Ht) as Hm.
    cbn [element_id] in Hm. by rewrite Hm.
Qed.

Lemma pipeline_elements (handler : DocumentHandler) (ts : list str) (e' : TextElement) :
  length ts = length (extract_text handler) ->
  (exists id raw after,
     location_text handler id raw
     /\ text_after stored (build_mapping (extract_text handler) ts) id raw = Ok after
     /\ strip after <> []
     /\ e' = {| element_id := id; text := strip after |})
  <-> (exists i e t after,
         extract_text handler !! i = Some e /\ ts !! i = Some t
         /\ stored t = Ok after
         /\ strip after <> [] /\ e' = {| element_id := element_id e; text := strip after |}).
Proof.
  intros Hlen. split.
  - intros (id & raw & after & Hloc & Hafter & Hne & ->).
    destruct (pipeline_text_after handler ts id raw Hlen Hloc)
      as [(_ & i & t & Hi & Ht & Et)|(Hblank & Et)].
    + rewrite Et in Hafter.
      by exists i, {| element_id := id; text := strip raw |}, t, after.
    + rewrite Et in Hafter. injection Hafter as <-. done.
  - intros (i & e & t & after & Hi & Ht & Hafter & Hne & ->).
    assert (He : e ∈ extract_text handler) by (apply list_elem_of_lookup; eauto).
    apply extract_text_elem in He as (raw & Hloc & Hraw & Ee).
    exists (element_id e), raw, after. split; [done|]. split; [|done].
    unfold text_after.
    by rewrite (proj1 (build_mapping_by_position_lookup handler ts) i e t Hi Ht).
Qed.

End Pipeline.

(** X16. The translate route on a presentation, or on a Word document
    without merged cells whose body paragraphs hold only runs: extracting,
    pairing the elements with as many
    translations by position, and reinserting gives, whenever the
    reinsertion completes, a document from which extraction returns
    exactly the identifiers of the source elements, each with the stripped
    text that the library stored for its translation (a translation
    stored as blank text yields no element). *)
Theorem translate_route_round_trip `{OfficeLibraries} (font_name : option str)
    (ts : list str) (e' : TextElement) :
  (forall presentation output,
     length ts = length (PowerPoint.extract_text presentation) ->
     PowerPoint.apply_translations presentation
       (build_mapping (PowerPoint.extract_text presentation) ts) font_name = Ok output ->
     e' ∈ PowerPoint.extract_text output
     <-> exists i e t after,
           PowerPoint.extract_text presentation !! i = Some e /\ ts !! i = Some t
           /\ pptx_run_text t = Ok after
           /\ strip after <> []
           /\ e' = {| element_id := element_id e; text := strip after |})
  /\ (forall default_style document output,
        length ts = length (Word.extract_text document) ->
        Word.apply_translations default_style document
          (build_mapping (Word.extract_text document) ts) font_name = Ok output ->
        paragraphs_of_runs document ->
        no_merged_cells document ->
        e' ∈ Word.extract_text output
        <-> exists i e t after,
              Word.extract_text document !! i = Some e /\ ts !! i = Some t
              /\ docx_run_text t = Ok after
              /\ strip after <> []
              /\ e' = {| element_id := element_id e; text := strip after |}).
Proof.
  split.
  - intros presentation output Hlen E.
    rewrite (proj1 (extract_after_apply_elem _ font_name e') presentation output E).
    by apply (pipeline_elements pptx_run_text (PowerPointHandler presentation)).
  - intros default_style document output Hlen E Hruns Hunshared.
    rewrite (proj2 (extract_after_apply_elem _ font_name e') default_style document output
               E Hruns Hunshared).
    by apply (pipeline_elements docx_run_text (WordHandler document)).
Qed.

Lemma translate_route_round_trip_witness :
  (exists output,
     PowerPoint.apply_translations example_presentation
       (build_mapping (PowerPoint.extract_text example_presentation)
          [py "Titulo"; py "Cuerpo"; py "Izquierda"; py " Derecha "]) None = Ok output
     /\ {| element_id := py "ppt_s0_sh1_c0_1"; text := py "Derecha" |}
        ∈ PowerPoint.extract_text output)
  /\ (exists output,
        Word.apply_translations normal_style example_document
          (build_mapping (Word.extract_text example_document)
             [py "Encabezado"; py "Texto"; py "Uno"; py "Dos"]) None = Ok output
        /\ {| element_id := py "doc_p1"; text := py "Texto" |} ∈ Word.extract_text output).
Proof.
  split.
  - destruct (PowerPoint.apply_translations example_presentation
                (build_mapping (PowerPoint.extract_text example_presentation)
                   [py "Titulo"; py "Cuerpo"; py "Izquierda"; py " Derecha "]) None)
      as [output|] eqn:E; [|vm_compute in E; discriminate].
    exists output. split; [reflexivity|].
    apply (proj1 (translate_route_round_trip None
                    [py "Titulo"; py "Cuerpo"; py "Izquierda"; py " Derecha "] _)
             example_presentation output ltac:(vm_compute; reflexivity) E).
    exists 3%nat, {| element_id := py "ppt_s0_sh1_c0_1"; text := py "Right" |},
      (py " Derecha "), (py " Derecha ").
    split; [vm_compute; reflexivity|]. split; [reflexivity|].
    split; [vm_compute; reflexivity|].
    split; [vm_compute; discriminate|vm_compute; reflexivity].
  - destruct (Word.apply_translations normal_style example_document
                (build_mapping (Word.extract_text example_document)
                   [py "Encabezado"; py "Texto"; py "Uno"; py "Dos"]) None)
      as [output|] eqn:E; [|vm_compute in E; discriminate].
    exists output. split; [reflexivity|].
    apply (proj2 (translate_route_round_trip None
                    [py "Encabezado"; py "Texto"; py "Uno"; py "Dos"] _)
             normal_style example_document output ltac:(vm_compute; reflexivity) E
             example_document_of_runs example_document_unmerged).
    exists 1%nat, {| element_id := py "doc_p1"; text := py "Text" |},
      (py "Texto"), (py "Texto").
    split; [vm_compute; reflexivity|]. split; [reflexivity|].
    split; [vm_compute; reflexivity|].
    split; [vm_compute; discriminate|vm_compute; reflexivity].
Defined.

(** ** Fonts of a rewritten Word paragraph *)

Section WordFonts.
Import Word.

(** X17. [_get_run_font_attributes] returns the name and the size of the
    first run that has a font name or a font size, both taken from that
    one run, and a pair of [None] when no run has either. *)
Theorem get_run_font_attributes_first (runs : list Run) :
  (Forall (fun run => has_font run = false) runs
   /\ _get_run_font_attributes runs = (None, None))
  \/ (exists before run after,
        runs = before ++ run :: after
        /\ Forall (fun r => has_font r = false) before
        /\ has_font run = true
        /\ _get_run_font_attributes runs
           = (f_name (run_font run), f_size (run_font run))).
Proof.
  induction runs as [|run runs IH].
  - left. by split.
  - cbn [_get_run_font_attributes]. destruct (has_font run) eqn:Hf.
    + right. exists [], run, runs. unfold has_font in Hf. rewrite Hf. by repeat split.
    + unfold has_font in Hf. rewrite Hf.
      destruct IH as [[Hall E]|(before & r & after & -> & Hall & Hr & E)].
      * left. split; [|done]. by constructor.
      * right. exists (run :: before), r, after. repeat split; try done.
        by constructor.
Qed.

(** A rewritten paragraph has one run, the new one, and keeps what the
    paragraph held beside its runs. *)
Lemma runs_of_rewritten (items : list Inline) (run : Run) (st : Style) :
  runs {| content := remove_runs items ++ [InRun run]; style := st |} = [run].
Proof.
  unfold runs. cbn [content]. induction items as [|[r|other] items IH]; [done|..];
    cbn [remove_runs List.filter app omap list_omap] in *; done.
Qed.

Lemma remove_runs_rewritten (items : list Inline) (run : Run) :
  remove_runs (remove_runs items ++ [InRun run]) = remove_runs items.
Proof.
  induction items as [|[r|other] items IH]; [done|..];
    cbn [remove_runs List.filter app] in *; [done|]. by f_equal.
Qed.

(** X18. Translating a paragraph that was already rewritten gives the
    formatting that translating the original gives: the font name and the
    size that [_replace_paragraph] discovered and wrote on the single run
    are the ones it discovers again. *)
Theorem replace_paragraph_stable `{OfficeLibraries} (paragraph rewritten_once : Paragraph)
    (t t' : str) (font_name : option str) :
  _replace_paragraph paragraph t font_name = Ok rewritten_once ->
  _replace_paragraph rewritten_once t' font_name
  = _replace_paragraph paragraph t' font_name.
Proof.
  unfold _replace_paragraph at 1 3.
  destruct (_get_run_font_attributes (runs paragraph)) as [n0 s0].
  destruct paragraph as [rs [[sn ss]]]. cbn [style style_font f_name f_size content].
  unfold new_run at 1.
  destruct (docx_run_text t) as [stored|]; cbn [bind]; [|done].
  intros [= <-].
  unfold _replace_paragraph, new_run.
  rewrite runs_of_rewritten. cbn [content]. rewrite remove_runs_rewritten.
  cbn [style style_font f_name f_size _get_run_font_attributes run_font].
  destruct font_name as [[|fc fl]|], n0 as [[|nc nl]|], sn as [[|sc sl]|];
    destruct s0 as [z0|], ss as [zs|];
    try destruct (z0 =? 0)%Z eqn:E0; try destruct (zs =? 0)%Z eqn:Es;
    repeat first
      [ progress cbn [truthy truthy_size negb andb orb]
      | match goal with
        | E : (_ =? 0)%Z = _ |- _ => rewrite E
        end ];
    reflexivity.
Qed.

End WordFonts.

Lemma replace_paragraph_stable_witness :
  exists rewritten_once,
    Word._replace_paragraph linked_paragraph (py "Ver") None = Ok rewritten_once
    /\ Word.paragraph_text rewritten_once = py "the siteVer"
    /\ Word._replace_paragraph rewritten_once (py "Vea") None
       = Word._replace_paragraph linked_paragraph (py "Vea") None.
Proof.
  destruct (Word._replace_paragraph linked_paragraph (py "Ver") None)
    as [rewritten_once|] eqn:E; [|vm_compute in E; discriminate].
  exists rewritten_once. split; [reflexivity|]. split.
  - vm_compute in E. injection E as <-. vm_compute. reflexivity.
  - exact (replace_paragraph_stable _ _ _ (py "Vea") _ E).
Defined.

(** ** The translate route on a workbook *)

(** X19. The translate route on a workbook: with as many translations as
    extracted elements, whenever the reinsertion completes, every cell
    that reports text when loaded with cached values holds what
    [write_cell] makes of the translation at the position of its element,
    that is the value the library stored for it, also when the file holds
    a formula there; every other cell is left as loaded, formulas
    included. *)
Theorem excel_route_cells `{OfficeLibraries} (file : Excel.File) (output : Excel.Workbook)
    (ts : list str) (font_name : option str) (si r c : nat) (cell : Excel.StoredCell) :
  length ts = length (Excel.extract_text file) ->
  Excel.apply_translations file (build_mapping (Excel.extract_text file) ts) font_name
  = Ok output ->
  stored_cell_at file si r c = Some cell ->
  (forall s,
     data_only_value cell = Excel.VString s -> strip s <> [] ->
     exists i t written kept,
       Excel.extract_text file !! i
       = Some {| element_id := Excel._cell_id si (S r) (S c); text := strip s |}
       /\ ts !! i = Some t
       /\ Excel.write_cell font_name (Excel.load_cell false r c cell) t = Ok written
       /\ xlsx_cell_value t = Ok kept
       /\ Excel.value_of written = Excel.VString kept
       /\ xls_cell_at output si r c = Some written)
  /\ ((forall s, data_only_value cell = Excel.VString s -> strip s = []) ->
      xls_cell_at output si r c = Some (Excel.load_cell false r c cell)).
Proof.
  intros Hlen E Hcell.
  pose proof (xls_apply_cell_at _ font_name file output si r c E) as Hr.
  rewrite xls_loaded_cell_at, Hcell in Hr. unfold rewritten in Hr.
  cbn [fmap option_fmap option_map] in Hr. split.
  - intros s Hv Hne.
    pose proof (location_emitted (ExcelHandler file) _ _
                  (xls_cell_text file si r c cell s Hcell Hv) Hne) as He.
    apply list_elem_of_lookup in He as [i Hi].
    destruct (lookup_lt_is_Some_2 ts i) as [t Ht].
    { rewrite Hlen. by apply lookup_lt_Some in Hi. }
    pose proof (proj1 (build_mapping_by_position_lookup (ExcelHandler file) ts)
                  i _ t Hi Ht) as Hm.
    cbn [element_id extract_text] in Hm. rewrite Hm in Hr.
    destruct Hr as (written & Hw & Hout).
    assert (exists kept, xlsx_cell_value t = Ok kept
                         /\ Excel.value_of written = Excel.VString kept) as (kept & Hk & Hval).
    { unfold Excel.write_cell in Hw.
      destruct (Excel.is_merged_cell _); [done|].
      destruct (xlsx_cell_value t) as [kept|]; cbn [bind] in Hw; [|done].
      injection Hw as <-. by exists kept. }
    by exists i, t, written, kept.
  - intros Hblank.
    pose proof (proj2 (build_mapping_by_position_lookup (ExcelHandler file) ts)
                  (Excel._cell_id si (S r) (S c))) as Hm.
    cbn [extract_text] in Hm. rewrite Hm in Hr; [done|].
    intros (e & Eid & He)%list_elem_of_fmap.
    apply xls_extract_elem in He as (si' & r' & c' & cell' & s & Hat & Hv & Hne & ->).
    cbn [element_id] in Eid. apply xls_cell_id_inj in Eid as (-> & Er & Ec).
    injection Er as ->. injection Ec as ->.
    rewrite Hcell in Hat. injection Hat as <-. by apply Hne, Hblank.
Qed.

Lemma excel_route_cells_witness :
  exists output,
    Excel.apply_translations formula_file
      (build_mapping (Excel.extract_text formula_file) [py "Suma"]) None = Ok output
    /\ exists i t written kept,
         Excel.extract_text formula_file !! i
         = Some {| element_id := Excel._cell_id 0 1 2; text := strip (py "Total") |}
         /\ [py "Suma"] !! i = Some t
         /\ Excel.write_cell None
              (Excel.load_cell false 0 1
                 {| Excel.stored_content :=
                      Excel.Formula (py "=IF(A1>2, 'Total', 'None')")
                        (Excel.VString (py "Total"));
                    Excel.stored_font := plain_font |}) t = Ok written
         /\ xlsx_cell_value t = Ok kept
         /\ Excel.value_of written = Excel.VString kept
         /\ xls_cell_at output 0 0 1 = Some written.
Proof.
  destruct (Excel.apply_translations formula_file
              (build_mapping (Excel.extract_text formula_file) [py "Suma"]) None)
    as [output|] eqn:E; [|vm_compute in E; discriminate].
  exists output. split; [reflexivity|].
  apply (proj1 (excel_route_cells formula_file output [py "Suma"] None 0 0 1 _
                  ltac:(vm_compute; reflexivity) E ltac:(reflexivity))
           (py "Total")).
  - reflexivity.
  - vm_compute. discriminate.
Defined.

(** ** Language detection *)

(** X20. [_detect_language] returns the tag of the first element in which
    the detector finds a language, skipping the elements on which it raises
    or returns an empty tag, and [None] when there is no such element. *)
Theorem detect_language_first (detect : str -> option str) (elements : list TextElement) :
  (Forall (undetected detect) elements /\ _detect_language detect elements = None)
  \/ (exists before element after tag,
        elements = before ++ element :: after
        /\ Forall (undetected detect) before
        /\ detect (text element) = Some tag /\ tag <> []
        /\ _detect_language detect elements = Some tag).
Proof.
  induction elements as [|element elements IH].
  - left. by split.
  - cbn [_detect_language].
    destruct (detect (text element)) as [[|c tag]|] eqn:Ed.
    + destruct IH as [[Hall E]|(before & e & after & tag & -> & Hall & Hd & Hne & E)].
      * left. split; [|done]. constructor; [by right|done].
      * right. exists (element :: before), e, after, tag.
        repeat split; try done. constructor; [by right|done].
    + right. by exists [], element, elements, (c :: tag).
    + destruct IH as [[Hall E]|(before & e & after & tag & -> & Hall & Hd & Hne & E)].
      * left. split; [|done]. constructor; [by left|done].
      * right. exists (element :: before), e, after, tag.
        repeat split; try done. constructor; [by left|done].
Qed.

(** ** The registry of files *)

(** X21. After any sequence of [add], [get] returns the record added last
    under the identifier asked for, and what the registry held before when
    none was added under it: a later record replaces an earlier one with
    the same identifier. *)
Theorem registry_get_last_added (registry : FileRegistry.t) (records : list FileRecord)
    (id : str) :
  FileRegistry.get (foldl FileRegistry.add registry records) id
  = match last (filter (fun record => file_id record = id) records) with
    | Some record => Some record
    | None => FileRegistry.get registry id
    end.
Proof.
  induction records as [|record records IH] using rev_ind; [done|].
  rewrite foldl_app, filter_app. cbn [foldl]. unfold FileRegistry.get, FileRegistry.add.
  rewrite filter_cons, filter_nil. destruct (decide (file_id record = id)) as [<-|Hne].
  - by rewrite last_snoc, lookup_insert_eq.
  - rewrite app_nil_r, lookup_insert_ne by done. apply IH.
Qed.

(** ** The list of allowed extensions *)

Lemma split_comma_cons (value : str) : exists item items, split_comma value = item :: items.
Proof.
  destruct value as [|c rest]; cbn [split_comma]; [by eexists _, _|].
  destruct (c =? ch ","); [by eexists _, _|].
  destruct (split_comma rest); by eexists _, _.
Qed.

Lemma split_comma_join (value : str) : join (py ",") (split_comma value) = value.
Proof.
  induction value as [|c rest IH]; [done|]. cbn [split_comma].
  destruct (split_comma_cons rest) as (item & items & E). rewrite E in *.
  destruct (N.eqb_spec c (ch ",")) as [->|Hne].
  - change (join (py ",") ([] :: item :: items))
      with (py "," ++ join (py ",") (item :: items)).
    by rewrite IH.
  - destruct items as [|item' items]; cbn [join] in *; by rewrite <- IH.
Qed.

Lemma split_comma_no_comma (value item : str) :
  item ∈ split_comma value -> ch "," ∉ item.
Proof.
  revert item. induction value as [|c rest IH]; intros item; cbn [split_comma].
  - intros ->%list_elem_of_singleton. apply not_elem_of_nil.
  - destruct (N.eqb_spec c (ch ",")) as [->|Hne].
    + intros [->|Hin]%elem_of_cons; [apply not_elem_of_nil|by apply IH].
    + destruct (split_comma rest) as [|item0 items].
      * intros ->%list_elem_of_singleton. intros [?|[]%elem_of_nil]%elem_of_cons. done.
      * intros [->|Hin]%elem_of_cons.
        -- intros [?|Hc]%elem_of_cons; [done|]. revert Hc. apply IH. by left.
        -- apply IH. by right.
Qed.

Lemma strip_elem (s : str) (c : char) : c ∈ strip s -> c ∈ s.
Proof.
  unfold strip. intros Hc.
  destruct (lstrip_split s) as (w & E & _).
  destruct (rstrip_split (lstrip s)) as (w' & E' & _).
  rewrite E, E'. apply elem_of_app. right. apply elem_of_app. by left.
Qed.

Lemma elem_of_stripped_items (items : list str) (x : str) :
  x ∈ concat ((fun item => match strip item with
                           | [] => []
                           | c :: t => [c :: t]
                           end) <$> items)
  <-> x <> [] /\ exists item, item ∈ items /\ strip item = x.
Proof.
  induction items as [|item items IH].
  - split; [by intros ?%elem_of_nil|]. by intros (_ & ? & ?%elem_of_nil & _).
  - rewrite fmap_cons. cbn [concat]. rewrite elem_of_app, IH. split.
    + intros [Hx|(Hne & item' & Hin & E)].
      * destruct (strip item) as [|c t] eqn:Es; [by apply elem_of_nil in Hx|].
        apply list_elem_of_singleton in Hx as ->. split; [done|].
        exists item. split; [by left|done].
      * split; [done|]. exists item'. split; [by right|done].
    + intros (Hne & item' & [->|Hin]%elem_of_cons & E).
      * left. rewrite E. destruct x; [done|]. by apply list_elem_of_singleton.
      * right. split; [done|]. by exists item'.
Qed.

Lemma parse_list_elem (value : str) (default : gset str) (x : str) :
  value <> [] ->
  x ∈ _parse_list value default
  <-> x <> [] /\ exists item, item ∈ split_comma value /\ strip item = x.
Proof.
  intros Hv. unfold _parse_list. destruct value as [|c rest]; [done|].
  by rewrite elem_of_list_to_set, elem_of_stripped_items.
Qed.

(** X22. For a value that is not empty, [_parse_list] ignores the default
    and returns the stripped pieces between the commas that are not
    blank, each one once: an element is never empty, has no surrounding
    whitespace and no comma, and the pieces joined by commas are the
    value. *)
Theorem parse_list_items (value : str) (default : gset str) (x : str) :
  value <> [] ->
  join (py ",") (split_comma value) = value
  /\ (x ∈ _parse_list value default
      <-> x <> [] /\ exists item, item ∈ split_comma value /\ strip item = x)
  /\ (x ∈ _parse_list value default -> strip x = x /\ ch "," ∉ x).
Proof.
  intros Hv. split; [apply split_comma_join|]. split; [by apply parse_list_elem|].
  intros (Hne & item & Hin & <-)%parse_list_elem; [|done]. split.
  - apply strip_idem.
  - intros Hc%strip_elem. by apply (split_comma_no_comma value item).
Qed.

Lemma parse_list_items_witness :
  join (py ",") (split_comma (py "pptx, odt ,,")) = py "pptx, odt ,,"
  /\ (py "odt" ∈ _parse_list (py "pptx, odt ,,") DEFAULT_EXTENSIONS
      <-> py "odt" <> []
          /\ exists item, item ∈ split_comma (py "pptx, odt ,,") /\ strip item = py "odt")
  /\ (py "odt" ∈ _parse_list (py "pptx, odt ,,") DEFAULT_EXTENSIONS
      -> strip (py "odt") = py "odt" /\ ch "," ∉ py "odt").
Proof.
  apply (parse_list_items (py "pptx, odt ,,") DEFAULT_EXTENSIONS (py "odt")).
  vm_compute. discriminate.
Defined.

(** X23. The allowed extensions always include the three defaults; the
    [ALLOWED_EXTENSIONS] variable can only add to them, and what it adds
    are its stripped, non-blank pieces between commas.  Unset or empty, it
    leaves exactly the defaults. *)
Theorem allowed_extensions_spec (env_value x : str) :
  (x ∈ allowed_extensions env_value
   <-> x ∈ DEFAULT_EXTENSIONS
       \/ (x <> [] /\ exists item, item ∈ split_comma env_value /\ strip item = x))
  /\ allowed_extensions [] = DEFAULT_EXTENSIONS.
Proof.
  split.
  - unfold allowed_extensions. rewrite elem_of_union.
    destruct env_value as [|c rest].
    + cbn [_parse_list split_comma]. split; [intros [?|?]; by left|].
      intros [?|(Hne & item & ->%list_elem_of_singleton & E)]; [by left|].
      by rewrite <- E in Hne.
    + rewrite parse_list_elem by done. tauto.
  - unfold allowed_extensions. cbn [_parse_list]. set_solver.
Qed.

(** ** Encoding and decoding the list of strings *)

Lemma scanstring_escape_char (c : char) (fuel : nat) (rest acc : str) :
  scanstring (S fuel) (escape_char c ++ rest) acc = scanstring fuel rest (c :: acc).
Proof.
  destruct (N.ltb_spec c 32) as [Hlt|Hge].
  - assert (Hc : exists n, (n < 32)%nat /\ c = N.of_nat n).
    { exists (N.to_nat c). split; [lia|]. by rewrite N2Nat.id. }
    destruct Hc as (n & Hn & ->).
    do 32 (destruct n as [|n]; [reflexivity|]). lia.
  - unfold escape_char.
    destruct (N.eqb_spec c QUOTE) as [->|H1]; [reflexivity|].
    destruct (N.eqb_spec c BACKSLASH) as [->|H2]; [reflexivity|].
    rewrite !eqb_ne by lia.
    assert (Hge' : (c <? 32) = false) by (apply N.ltb_ge; lia).
    rewrite Hge'. cbn [app scanstring].
    by rewrite (eqb_ne c QUOTE), (eqb_ne c BACKSLASH), Hge' by done.
Qed.

Lemma scanstring_encoded (s : str) (fuel : nat) (rest acc : str) :
  (length s < fuel)%nat ->
  scanstring fuel (concat (map escape_char s) ++ QUOTE :: rest) acc
  = Some (rev acc ++ s, rest).
Proof.
  revert fuel acc. induction s as [|c s IH]; intros fuel acc Hf;
    (destruct fuel as [|fuel]; [simpl in Hf; lia|]).
  - cbn. by rewrite app_nil_r.
  - cbn [map concat]. rewrite <- app_assoc, scanstring_escape_char.
    rewrite IH by (simpl in Hf; lia). cbn [rev]. by rewrite <- app_assoc.
Qed.

Lemma escaped_length (s : str) : (length s <= length (concat (map escape_char s)))%nat.
Proof.
  induction s as [|c s IH]; [done|]. cbn [map concat]. rewrite length_app.
  assert (1 <= length (escape_char c))%nat; [|simpl; lia].
  unfold escape_char. repeat case_match; simpl; lia.
Qed.

Section RoundTripOfDumps.
Context `{PyRuntime}.

Lemma scan_once_quote (fuel room : nat) (rest : str) :
  scan_once (S fuel) room (QUOTE :: rest)
  = match scanstring (S (length rest)) rest [] with
    | Some (body, r) => Ok (JString body, r)
    | None => Raise JSONDecodeError
    end.
Proof. reflexivity. Qed.

Lemma scan_once_bracket (fuel room : nat) (tail : str) :
  scan_once (S fuel) (S room) (ch "[" :: QUOTE :: tail)
  = let* '(vs, r) := parse_items fuel room (QUOTE :: tail) in Ok (JArray vs, r).
Proof. reflexivity. Qed.

Lemma parse_items_step (fuel room : nat) (s : str) :
  parse_items (S fuel) room s
  = let* '(v, r) := scan_once fuel room s in
    match skip_ws r with
    | c :: r' =>
        if c =? ch "]" then Ok ([v], r')
        else if c =? ch "," then
          let* '(vs, r'') := parse_items fuel room (skip_ws r') in
          Ok (v :: vs, r'')
        else Raise JSONDecodeError
    | [] => Raise JSONDecodeError
    end.
Proof. reflexivity. Qed.

Lemma scan_once_encoded (s : str) (fuel room : nat) (rest : str) :
  scan_once (S fuel) room (encode_string s ++ rest) = Ok (JString s, rest).
Proof.
  unfold encode_string. rewrite <- !app_assoc.
  change ([QUOTE] ++ ?l) with (QUOTE :: l). rewrite scan_once_quote.
  change ([QUOTE] ++ rest) with (QUOTE :: rest).
  rewrite scanstring_encoded; [done|].
  rewrite length_app. pose proof (escaped_length s). lia.
Qed.

Lemma join_encoded_head (s : str) (strs : list str) :
  exists tail, join (py ", ") (map encode_string (s :: strs)) = QUOTE :: tail.
Proof. destruct strs; cbn; by eexists. Qed.

Lemma join_encoded_cons (s s' : str) (strs : list str) :
  join (py ", ") (map encode_string (s :: s' :: strs))
  = encode_string s
    ++ ch "," :: 32 :: join (py ", ") (map encode_string (s' :: strs)).
Proof. reflexivity. Qed.

Lemma parse_items_encoded (strs : list str) (s : str) (fuel room : nat) (rest : str) :
  (length strs + 2 <= fuel)%nat ->
  parse_items fuel room (join (py ", ") (map encode_string (s :: strs)) ++ ch "]" :: rest)
  = Ok (JString <$> (s :: strs), rest).
Proof.
  revert s fuel. induction strs as [|s' strs IH]; intros s fuel Hf;
    (destruct fuel as [|[|fuel]]; [simpl in Hf; lia..|]).
  - cbn [map join]. rewrite parse_items_step, scan_once_encoded. reflexivity.
  - rewrite join_encoded_cons, <- !app_assoc.
    rewrite parse_items_step, scan_once_encoded.
    pose proof (IH s' (S fuel) ltac:(simpl in Hf; lia)) as IH'.
    destruct (join_encoded_head s' strs) as (tail & Et).
    rewrite Et in *. cbn [bind].
    change (skip_ws ((ch "," :: 32 :: QUOTE :: tail) ++ ?r))
      with (ch "," :: 32 :: (QUOTE :: tail) ++ r).
    change (ch "," =? ch "]") with false. change (ch "," =? ch ",") with true.
    cbv iota.
    change (skip_ws (32 :: (QUOTE :: tail) ++ ?r)) with ((QUOTE :: tail) ++ r).
    by rewrite IH'.
Qed.

Lemma join_encoded_length (strs : list str) :
  (length strs <= length (join (py ", ") (map encode_string strs)))%nat.
Proof.
  induction strs as [|s strs IH]; [done|].
  destruct strs as [|s' strs].
  - cbn. lia.
  - rewrite join_encoded_cons. rewrite length_app. simpl in IH |- *. lia.
Qed.

Lemma json_loads_dumps (strs : list str) :
  json_loads (json_dumps strs) = Ok (JArray (JString <$> strs)).
Proof.
  unfold json_loads.
  destruct strs as [|s strs].
  { replace (2 * length (json_dumps []) + 2)%nat
      with (S (2 * length (json_dumps []) + 1))%nat by lia.
    reflexivity. }
  unfold json_dumps.
  pose proof (join_encoded_length (s :: strs)) as Hlen.
  pose proof (parse_items_encoded strs s) as Hp.
  destruct (join_encoded_head s strs) as (tail & Et).
  rewrite Et in *.
  change (py "[" ++ (QUOTE :: tail) ++ py "]")
    with (ch "[" :: QUOTE :: tail ++ [ch "]"]).
  change (skip_ws (ch "[" :: ?l)) with (ch "[" :: l).
  replace (2 * length (ch "[" :: QUOTE :: tail ++ [ch "]"]) + 2)%nat
    with (S (2 * length (ch "[" :: QUOTE :: tail ++ [ch "]"]) + 1))%nat by lia.
  rewrite scan_once_bracket.
  change (QUOTE :: tail ++ [ch "]"]) with ((QUOTE :: tail) ++ ch "]" :: []).
  rewrite Hp; [done|].
  cbn [length] in Hlen |- *. rewrite length_app. cbn [length]. lia.
Qed.

(** X24. What the request encodes the response parser decodes: the JSON
    text [json.dumps] makes of a list of strings, as in the user message of
    the request, is accepted by the first step of the cascade, untouched
    by the strip before it, and gives back the same strings in the same
    order, whatever characters they hold. *)
Theorem extract_translations_of_dumps (strs : list str) :
  strip (json_dumps strs) = json_dumps strs
  /\ _extract_translations (json_dumps strs) (length strs) = Ok (JString <$> strs).
Proof.
  split.
  - unfold strip, json_dumps.
    change (py "[" ++ ?l) with (ch "[" :: l).
    change (lstrip (ch "[" :: ?l)) with (ch "[" :: l).
    change (ch "[" :: ?l ++ py "]") with ((ch "[" :: l) ++ [ch "]"]).
    by apply rstrip_last.
  - unfold _extract_translations. rewrite json_loads_dumps.
    unfold accept_parsed. by rewrite length_fmap, Nat.eqb_refl.
Qed.

End RoundTripOfDumps.
